(** * shorfin: the MWIS demo solver (class [MWISSolver])

    A shallow embedding of the graph generator [createGraph], the greedy
    selection routine [findMWISSolution] and [calculateTotalWeight] of the
    dashboard's MWIS page, together with the properties the specification
    states about them.  It is followed by the other methods of the page
    (the graph metrics, the solver's fields, the drawing calls) and by the
    factoring demo of [ShorSimulator], with properties read off the code.

    Conventions of the embedding.
    - JavaScript numbers that hold weights, coordinates, scores and random
      draws are rationals ([Q]); array indices, node identifiers and degree
      counters are [nat].  The quotient that gives a node its score is
      rounded to the nearest binary64 value, as the division of the code
      rounds it: two nodes whose quotients differ only past the last bit tie,
      and the tie decides the processing order.
    - A JavaScript [Set] is a duplicate-free list in insertion order, which
      is the order [Array.from] enumerates it in.
    - [Math.random] is an explicit stream of draws, consumed left to right. *)

From Stdlib Require Import String List Arith Lia Bool ZArith QArith Lqa Permutation Sorted.
From Stdlib Require Import Qabs.
Import ListNotations.

Local Open Scope nat_scope.

(** ** JavaScript helpers *)

Module JS.

(** [s.has(x)] on a [Set] of numbers. *)
Definition set_has (x : nat) (s : list nat) : bool := existsb (Nat.eqb x) s.

(** [s.add(x)]: appended when absent, so the insertion order is kept. *)
Definition set_add (x : nat) (s : list nat) : list nat :=
  if set_has x s then s else s ++ [x].

(** A cell of an array of counters: [Some d] is the number [d], [None] is a
    hole or [NaN] (neither is a usable number, and [++] keeps both so). *)
Definition cell := option nat.

(** [a[u]++].  In range the counter is incremented.  Out of range the array
    is extended: the cells in between stay holes and cell [u] receives
    [undefined + 1], that is [NaN]. *)
Fixpoint incr_at (u : nat) (a : list cell) : list cell :=
  match u, a with
  | O, [] => [None]
  | O, c :: a' => option_map S c :: a'
  | S u', [] => None :: incr_at u' []
  | S u', c :: a' => c :: incr_at u' a'
  end.

(** [arr.map((x, i) => f x i)], with the running index starting at [i0]. *)
Fixpoint mapi_from {A B : Type} (f : A -> nat -> B) (i0 : nat) (l : list A)
  : list B :=
  match l with
  | [] => []
  | a :: l' => f a i0 :: mapi_from f (S i0) l'
  end.

Definition mapi {A B : Type} (f : A -> nat -> B) (l : list A) : list B :=
  mapi_from f 0 l.

(** [a < b] on rationals, as a boolean. *)
Definition Qlt_bool (a b : Q) : bool := negb (Qle_bool b a).

(** The integer nearest to [n / d] for [d > 0]; halfway between two
    integers the even one is taken. *)
Definition roundHalfEven (n d : Z) : Z :=
  let q := (n / d)%Z in
  match (2 * (n mod d) ?= d)%Z with
  | Lt => q
  | Gt => (q + 1)%Z
  | Eq => if Z.even q then q else (q + 1)%Z
  end.

(** The binary64 value nearest to [x], ties to the even significand: the
    rounding every arithmetic operation on JavaScript numbers ends with.
    With [2 ^ e <= |x| < 2 ^ (e + 1)] the result is a multiple of
    [2 ^ (e - 52)], and of [2 ^ -1074] in the subnormal range.  Magnitudes
    beyond the largest finite number (about [1.8e308]), which the code would
    turn into [Infinity], are rounded like the others. *)
Definition roundDouble (x : Q) : Q :=
  let n := Qnum x in
  let d := Zpos (Qden x) in
  if (n =? 0)%Z then 0%Q
  else
    let a := Z.abs n in
    let e0 := (Z.log2 a - Z.log2 d)%Z in
    let below :=
      if (0 <=? e0)%Z then (a <? d * 2 ^ e0)%Z else (a * 2 ^ (- e0) <? d)%Z in
    let e := if below then (e0 - 1)%Z else e0 in
    let ex := Z.max (e - 52) (-1074) in
    let v :=
      if (0 <=? ex)%Z
      then inject_Z (roundHalfEven a (d * 2 ^ ex) * 2 ^ ex)
      else roundHalfEven (a * 2 ^ (- ex)) d # Z.to_pos (2 ^ (- ex)) in
    if (n <? 0)%Z then (- v)%Q else v.

End JS.

(** ** Data model *)

(** A node object [{id, x, y, weight, radius}]. *)
Record Node : Type := mkNode {
  id : nat;
  x : Q;
  y : Q;
  weight : Q;
  radius : Q
}.

(** An edge is the two-element array [[u, v]]. *)
Definition Edge : Type := (nat * nat)%type.

(** The graph object [{nodes, edges}]. *)
Record Graph : Type := mkGraph {
  nodes : list Node;
  edges : list Edge
}.

(** An entry [{id, score}] of [nodeScores]; a score of [None] is [NaN]. *)
Record NodeScore : Type := mkNodeScore {
  ns_id : nat;
  ns_score : option Q
}.

(** ** The greedy heuristic *)

Module MWISSolver.

Import JS.

(** [new Array(nodes.length).fill(0)] followed by the [forEach] over the
    edges that runs [degrees[u]++; degrees[v]++]. *)
Definition computeDegrees (n : nat) (es : list Edge) : list cell :=
  fold_left (fun d (e : Edge) => incr_at (snd e) (incr_at (fst e) d))
            es (repeat (Some 0) n).

(** [node.weight / (degrees[i] + 1)]; not a number when [degrees[i]] is
    not one.  The sum [degrees[i] + 1] is a small integer and exact; the
    quotient is rounded. *)
Definition scoreOf (degrees : list cell) (nd : Node) (i : nat) : option Q :=
  match nth_error degrees i with
  | Some (Some d) =>
      Some (roundDouble (weight nd / (inject_Z (Z.of_nat d) + 1)))%Q
  | _ => None
  end.

(** [nodes.map((node, i) => ({id: i, score: ...}))]. *)
Definition nodeScores (g : Graph) : list NodeScore :=
  let degrees := computeDegrees (length (nodes g)) (edges g) in
  mapi (fun nd i => mkNodeScore i (scoreOf degrees nd i)) (nodes g).

(** The comparator [(a, b) => b.score - a.score]; [None] is [NaN].  [sort]
    reads only the sign of the value, and the difference of two binary64
    numbers, once rounded, has the sign of the exact difference. *)
Definition compareFn (a b : NodeScore) : option Q :=
  match ns_score a, ns_score b with
  | Some sa, Some sb => Some (sb - sa)%Q
  | _, _ => None
  end.

(** The comparator says [a] must come after [b]: its value is positive.
    A [NaN] value is read by [sort] as [+0], hence not positive. *)
Definition comesAfter (a b : NodeScore) : bool :=
  match compareFn a b with
  | Some q => Qlt_bool 0 q
  | None => false
  end.

(** [Array.prototype.sort] is a stable sort.  [insert a l] puts [a], which
    stood before every element of [l] in the input, into the sorted [l]:
    [a] moves right only past elements it must come after. *)
Fixpoint insert (a : NodeScore) (l : list NodeScore) : list NodeScore :=
  match l with
  | [] => [a]
  | b :: l' => if comesAfter a b then b :: insert a l' else a :: b :: l'
  end.

Fixpoint sort (l : list NodeScore) : list NodeScore :=
  match l with
  | [] => []
  | a :: l' => insert a (sort l')
  end.

(** The inner [forEach] of the selection loop:
    [if (u === id) conflicts.add(v); if (v === id) conflicts.add(u)]. *)
Definition markConflicts (i : nat) (es : list Edge) (conflicts : list nat)
  : list nat :=
  fold_left
    (fun c (e : Edge) =>
       let c1 := if fst e =? i then set_add (snd e) c else c in
       if snd e =? i then set_add (fst e) c1 else c1)
    es conflicts.

(** One round of the outer [forEach], on the pair (selected, conflicts). *)
Definition selectStep (es : list Edge) (st : list nat * list nat) (i : nat)
  : list nat * list nat :=
  let (selected, conflicts) := st in
  if negb (set_has i conflicts)
  then (set_add i selected, markConflicts i es conflicts)
  else (selected, conflicts).

(** The whole selection loop over a processing order of identifiers. *)
Definition greedy (es : list Edge) (order : list nat) : list nat * list nat :=
  fold_left (selectStep es) order ([], []).

(** The identifiers of the sorted [nodeScores], in processing order. *)
Definition processingOrder (g : Graph) : list nat :=
  map ns_id (sort (nodeScores g)).

(** [findMWISSolution(algorithm)] on [this.graph = g]; the [algorithm]
    argument is not read by the body.  The result is
    [Array.from(selected)]. *)
Definition findMWISSolution (g : Graph) : list nat :=
  fst (greedy (edges g) (processingOrder g)).

(** [calculateTotalWeight(solution)]: the [reduce] from [0].  Reading
    [.weight] of a missing node throws a [TypeError], rendered as [None]. *)
Definition calculateTotalWeight (g : Graph) (solution : list nat) : option Q :=
  fold_left
    (fun (sum : option Q) nodeId =>
       match sum, nth_error (nodes g) nodeId with
       | Some s, Some nd => Some (s + weight nd)%Q
       | _, _ => None
       end)
    solution (Some 0%Q).

(** *** Graph generation *)

(** The two canvas dimensions [createGraph] reads. *)
Record Canvas : Type := mkCanvas {
  width : Q;
  height : Q
}.

(** Computations that call [Math.random]: the state is the number of
    draws made so far from the stream [random]. *)
Section Generator.

Variable random : nat -> Q.

Definition Gen (A : Type) : Type := nat -> A * nat.

Definition ret {A : Type} (a : A) : Gen A := fun c => (a, c).

Definition bind {A B : Type} (m : Gen A) (k : A -> Gen B) : Gen B :=
  fun c => let (a, c') := m c in k a c'.

Local Notation "v <- m ;; k" := (bind m (fun v => k))
  (at level 61, m at next level, right associativity).

(** [Math.random()]. *)
Definition mathRandom : Gen Q := fun c => (random c, S c).

(** A [for] loop (or [forEach]) whose body updates the accumulator [s]. *)
Fixpoint forEachM {A S : Type} (l : list A) (body : S -> A -> Gen S) (s : S)
  : Gen S :=
  match l with
  | [] => ret s
  | a :: l' => s' <- body s a ;; forEachM l' body s'
  end.

(** The node loop: [nodes.push({id: i, x: ..., y: ..., weight: ...,
    radius: 20})], the three draws in the order the literal lists them.
    The products and sums are kept exact here.  The code rounds each to
    binary64, which moves a value by less than one part in [2 ^ 52] and
    never across a binary64 bound: a weight can land on 5/2 itself. *)
Definition pushNode (cv : Canvas) (ns : list Node) (i : nat)
  : Gen (list Node) :=
  rx <- mathRandom ;;
  ry <- mathRandom ;;
  rw <- mathRandom ;;
  ret (ns ++ [mkNode i
                (rx * (width cv - 100) + 50)%Q
                (ry * (height cv - 100) + 50)%Q
                (rw * 2 + (1 # 2))%Q
                20%Q]).

Definition generateNodes (cv : Canvas) (n : nat) : Gen (list Node) :=
  forEachM (seq 0 n) (pushNode cv) [].

(** The regular branch: [k = 3], [edges.push([i, (i + j) % n])] for
    [j = 1 .. k]. *)
Definition regularEdges (n : nat) : list Edge :=
  fold_left
    (fun es i =>
       fold_left (fun es' j => es' ++ [(i, (i + j) mod n)]) (seq 1 3) es)
    (seq 0 n) [].

(** The seed of the scale-free branch: the pairs [i < j < m0] with
    [m0 = 3], pushed whatever [n] is. *)
Definition seedEdges : list Edge :=
  fold_left
    (fun es i =>
       fold_left (fun es' j => es' ++ [(i, j)]) (seq (i + 1) (3 - (i + 1))) es)
    (seq 0 3) [].

(** [degrees = new Array(i).fill(0)] and the [forEach] with the two
    guarded increments. *)
Definition attachDegrees (i : nat) (es : list Edge) : list cell :=
  fold_left
    (fun d (e : Edge) =>
       let d1 := if fst e <? i then incr_at (fst e) d else d in
       if snd e <? i then incr_at (snd e) d1 else d1)
    es (repeat (Some 0) i).

(** [degrees.reduce((a, b) => a + b, 0)]; [None] is [NaN]. *)
Definition totalDegree (d : list cell) : option nat :=
  fold_left
    (fun (a : option nat) (b : cell) =>
       match a, b with
       | Some a', Some b' => Some (a' + b')
       | _, _ => None
       end)
    d (Some 0).

(** [while (r > degrees[selected]) { r -= degrees[selected]; selected++ }]
    read along the array: [rest] is [degrees] from index [selected] on.
    Past the end [degrees[selected]] is [undefined], and a comparison with
    [undefined] or [NaN] is false, so the loop stops there. *)
Fixpoint pick (r : Q) (selected : nat) (rest : list cell) : nat :=
  match rest with
  | Some d :: rest' =>
      if Qlt_bool (inject_Z (Z.of_nat d)) r
      then pick (r - inject_Z (Z.of_nat d)) (S selected) rest'
      else selected
  | _ => selected
  end.

(** One attachment: [r = Math.random() * totalDegree], the [while] loop,
    and [edges.push([i, selected])].  With [totalDegree] not a number
    neither is [r], and the loop body never runs. *)
Definition attachOne (i : nat) (d : list cell) (es : list Edge) (j : nat)
  : Gen (list Edge) :=
  u <- mathRandom ;;
  let selected :=
    match totalDegree d with
    | Some t => pick (u * inject_Z (Z.of_nat t))%Q 0 d
    | None => 0
    end in
  ret (es ++ [(i, selected)]).

(** The body of the preferential-attachment loop for node [i], [m = 2]. *)
Definition attachNode (es : list Edge) (i : nat) : Gen (list Edge) :=
  forEachM (seq 0 2) (attachOne i (attachDegrees i es)) es.

Definition scaleFreeEdges (n : nat) : Gen (list Edge) :=
  forEachM (seq 3 (n - 3)) attachNode seedEdges.

(** The Erdos-Renyi branch: one draw per pair [i < j], an edge when the
    draw is below [p]. *)
Definition randomPair (p : Q) (i : nat) (es : list Edge) (j : nat)
  : Gen (list Edge) :=
  u <- mathRandom ;;
  ret (if Qlt_bool u p then es ++ [(i, j)] else es).

Definition randomEdges (n : nat) (p : Q) : Gen (list Edge) :=
  forEachM (seq 0 n)
    (fun es i => forEachM (seq (i + 1) (n - (i + 1))) (randomPair p i) es) [].

(** [createGraph(n, p, type)]. *)
Definition createGraph (cv : Canvas) (n : nat) (p : Q) (type : string)
  : Gen Graph :=
  ns <- generateNodes cv n ;;
  es <- (if String.eqb type "regular"%string then ret (regularEdges n)
         else if String.eqb type "scale-free"%string then scaleFreeEdges n
         else randomEdges n p) ;;
  ret (mkGraph ns es).

End Generator.

(** What a call can end in: a returned value or a thrown error. *)
Inductive Error : Type :=
| InvalidArgument
| InvalidGraph
| TypeError.

Inductive Outcome (A : Type) : Type :=
| Returned (a : A)
| Thrown (e : Error).

Arguments Returned {A} a.
Arguments Thrown {A} e.

(** A call of [createGraph] from draw [c] on: the body has no [throw]
    and no operation that can raise, so the call returns. *)
Definition callCreateGraph (random : nat -> Q) (cv : Canvas) (n : nat)
    (p : Q) (type : string) (c : nat) : Outcome Graph :=
  Returned (fst (createGraph random cv n p type c)).

End MWISSolver.

(** ** The heuristic as the method runs: objects in a store

    Arrays and sets are objects of a store and variables hold their
    locations, so that an in-place update ([a[u]++], [sort], [add]) is
    visible through every alias.  Node objects are stored by value inside
    their array: no statement of [findMWISSolution] assigns to a property
    of a node. *)

Module Store.

Import JS MWISSolver.

Inductive obj : Type :=
| ONodes (a : list Node)
| OEdges (a : list Edge)
| OCells (a : list cell)
| OScores (a : list NodeScore)
| OSet (s : list nat)
| OIds (a : list nat).

Definition loc : Type := nat.
Definition store : Type := list obj.

(** A computation on the store; [None] is a run that got stuck on an
    object of the wrong kind or on a dangling location. *)
Definition M (A : Type) : Type := store -> option (A * store).

Definition ret {A : Type} (a : A) : M A := fun h => Some (a, h).

Definition bind {A B : Type} (m : M A) (k : A -> M B) : M B :=
  fun h => match m h with
           | Some (a, h') => k a h'
           | None => None
           end.

Notation "v <- m ;; k" := (bind m (fun v => k))
  (at level 61, m at next level, right associativity).
Notation "m ;;; k" := (bind m (fun _ => k))
  (at level 61, right associativity).

(** A new object gets the next free location. *)
Definition alloc (o : obj) : M loc :=
  fun h => Some (List.length h, h ++ [o]).

Definition read (l : loc) : M obj :=
  fun h => match nth_error h l with
           | Some o => Some (o, h)
           | None => None
           end.

Fixpoint update (l : loc) (o : obj) (h : store) : store :=
  match l, h with
  | _, [] => []
  | O, _ :: h' => o :: h'
  | S l', o' :: h' => o' :: update l' o h'
  end.

Definition write (l : loc) (o : obj) : M unit :=
  fun h => if l <? List.length h then Some (tt, update l o h) else None.

Definition readNodes (l : loc) : M (list Node) :=
  o <- read l ;; match o with ONodes a => ret a | _ => fun _ => None end.

Definition readEdges (l : loc) : M (list Edge) :=
  o <- read l ;; match o with OEdges a => ret a | _ => fun _ => None end.

Definition readCells (l : loc) : M (list cell) :=
  o <- read l ;; match o with OCells a => ret a | _ => fun _ => None end.

Definition readScores (l : loc) : M (list NodeScore) :=
  o <- read l ;; match o with OScores a => ret a | _ => fun _ => None end.

Definition readSet (l : loc) : M (list nat) :=
  o <- read l ;; match o with OSet a => ret a | _ => fun _ => None end.

(** [arr.forEach(body)]. *)
Fixpoint forEach {A : Type} (l : list A) (body : A -> M unit) : M unit :=
  match l with
  | [] => ret tt
  | a :: l' => body a ;;; forEach l' body
  end.

(** [degrees[u]++] on the array at [degrees]. *)
Definition incrAt (degrees : loc) (u : nat) : M unit :=
  d <- readCells degrees ;; write degrees (OCells (incr_at u d)).

(** [s.add(v)] on the set at [s]. *)
Definition setAdd (s : loc) (v : nat) : M unit :=
  xs <- readSet s ;; write s (OSet (set_add v xs)).

(** [findMWISSolution(algorithm)]; [graphNodes] and [graphEdges] are the
    locations held by [this.graph.nodes] and [this.graph.edges]. *)
Definition findMWISSolution (graphNodes graphEdges : loc) : M (list nat) :=
  ns0 <- readNodes graphNodes ;;
  nodes <- alloc (ONodes ns0) ;;
  selected <- alloc (OSet []) ;;
  conflicts <- alloc (OSet []) ;;
  ns <- readNodes nodes ;;
  degrees <- alloc (OCells (repeat (Some 0) (List.length ns))) ;;
  es <- readEdges graphEdges ;;
  forEach es (fun e => incrAt degrees (fst e) ;;; incrAt degrees (snd e)) ;;;
  ns <- readNodes nodes ;;
  d <- readCells degrees ;;
  nodeScores <- alloc (OScores (mapi (fun nd i => mkNodeScore i (scoreOf d nd i)) ns)) ;;
  sc <- readScores nodeScores ;;
  write nodeScores (OScores (sort sc)) ;;;
  sc <- readScores nodeScores ;;
  forEach sc (fun entry =>
    let i := ns_id entry in
    c <- readSet conflicts ;;
    if negb (set_has i c)
    then
      setAdd selected i ;;;
      es <- readEdges graphEdges ;;
      forEach es (fun e =>
        (if fst e =? i then setAdd conflicts (snd e) else ret tt) ;;;
        (if snd e =? i then setAdd conflicts (fst e) else ret tt))
    else ret tt) ;;;
  sel <- readSet selected ;;
  result <- alloc (OIds sel) ;;
  ret sel.

End Store.

(** ** The factoring demo (class [ShorSimulator]) *)

Module ShorSimulator.

(** [obj[N]] on an object literal with numeric keys: the value of the
    first (and only) entry with that key, [undefined] when there is none. *)
Fixpoint lookup {A : Type} (N : nat) (table : list (nat * A)) : option A :=
  match table with
  | [] => None
  | (k, v) :: table' => if N =? k then Some v else lookup N table'
  end.

(** The object literal [knownFactors]. *)
Definition knownFactors : list (nat * (nat * nat)) :=
  [(15, (3, 5)); (21, (3, 7)); (35, (5, 7)); (143, (11, 13));
   (561, (3, 187)); (2047, (23, 89))].

(** [calculateFactors(N)] on a non-negative integer.  The loop runs [i]
    from 2 while [i <= Math.sqrt(N)] and returns at the first [i] with
    [N % i === 0].  For an integer [i] the test [i <= Math.sqrt(N)] is
    [i <= Nat.sqrt N] (the correctly rounded root of an integer below
    [2^52] never reaches the next integer), and [N / i] is exact when
    [i] divides [N]. *)
Definition calculateFactors (N : nat) : nat * nat :=
  match lookup N knownFactors with
  | Some factors => factors
  | None =>
      match find (fun i => N mod i =? 0) (seq 2 (Nat.sqrt N - 1)) with
      | Some i => (i, N / i)
      | None => (1, N)
      end
  end.

End ShorSimulator.

(** ** JavaScript numbers with [NaN] and the infinities

    Used where the code divides by a value that can be zero.  Finite
    values are rationals and the operations on them are exact: where the
    code rounds a result to binary64 the value here differs from it in the
    last bits (0.8 * 0.7 + 0.3 is 86/100 here and 0.8599999999999999 in
    the code), so the properties below bound the values with room for that
    and state no equality with a decimal.  The sign of a zero is not tracked:
    the zero divisors of the modelled code are [+0], except
    [n * (n - 1) / 2] at [n = 0], whose quotient only reaches [Math.abs]. *)

Module JSNum.

Inductive num : Type :=
| Fin (q : Q)
| Inf (positive : bool)
| NaN.

(** The sign of a finite value: [None] for zero. *)
Definition sign (q : Q) : option bool :=
  match (q ?= 0)%Q with
  | Eq => None
  | Gt => Some true
  | Lt => Some false
  end.

Definition neg (a : num) : num :=
  match a with
  | Fin q => Fin (- q)
  | Inf s => Inf (negb s)
  | NaN => NaN
  end.

Definition add (a b : num) : num :=
  match a, b with
  | Fin x, Fin y => Fin (x + y)
  | Fin _, Inf s => Inf s
  | Inf s, Fin _ => Inf s
  | Inf s, Inf t => if Bool.eqb s t then Inf s else NaN
  | _, _ => NaN
  end.

Definition sub (a b : num) : num := add a (neg b).

Definition mul (a b : num) : num :=
  match a, b with
  | Fin x, Fin y => Fin (x * y)
  | Fin x, Inf s =>
      match sign x with Some t => Inf (Bool.eqb s t) | None => NaN end
  | Inf s, Fin x =>
      match sign x with Some t => Inf (Bool.eqb s t) | None => NaN end
  | Inf s, Inf t => Inf (Bool.eqb s t)
  | _, _ => NaN
  end.

Definition div (a b : num) : num :=
  match a, b with
  | Fin x, Fin y =>
      if Qeq_bool y 0
      then match sign x with Some t => Inf t | None => NaN end
      else Fin (x / y)
  | Fin _, Inf _ => Fin 0
  | Inf s, Fin y => Inf (if JS.Qlt_bool y 0 then negb s else s)
  | _, _ => NaN
  end.

(** [Math.abs]. *)
Definition abs (a : num) : num :=
  match a with
  | Fin q => Fin (Qabs q)
  | Inf _ => Inf true
  | NaN => NaN
  end.

(** [a > b]; false as soon as one side is [NaN]. *)
Definition gt (a b : num) : bool :=
  match a, b with
  | Fin x, Fin y => JS.Qlt_bool y x
  | Fin _, Inf s => negb s
  | Inf s, Fin _ => s
  | Inf s, Inf t => s && negb t
  | _, _ => false
  end.

(** [a === b] on numbers; [NaN] equals nothing. *)
Definition strictEq (a b : num) : bool :=
  match a, b with
  | Fin x, Fin y => Qeq_bool x y
  | Inf s, Inf t => Bool.eqb s t
  | _, _ => false
  end.

(** [Math.min(a, b)] and [Math.max(a, b)]: [NaN] when an argument is. *)
Definition min (a b : num) : num :=
  match a, b with
  | NaN, _ => NaN
  | _, NaN => NaN
  | _, _ => if gt a b then b else a
  end.

Definition max (a b : num) : num :=
  match a, b with
  | NaN, _ => NaN
  | _, NaN => NaN
  | _, _ => if gt b a then b else a
  end.

(** A non-negative integer as a number. *)
Definition ofNat (k : nat) : num := Fin (inject_Z (Z.of_nat k)).

End JSNum.

(** ** The graph metrics of [MWISSolver] *)

Module GraphMetrics.

Import JS MWISSolver JSNum.

(** A counter cell read as a number; a hole read by spreading is
    [undefined], which arithmetic turns into [NaN] like a [NaN] cell.
    An array that [incr_at] extended has a [NaN] cell after every hole,
    so that sums which skip holes are [NaN] all the same. *)
Definition cellNum (c : cell) : num :=
  match c with
  | Some d => ofNat d
  | None => NaN
  end.

(** [calculateSymmetryScore()] on [this.graph = g].  The first [reduce]
    has no initial value: it starts from the first element and throws a
    [TypeError] on an empty array.  [Math.max(...degrees)] folds [max]
    from [-Infinity]. *)
Definition calculateSymmetryScore (g : Graph) : Outcome num :=
  let degrees :=
    map cellNum (computeDegrees (List.length (nodes g)) (edges g)) in
  match degrees with
  | [] => Thrown TypeError
  | d0 :: rest =>
      let isRegular := forallb (fun d => strictEq d d0) degrees in
      let len := ofNat (List.length degrees) in
      let mean := div (fold_left add rest d0) len in
      let variance :=
        div (fold_left
               (fun a b => add a (mul (sub b mean) (sub b mean)))
               degrees (Fin 0))
            len in
      let regularityScore := if isRegular then Fin (8 # 10) else Fin (2 # 10) in
      let varianceScore :=
        sub (Fin 1) (div variance (fold_left max degrees (Inf false))) in
      Returned (add (mul regularityScore (Fin (7 # 10)))
                    (mul varianceScore (Fin (3 # 10))))
  end.

(** [determineOptimalApproach(symmetryScore)]. *)
Definition determineOptimalApproach (symmetryScore : num) : string :=
  if gt symmetryScore (Fin (7 # 10))
  then "QFT Quantum Walk (Shor-inspired)"
  else if gt symmetryScore (Fin (4 # 10))
  then "QAOA with Parameter Optimization"
  else "Hybrid Quantum-Classical".

(** [calculateQuantumAdvantage()] on [this.graph = g]. *)
Definition calculateQuantumAdvantage (g : Graph) : Outcome num :=
  let n := ofNat (List.length (nodes g)) in
  let density :=
    div (ofNat (List.length (edges g)))
        (div (mul n (sub n (Fin 1))) (Fin 2)) in
  match calculateSymmetryScore g with
  | Thrown e => Thrown e
  | Returned symmetryScore =>
      let advantage := mul symmetryScore (Fin 50) in
      let advantage :=
        add advantage
            (mul (sub (Fin (5 # 10)) (abs (sub density (Fin (3 # 10)))))
                 (Fin 30)) in
      Returned (max (Fin 10) (min (Fin 80) advantage))
  end.

(** [analyzeGraph()]: nothing when there is no graph, otherwise the
    three values it writes to the page (before [toFixed] formats the two
    numbers). *)
Definition analyzeGraph (graph : option Graph)
  : Outcome (option (num * num * string)) :=
  match graph with
  | None => Returned None
  | Some g =>
      match calculateSymmetryScore g with
      | Thrown e => Thrown e
      | Returned symmetryScore =>
          match calculateQuantumAdvantage g with
          | Thrown e => Thrown e
          | Returned quantumAdvantage =>
              Returned (Some (symmetryScore, quantumAdvantage,
                              determineOptimalApproach symmetryScore))
          end
      end
  end.

End GraphMetrics.

(** ** The solver page: [this.graph], [this.solution] and the timers *)

Module SolverPage.

Import MWISSolver.

(** The object a call of [simulateMWISSolution] resolves with. *)
Record MWISResult : Type := mkMWISResult {
  mr_solution : list nat;
  mr_totalWeight : option Q;
  mr_time : Q;
  mr_algorithm : string;
  mr_quality : Q
}.

(** The body of the timer callback of [simulateMWISSolution(algorithm)],
    run on the graph [this.graph] holds when the timer fires: first the
    draw for [time], then, inside the object literal, the total weight and
    the draw for [quality].  The two scaled draws are kept exact; the code
    rounds them to binary64, so that its [time] can be 1 itself and its
    [quality] the binary64 value of 0.7, just below 7/10. *)
Definition simulateMWISSolution (random : nat -> Q) (g : Graph)
    (algorithm : string) : Gen MWISResult :=
  let solution := findMWISSolution g in
  bind (mathRandom random) (fun ut =>
  let time := (ut * (8 # 10) + (2 # 10))%Q in
  let totalWeight := calculateTotalWeight g solution in
  bind (mathRandom random) (fun uq =>
  ret (mkMWISResult solution totalWeight time algorithm
         (uq * (3 # 10) + (7 # 10))%Q))).

(** The two fields of the solver the methods assign, and the number of
    timers set by [simulateMWISSolution] that have not fired yet.  What
    the methods write to the canvas and to the page is left out; both
    fields are assigned before any drawing call. *)
Record Solver : Type := mkSolver {
  graph : option Graph;
  solution : option (list nat);
  pending : nat
}.

(** The constructor: [graph] and [solution] start as [null], then
    [generateRandomGraph()] stores a random graph on 10 nodes with
    [p = 0.3] and leaves [solution] alone. *)
Definition construct (random : nat -> Q) (cv : Canvas) (c : nat) : Solver :=
  mkSolver (Some (fst (createGraph random cv 10 (3 # 10) "random" c))) None 0.

(** [generateGraph()] with the three values read from the page. *)
Definition generateGraph (random : nat -> Q) (cv : Canvas) (n : nat) (p : Q)
    (type : string) (c : nat) (s : Solver) : Solver :=
  mkSolver (Some (fst (createGraph random cv n p type c))) None (pending s).

(** [solveMWIS()] up to its [await]: without a graph it reports an error
    and returns, otherwise [simulateMWISSolution] sets a timer. *)
Definition solveMWIS (s : Solver) : Solver :=
  match graph s with
  | None => s
  | Some _ => mkSolver (graph s) (solution s) (S (pending s))
  end.

(** A timer fires: the callback computes the result from the current
    graph, the promise resolves and [displayResults] stores
    [result.solution].  Without a graph the callback fails on
    [this.graph.nodes] and nothing is stored. *)
Definition timerFires (random : nat -> Q) (algorithm : string) (c : nat)
    (s : Solver) : Solver :=
  match pending s with
  | O => s
  | S k =>
      match graph s with
      | None => mkSolver None (solution s) k
      | Some g =>
          let result := fst (simulateMWISSolution random g algorithm c) in
          mkSolver (Some g) (Some (mr_solution result)) k
      end
  end.

(** What can happen to a solver, with the number of draws made so far by
    the page at that moment. *)
Inductive Event : Type :=
| Generate (cv : Canvas) (n : nat) (p : Q) (type : string) (c : nat)
| Solve
| Timer (algorithm : string) (c : nat).

Definition step (random : nat -> Q) (s : Solver) (ev : Event) : Solver :=
  match ev with
  | Generate cv n p type c => generateGraph random cv n p type c s
  | Solve => solveMWIS s
  | Timer algorithm c => timerFires random algorithm c s
  end.

(** The solver after the constructor and a sequence of events. *)
Definition run (random : nat -> Q) (cv : Canvas) (c : nat)
    (events : list Event) : Solver :=
  fold_left (step random) events (construct random cv c).

End SolverPage.

(** ** Drawing: the calls [drawGraph] makes on the canvas context *)

Module Rendering.

Import MWISSolver.

(** The two texts [drawGraph] writes: [index.toString()] and
    [node.weight.toFixed(1)], kept as the number they print. *)
Inductive Text : Type :=
| IndexText (index : nat)
| WeightText (w : Q).

(** A call on the context, or an assignment to one of its properties. *)
Inductive Cmd : Type :=
| ClearRect (x y w h : Q)
| StrokeStyle (s : string)
| LineWidth (k : Q)
| BeginPath
| MoveTo (x y : Q)
| LineTo (x y : Q)
| Stroke
| Arc (x y r : Q)
| FillStyle (s : string)
| Fill
| Font (s : string)
| TextAlign (s : string)
| TextBaseline (s : string)
| FillText (t : Text) (x y : Q).

(** The loop over the edges: the commands issued and the error that
    stopped it, if any.  [nodes[u]] of a missing node is [undefined], and
    reading [.x] of it throws when the arguments of [moveTo] (for the
    first endpoint) or of [lineTo] (for the second) are evaluated. *)
Fixpoint drawEdges (ns : list Node) (es : list Edge)
  : list Cmd * option Error :=
  match es with
  | [] => ([], None)
  | (u, v) :: es' =>
      match nth_error ns u, nth_error ns v with
      | Some node1, Some node2 =>
          let (log, err) := drawEdges ns es' in
          ([BeginPath; MoveTo (x node1) (y node1);
            LineTo (x node2) (y node2); Stroke] ++ log, err)
      | None, _ => ([BeginPath], Some TypeError)
      | Some node1, None =>
          ([BeginPath; MoveTo (x node1) (y node1)], Some TypeError)
      end
  end.

(** [this.solution && this.solution.includes(index)]. *)
Definition isSelected (solution : option (list nat)) (index : nat) : bool :=
  match solution with
  | Some sel => JS.set_has index sel
  | None => false
  end.

(** The body of the loop over the nodes; the arc runs from 0 to
    [Math.PI * 2]. *)
Definition drawNode (solution : option (list nat)) (node : Node)
    (index : nat) : list Cmd :=
  [BeginPath; Arc (x node) (y node) (radius node);
   FillStyle (if isSelected solution index then "#10b981" else "#6366f1");
   Fill; StrokeStyle "#1f2937"; LineWidth 2; Stroke;
   FillStyle "white"; Font "bold 12px Arial"; TextAlign "center";
   TextBaseline "middle"; FillText (IndexText index) (x node) (y node);
   FillStyle "#1f2937"; Font "10px Arial";
   FillText (WeightText (weight node)) (x node) (y node + 25)%Q].

(** [drawGraph()]: the commands issued on the context, in order, and the
    error thrown, if any. *)
Definition drawGraph (cv : Canvas) (graph : option Graph)
    (solution : option (list nat)) : list Cmd * option Error :=
  match graph with
  | None => ([ClearRect 0 0 (width cv) (height cv)], None)
  | Some g =>
      let (edgeLog, err) := drawEdges (nodes g) (edges g) in
      let head :=
        [ClearRect 0 0 (width cv) (height cv);
         StrokeStyle "#d1d5db"; LineWidth 2] ++ edgeLog in
      match err with
      | Some e => (head, Some e)
      | None =>
          (head ++ concat (JS.mapi (drawNode solution) (nodes g)), None)
      end
  end.

(** How a call of [generateGraph()] ends: it stores the new graph, clears
    the solution, then draws and analyzes; the first error of the two
    calls, if any, leaves the method. *)
Definition generateGraphError (random : nat -> Q) (cv : Canvas) (n : nat)
    (p : Q) (type : string) (c : nat) : option Error :=
  let g := fst (createGraph random cv n p type c) in
  match snd (drawGraph cv (Some g) None) with
  | Some e => Some e
  | None =>
      match GraphMetrics.analyzeGraph (Some g) with
      | Thrown e => Some e
      | Returned _ => None
      end
  end.

End Rendering.

(** ** Vocabulary of the properties *)

Import JS MWISSolver.

(** Some entry of the edge list joins [u] and [v], in either direction. *)
Definition adjacent (es : list Edge) (u v : nat) : Prop :=
  In (u, v) es \/ In (v, u) es.

(** Every entry of the edge list has both endpoints below [n]. *)
Definition inRange (n : nat) (es : list Edge) : Prop :=
  Forall (fun e : Edge => fst e < n /\ snd e < n) es.

(** No entry of the edge list joins a node to itself. *)
Definition loopFree (es : list Edge) : Prop :=
  Forall (fun e : Edge => fst e <> snd e) es.

(** The number of edge-entry endpoints equal to [i]: what [degrees[i]]
    counts. *)
Fixpoint degree (es : list Edge) (i : nat) : nat :=
  match es with
  | [] => 0
  | e :: es' =>
      (if fst e =? i then 1 else 0) + (if snd e =? i then 1 else 0)
      + degree es' i
  end.

(** The priority score of node [i] as the code computes it: the weight
    over the degree plus one, rounded to binary64. *)
Definition score (g : Graph) (i : nat) : Q :=
  match nth_error (nodes g) i with
  | Some nd =>
      roundDouble (weight nd / (inject_Z (Z.of_nat (degree (edges g) i)) + 1))
  | None => 0%Q
  end.

(** [i] is processed before [j]: a strictly higher score, or the same score
    and the smaller identifier. *)
Definition before (g : Graph) (i j : nat) : Prop :=
  (score g j < score g i)%Q \/ ((score g i == score g j)%Q /\ i < j).

(** The draws of a random stream lie in [[0, 1)]. *)
Definition unitDraws (random : nat -> Q) : Prop :=
  forall k, (0 <= random k /\ random k < 1)%Q.

(** Every entry of the edge list joins two different existing nodes. *)
Definition validEdges (n : nat) (es : list Edge) : Prop :=
  Forall (fun e : Edge => fst e < n /\ snd e < n /\ fst e <> snd e) es.

(** The stream whose every draw is [q]. *)
Definition constDraws (q : Q) : nat -> Q := fun _ => q.

(** Every pair [i < j < n], in the order the Erdos-Renyi loops visit
    them. *)
Definition allPairs (n : nat) : list Edge :=
  flat_map (fun i => map (pair i) (seq (i + 1) (n - (i + 1)))) (seq 0 n).

(** The weight range of generated nodes: from 1/2 to 5/2. *)
Definition weightInRange (nd : Node) : Prop :=
  ((1 # 2) <= weight nd /\ weight nd <= (5 # 2))%Q.

(** The canvas of the page: 800 wide (the parent's width at some moment),
    400 high as [setupCanvas] sets it. *)
Definition pageCanvas : Canvas := mkCanvas 800 400.

(** The path 0 - 1 - 2 - 3 with weights 1, 5, 1, 1. *)
Definition pathGraph : Graph :=
  mkGraph [mkNode 0 0 0 1 20; mkNode 1 0 0 5 20;
           mkNode 2 0 0 1 20; mkNode 3 0 0 1 20]
          [(0, 1); (1, 2); (2, 3)].

(** A store that holds the path graph: its node array at location 0, its
    edge array at location 1. *)
Definition pathStore : Store.store :=
  [Store.ONodes (nodes pathGraph); Store.OEdges (edges pathGraph)].

(** Three nodes in a row, 0 - 1 - 2.  The quotients of nodes 0 and 1 are
    [w / 2] and [1 / 3] with [w / 2] the binary64 value just below a third:
    as rationals they differ, as scores they are the same number. *)
Definition tieGraph : Graph :=
  mkGraph [mkNode 0 0 0 (6004799503160661 # 9007199254740992) 20;
           mkNode 1 0 0 1 20;
           mkNode 2 0 0 (1 # 2) 20]
          [(0, 1); (1, 2)].

(** [sel] is a greedy selection of [g]: a node is in it exactly when it
    exists and no neighbour processed before it is. *)
Definition greedySelection (g : Graph) (sel : list nat) : Prop :=
  forall i,
    In i sel <->
    i < List.length (nodes g) /\
    (forall u, In u sel -> adjacent (edges g) u i -> ~ before g u i).

(** What the loop maintains, [done] being the identifiers processed so
    far. *)
Definition greedyInv (es : list Edge) (done : list nat)
    (st : list nat * list nat) : Prop :=
  (forall v, In v (snd st) <-> exists u, In u (fst st) /\ adjacent es u v) /\
  (forall u, In u (fst st) -> In u done) /\
  (forall u, In u done -> In u (fst st) \/ In u (snd st)) /\
  (forall u v, In u (fst st) -> In v (fst st) -> u <> v -> ~ adjacent es u v) /\
  NoDup (fst st).

(** [N] is a prime number. *)
Definition isPrime (N : nat) : Prop :=
  2 <= N /\ forall d, Nat.divide d N -> d = 1 \/ d = N.

(** The other endpoints of the edge entries incident to [u], one per
    endpoint of an entry that equals [u]. *)
Definition neighbours (es : list Edge) (u : nat) : list nat :=
  flat_map
    (fun e : Edge =>
       (if fst e =? u then [snd e] else [])
       ++ (if snd e =? u then [fst e] else []))
    es.

(** The largest counter [degrees[i]] over the nodes of the graph. *)
Definition maxDegree (g : Graph) : nat :=
  list_max (map (degree (edges g)) (seq 0 (List.length (nodes g)))).

(** The sum of the weights of the nodes a list of identifiers names
    (missing nodes count for nothing). *)
Definition weightSum (g : Graph) (ids : list nat) : Q :=
  fold_right
    (fun i acc =>
       match nth_error (nodes g) i with
       | Some nd => (weight nd + acc)%Q
       | None => acc
       end)
    0%Q ids.

(** The degree counters of the nodes of [g], in identifier order. *)
Definition degreesOf (g : Graph) : list nat :=
  map (degree (edges g)) (seq 0 (List.length (nodes g))).

(** All the numbers of a list are the same: on [degreesOf g], the graph is
    regular. *)
Definition allEqual (ds : list nat) : Prop :=
  forall a b, In a ds -> In b ds -> a = b.

(** [l] is [l'] with some elements left out, the order kept. *)
Inductive subseq {A : Type} : list A -> list A -> Prop :=
| subseq_nil : subseq [] []
| subseq_keep (a : A) (l l' : list A) : subseq l l' -> subseq (a :: l) (a :: l')
| subseq_skip (a : A) (l l' : list A) : subseq l l' -> subseq l (a :: l').

(** The command that sets the fill colour of a selected node. *)
Definition isGreenFill (cmd : Rendering.Cmd) : bool :=
  match cmd with
  | Rendering.FillStyle s => String.eqb s "#10b981"
  | _ => false
  end.

(** * Properties *)

(** ** Sets *)

Lemma set_has_In (x : nat) (s : list nat) : set_has x s = true <-> In x s.
Proof.
  unfold set_has. rewrite existsb_exists. split.
  - intros [y [Hy E]]. apply Nat.eqb_eq in E. now subst.
  - intros H. exists x. split; [assumption | apply Nat.eqb_refl].
Qed.

Lemma set_has_false (x : nat) (s : list nat) :
  set_has x s = false <-> ~ In x s.
Proof.
  rewrite <- set_has_In. destruct (set_has x s); split; congruence.
Qed.

Lemma In_set_add (x y : nat) (s : list nat) :
  In y (set_add x s) <-> y = x \/ In y s.
Proof.
  unfold set_add. destruct (set_has x s) eqn:E.
  - apply set_has_In in E. split; [tauto | intros [-> | H]; assumption].
  - rewrite in_app_iff. simpl. split; intros H; intuition congruence.
Qed.

Lemma NoDup_set_add (x : nat) (s : list nat) :
  NoDup s -> NoDup (set_add x s).
Proof.
  intros H. unfold set_add. destruct (set_has x s) eqn:E; [assumption |].
  apply set_has_false in E.
  apply NoDup_rev in H. rewrite <- (rev_involutive (s ++ [x])).
  apply NoDup_rev. rewrite rev_app_distr. simpl. constructor; [| assumption].
  now rewrite <- in_rev.
Qed.

Lemma adjacent_sym (es : list Edge) (u v : nat) :
  adjacent es u v -> adjacent es v u.
Proof. unfold adjacent. tauto. Qed.

(** ** The selection loop *)

Lemma In_markConflicts (i : nat) (es : list Edge) :
  forall (c : list nat) (v : nat),
    In v (markConflicts i es c) <-> In v c \/ adjacent es i v.
Proof.
  unfold markConflicts, adjacent.
  induction es as [| [a b] es IH]; intros c v; simpl.
  - tauto.
  - rewrite IH. clear IH.
    destruct (Nat.eqb_spec a i) as [Ea | Ea];
      destruct (Nat.eqb_spec b i) as [Eb | Eb];
      repeat rewrite In_set_add; subst;
      split; intros H;
      repeat match goal with
             | H : _ \/ _ |- _ => destruct H
             | H : (_, _) = (_, _) |- _ => inversion H; clear H; subst
             end; auto; try congruence.
Qed.


Lemma greedyInv_init (es : list Edge) : greedyInv es [] ([], []).
Proof.
  unfold greedyInv. simpl. repeat split; try tauto.
  - intros [u [[] _]].
  - constructor.
Qed.

Lemma greedyInv_step (es : list Edge) (done : list nat)
    (st : list nat * list nat) (i : nat) :
  greedyInv es done st -> greedyInv es (done ++ [i]) (selectStep es st i).
Proof.
  destruct st as [sel conf]. unfold greedyInv, selectStep. simpl.
  intros (Hconf & Hsub & Hcov & Hind & Hnd).
  destruct (set_has i conf) eqn:E; simpl.
  - apply set_has_In in E. repeat split; auto.
    + apply Hconf.
    + apply Hconf.
    + intros u Hu. apply in_or_app. left. auto.
    + intros u Hu. apply in_app_or in Hu. destruct Hu as [Hu | [<- | []]]; auto.
  - apply set_has_false in E. repeat split.
    + intros Hv. apply In_markConflicts in Hv. destruct Hv as [Hv | Hv].
      * apply Hconf in Hv. destruct Hv as [u [Hu Ha]].
        exists u. split; [apply In_set_add; auto | assumption].
      * exists i. split; [apply In_set_add; auto | assumption].
    + intros [u [Hu Ha]]. apply In_markConflicts.
      apply In_set_add in Hu. destruct Hu as [-> | Hu]; [now right |].
      left. apply Hconf. now exists u.
    + intros u Hu. apply in_or_app. apply In_set_add in Hu.
      destruct Hu as [-> | Hu]; [right; now left | left; auto].
    + intros u Hu. apply in_app_or in Hu.
      destruct Hu as [Hu | [<- | []]].
      * destruct (Hcov u Hu) as [H | H].
        -- left. apply In_set_add. now right.
        -- right. apply In_markConflicts. now left.
      * left. apply In_set_add. now left.
    + intros u v Hu Hv Hne Ha.
      apply In_set_add in Hu. apply In_set_add in Hv.
      destruct Hu as [-> | Hu]; destruct Hv as [-> | Hv].
      * congruence.
      * apply E. apply Hconf. exists v. split; [assumption |].
        now apply adjacent_sym.
      * apply E. apply Hconf. now exists u.
      * exact (Hind u v Hu Hv Hne Ha).
    + now apply NoDup_set_add.
Qed.

Lemma greedyInv_fold (es : list Edge) (order : list nat) :
  forall (done : list nat) (st : list nat * list nat),
    greedyInv es done st ->
    greedyInv es (done ++ order) (fold_left (selectStep es) order st).
Proof.
  induction order as [| i order IH]; intros done st H; simpl.
  - now rewrite app_nil_r.
  - replace (done ++ i :: order) with ((done ++ [i]) ++ order)
      by (rewrite <- app_assoc; reflexivity).
    apply IH. now apply greedyInv_step.
Qed.

Lemma greedyInv_greedy (es : list Edge) (order : list nat) :
  greedyInv es order (greedy es order).
Proof.
  unfold greedy. apply (greedyInv_fold es order [] ([], [])).
  apply greedyInv_init.
Qed.

(** ** The processing order *)

Lemma insert_perm (a : NodeScore) (l : list NodeScore) :
  Permutation (insert a l) (a :: l).
Proof.
  induction l as [| b l IH]; simpl; [reflexivity |].
  destruct (comesAfter a b); [| reflexivity].
  rewrite IH. apply perm_swap.
Qed.

Lemma sort_perm (l : list NodeScore) : Permutation (sort l) l.
Proof.
  induction l as [| a l IH]; simpl; [reflexivity |].
  rewrite insert_perm. now constructor.
Qed.

Lemma mapi_from_ids {A : Type} (f : A -> nat -> option Q) (l : list A) :
  forall i0,
    map ns_id (mapi_from (fun a i => mkNodeScore i (f a i)) i0 l)
    = seq i0 (List.length l).
Proof.
  induction l as [| a l IH]; intros i0; simpl; [reflexivity |].
  now rewrite IH.
Qed.

Lemma nodeScores_ids (g : Graph) :
  map ns_id (nodeScores g) = seq 0 (List.length (nodes g)).
Proof. unfold nodeScores, mapi. apply mapi_from_ids. Qed.

Lemma processingOrder_perm (g : Graph) :
  Permutation (processingOrder g) (seq 0 (List.length (nodes g))).
Proof.
  unfold processingOrder. rewrite <- nodeScores_ids.
  apply Permutation_map. apply sort_perm.
Qed.

Lemma In_processingOrder (g : Graph) (i : nat) :
  In i (processingOrder g) <-> i < List.length (nodes g).
Proof.
  split; intros H.
  - apply (Permutation_in _ (processingOrder_perm g)) in H.
    apply in_seq in H. lia.
  - apply (Permutation_in _ (Permutation_sym (processingOrder_perm g))).
    apply in_seq. lia.
Qed.

(** ** Degrees and scores *)

Lemma incr_at_nth (u : nat) :
  forall (a : list cell) (i d : nat),
    nth_error a i = Some (Some d) ->
    nth_error (incr_at u a) i = Some (Some (if u =? i then S d else d)).
Proof.
  induction u as [| u IH]; intros [| c a] [| i] d H; simpl in *;
    try discriminate.
  - now inversion H.
  - assumption.
  - assumption.
  - now apply IH.
Qed.

Lemma computeDegrees_fold (es : list Edge) :
  forall (d : list cell) (i k : nat),
    nth_error d i = Some (Some k) ->
    nth_error
      (fold_left (fun d (e : Edge) => incr_at (snd e) (incr_at (fst e) d)) es d)
      i = Some (Some (k + degree es i)).
Proof.
  induction es as [| e es IH]; intros d i k H; simpl.
  - now rewrite Nat.add_0_r.
  - erewrite IH.
    2:{ apply incr_at_nth. apply incr_at_nth. exact H. }
    do 2 f_equal.
    destruct (fst e =? i); destruct (snd e =? i); lia.
Qed.

Lemma computeDegrees_nth (n : nat) (es : list Edge) (i : nat) :
  i < n -> nth_error (computeDegrees n es) i = Some (Some (degree es i)).
Proof.
  intros H. unfold computeDegrees.
  rewrite (computeDegrees_fold es _ i 0); [reflexivity |].
  rewrite nth_error_repeat; [reflexivity | assumption].
Qed.

Lemma mapi_from_scores (g : Graph) (l : list Node) :
  forall i0,
    (forall k nd, nth_error l k = Some nd ->
                  nth_error (nodes g) (i0 + k) = Some nd) ->
    Forall (fun e => ns_score e = Some (score g (ns_id e)))
      (mapi_from
         (fun nd i =>
            mkNodeScore i
              (scoreOf (computeDegrees (List.length (nodes g)) (edges g)) nd i))
         i0 l).
Proof.
  induction l as [| nd l IH]; intros i0 H; simpl; constructor.
  - simpl. unfold scoreOf, score.
    assert (Hn : nth_error (nodes g) i0 = Some nd).
    { rewrite <- (Nat.add_0_r i0). now apply H. }
    rewrite Hn, computeDegrees_nth; [reflexivity |].
    apply nth_error_Some. congruence.
  - apply IH. intros k nd' Hk.
    replace (S i0 + k) with (i0 + S k) by lia. now apply H.
Qed.

(** Every score is a number, whatever the edge list refers to. *)
Lemma nodeScores_scores (g : Graph) :
  Forall (fun e => ns_score e = Some (score g (ns_id e))) (nodeScores g).
Proof.
  unfold nodeScores, mapi. apply mapi_from_scores. intros k nd H. exact H.
Qed.

(** ** The sort is the stable descending sort *)

Lemma Qlt_bool_iff (a b : Q) : Qlt_bool a b = true <-> (a < b)%Q.
Proof.
  unfold Qlt_bool. rewrite negb_true_iff. split; intros H.
  - apply Qnot_le_lt. intros Hle. apply Qle_bool_iff in Hle. congruence.
  - destruct (Qle_bool b a) eqn:E; [| reflexivity].
    apply Qle_bool_iff in E. exfalso. exact (Qlt_not_le _ _ H E).
Qed.

Lemma Qlt_bool_false (a b : Q) : Qlt_bool a b = false <-> (b <= a)%Q.
Proof.
  split; intros H.
  - apply Qnot_lt_le. intros Hlt. apply Qlt_bool_iff in Hlt. congruence.
  - destruct (Qlt_bool a b) eqn:E; [| reflexivity].
    apply Qlt_bool_iff in E. exfalso. exact (Qlt_not_le _ _ E H).
Qed.

Lemma before_of_le (g : Graph) (i j : nat) :
  (score g j <= score g i)%Q -> i < j -> before g i j.
Proof.
  intros Hle Hlt. unfold before.
  destruct (Qlt_le_dec (score g j) (score g i)) as [H | H]; [now left |].
  right. split; [now apply Qle_antisym | assumption].
Qed.

Lemma before_le (g : Graph) (i j : nat) :
  before g i j -> (score g j <= score g i)%Q.
Proof.
  intros [H | [H _]]; [now apply Qlt_le_weak |].
  rewrite H. apply Qle_refl.
Qed.

Lemma StronglySorted_map {A B : Type} (R : B -> B -> Prop) (f : A -> B)
    (l : list A) :
  StronglySorted (fun a b => R (f a) (f b)) l <-> StronglySorted R (map f l).
Proof.
  induction l as [| a l IH]; simpl; split; intros H;
    try constructor; inversion H; subst.
  - now apply IH.
  - now apply Forall_map.
  - now apply IH.
  - now apply Forall_map.
Qed.

Lemma StronglySorted_seq (i n : nat) : StronglySorted lt (seq i n).
Proof.
  revert i. induction n as [| n IH]; intros i; simpl; constructor.
  - apply IH.
  - apply Forall_forall. intros k Hk. apply in_seq in Hk. lia.
Qed.

Lemma Forall_insert (P : NodeScore -> Prop) (a : NodeScore)
    (l : list NodeScore) :
  Forall P (insert a l) <-> Forall P (a :: l).
Proof.
  split; apply Permutation_Forall;
    [apply insert_perm | apply Permutation_sym, insert_perm].
Qed.

Lemma Forall_sort (P : NodeScore -> Prop) (l : list NodeScore) :
  Forall P (sort l) <-> Forall P l.
Proof.
  split; apply Permutation_Forall;
    [apply sort_perm | apply Permutation_sym, sort_perm].
Qed.

Lemma comesAfter_true (g : Graph) (a b : NodeScore) :
  ns_score a = Some (score g (ns_id a)) ->
  ns_score b = Some (score g (ns_id b)) ->
  comesAfter a b = true ->
  (score g (ns_id a) < score g (ns_id b))%Q.
Proof.
  intros Ha Hb. unfold comesAfter, compareFn. rewrite Ha, Hb.
  intros H. apply Qlt_bool_iff in H. now apply Qlt_minus_iff.
Qed.

Lemma comesAfter_false (g : Graph) (a b : NodeScore) :
  ns_score a = Some (score g (ns_id a)) ->
  ns_score b = Some (score g (ns_id b)) ->
  comesAfter a b = false ->
  (score g (ns_id b) <= score g (ns_id a))%Q.
Proof.
  intros Ha Hb. unfold comesAfter, compareFn. rewrite Ha, Hb.
  intros H. apply Qlt_bool_false in H.
  apply Qnot_lt_le. intros Hlt. apply Qlt_minus_iff in Hlt.
  exact (Qlt_not_le _ _ Hlt H).
Qed.

Lemma insert_sorted (g : Graph) (a : NodeScore) (l : list NodeScore) :
  StronglySorted (fun c d => before g (ns_id c) (ns_id d)) l ->
  Forall (fun e => ns_score e = Some (score g (ns_id e))) (a :: l) ->
  Forall (fun b => ns_id a < ns_id b) l ->
  StronglySorted (fun c d => before g (ns_id c) (ns_id d)) (insert a l).
Proof.
  induction l as [| b l IH]; intros Hs Hsc Hlt; simpl.
  - repeat constructor.
  - inversion Hs as [| ? ? Hs' Hb]; subst.
    inversion Hsc as [| ? ? Ha Hsc']; subst.
    inversion Hsc' as [| ? ? Hbs Hsc'']; subst.
    inversion Hlt as [| ? ? Hab Hlt']; subst.
    destruct (comesAfter a b) eqn:E.
    + constructor.
      * apply IH; [assumption | now constructor | assumption].
      * apply Forall_insert. constructor; [| assumption].
        left. exact (comesAfter_true g a b Ha Hbs E).
    + pose proof (comesAfter_false g a b Ha Hbs E) as Hle.
      constructor; [assumption |]. constructor.
      * now apply before_of_le.
      * rewrite Forall_forall in *. intros z Hz.
        apply before_of_le; [| now apply Hlt'].
        eapply Qle_trans; [| exact Hle]. apply before_le. now apply Hb.
Qed.

Lemma sort_sorted (g : Graph) (l : list NodeScore) :
  StronglySorted (fun c d => ns_id c < ns_id d) l ->
  Forall (fun e => ns_score e = Some (score g (ns_id e))) l ->
  StronglySorted (fun c d => before g (ns_id c) (ns_id d)) (sort l).
Proof.
  induction l as [| a l IH]; intros Hs Hsc; simpl; [constructor |].
  inversion Hs; subst. inversion Hsc; subst.
  apply insert_sorted.
  - now apply IH.
  - constructor; [assumption | now apply Forall_sort].
  - now apply Forall_sort.
Qed.

Lemma processingOrder_sorted (g : Graph) :
  StronglySorted (before g) (processingOrder g).
Proof.
  unfold processingOrder.
  apply (proj1 (StronglySorted_map (before g) ns_id _)). apply sort_sorted.
  - apply (proj2 (StronglySorted_map lt ns_id _)).
    rewrite nodeScores_ids. apply StronglySorted_seq.
  - apply nodeScores_scores.
Qed.

Lemma mapi_from_weights (d : list cell) (l l' : list Node) :
  map weight l = map weight l' ->
  forall i0,
    mapi_from (fun nd i => mkNodeScore i (scoreOf d nd i)) i0 l
    = mapi_from (fun nd i => mkNodeScore i (scoreOf d nd i)) i0 l'.
Proof.
  revert l'. induction l as [| a l IH]; intros [| a' l'] H i0;
    simpl in *; try discriminate; [reflexivity |].
  inversion H as [[Hw Hl]]. rewrite (IH l' Hl (S i0)).
  unfold scoreOf. now rewrite Hw.
Qed.

Lemma nodeScores_weights (g g' : Graph) :
  map weight (nodes g) = map weight (nodes g') ->
  edges g = edges g' ->
  nodeScores g = nodeScores g'.
Proof.
  intros Hw He. unfold nodeScores, mapi.
  assert (Hlen : List.length (nodes g) = List.length (nodes g')).
  { rewrite <- (length_map weight (nodes g)), Hw. apply length_map. }
  rewrite Hlen, He. now apply mapi_from_weights.
Qed.

(** ** The claims about the heuristic *)

(** C1. For every graph, no two members of the Selection returned by
    [findMWISSolution] are joined by an edge of the graph: the Selection is
    an independent set. *)
Theorem findMWISSolution_independent (g : Graph) (u v : nat) :
  In u (findMWISSolution g) ->
  In v (findMWISSolution g) ->
  u <> v ->
  ~ adjacent (edges g) u v.
Proof.
  unfold findMWISSolution.
  destruct (greedyInv_greedy (edges g) (processingOrder g))
    as (_ & _ & _ & Hind & _).
  apply Hind.
Qed.

Lemma findMWISSolution_independent_witness :
  ~ adjacent (edges pathGraph) 1 3.
Proof.
  apply (findMWISSolution_independent pathGraph 1 3).
  - vm_compute. left. reflexivity.
  - vm_compute. right. left. reflexivity.
  - lia.
Defined.

(** On a graph without self-loops no member of the Selection is joined to
    any member, itself included. *)
Lemma loopFree_selection_independent (g : Graph) (u v : nat) :
  loopFree (edges g) ->
  In u (findMWISSolution g) ->
  In v (findMWISSolution g) ->
  ~ adjacent (edges g) u v.
Proof.
  intros Hlf Hu Hv Ha.
  destruct (Nat.eq_dec u v) as [-> | Hne].
  - unfold loopFree in Hlf. rewrite Forall_forall in Hlf.
    destruct Ha as [Ha | Ha]; exact (Hlf _ Ha eq_refl).
  - unfold findMWISSolution in *.
    destruct (greedyInv_greedy (edges g) (processingOrder g))
      as (_ & _ & _ & Hind & _).
    exact (Hind u v Hu Hv Hne Ha).
Qed.

(** On the path graph nodes 0 and 3 tie at score 1/2, and 0 goes first. *)
Example processingOrder_path : processingOrder pathGraph = [1; 0; 3; 2].
Proof. vm_compute. reflexivity. Qed.

(** C2. On the path 0 - 1 - 2 - 3 with weights 1, 5, 1, 1 the heuristic
    returns exactly the Selection {1, 3}, of total weight 6. *)
Theorem findMWISSolution_path :
  findMWISSolution pathGraph = [1; 3] /\
  calculateTotalWeight pathGraph (findMWISSolution pathGraph) = Some 6%Q.
Proof. split; vm_compute; reflexivity. Qed.

(** *** The Selection is the greedy selection of the processing order *)

Lemma selectStep_keeps (es : list Edge) (order : list nat) :
  forall (st : list nat * list nat) (u : nat),
    In u (fst st) -> In u (fst (fold_left (selectStep es) order st)).
Proof.
  induction order as [| i order IH]; intros st u H; simpl; [exact H |].
  apply IH. destruct st as [sel conf]. unfold selectStep.
  destruct (negb (set_has i conf)); simpl in *; [| exact H].
  apply In_set_add. now right.
Qed.

Lemma before_irrefl (g : Graph) (i : nat) : ~ before g i i.
Proof. intros [H | [_ H]]; [exact (Qlt_irrefl _ H) | lia]. Qed.

Lemma before_asym (g : Graph) (i j : nat) :
  before g i j -> before g j i -> False.
Proof. intros [H1 | [E1 L1]] [H2 | [E2 L2]]; try lra. lia. Qed.

Lemma sorted_split {A : Type} (R : A -> A -> Prop) (l1 : list A) (a : A)
    (l2 : list A) :
  StronglySorted R (l1 ++ a :: l2) ->
  (forall u, In u l1 -> R u a) /\ (forall v, In v l2 -> R a v).
Proof.
  induction l1 as [| b l1 IH]; simpl; intros H;
    inversion H as [| ? ? Hs Hall]; subst.
  - rewrite Forall_forall in Hall. split; [intros u [] | exact Hall].
  - destruct (IH Hs) as [H1 H2]. split; [| exact H2].
    intros u [<- | Hu]; [| now apply H1].
    rewrite Forall_forall in Hall. apply Hall.
    apply in_or_app. right. now left.
Qed.

(** A list has at most one arrangement sorted by an asymmetric relation. *)
Lemma sorted_unique {A : Type} (R : A -> A -> Prop) :
  (forall a b, R a b -> R b a -> False) ->
  forall l m : list A,
    StronglySorted R l -> StronglySorted R m -> Permutation l m -> l = m.
Proof.
  intros Hasym. induction l as [| a l IH]; intros m Hl Hm Hp.
  - apply Permutation_nil in Hp. now subst.
  - destruct m as [| b m].
    { apply Permutation_sym, Permutation_nil in Hp. discriminate. }
    inversion Hl as [| ? ? Hl' Hla]; subst.
    inversion Hm as [| ? ? Hm' Hmb]; subst.
    rewrite Forall_forall in Hla, Hmb.
    assert (E : a = b).
    { assert (Ha : In a (b :: m))
        by (apply (Permutation_in _ Hp); now left).
      assert (Hb : In b (a :: l))
        by (apply (Permutation_in _ (Permutation_sym Hp)); now left).
      destruct Ha as [Ha | Ha]; [now subst |].
      destruct Hb as [Hb | Hb]; [now subst |].
      exfalso. exact (Hasym a b (Hla b Hb) (Hmb a Ha)). }
    subst b. f_equal. apply IH; [assumption | assumption |].
    now apply Permutation_cons_inv with a.
Qed.

Lemma processingOrder_unique (g : Graph) (order : list nat) :
  Permutation order (seq 0 (List.length (nodes g))) ->
  StronglySorted (before g) order ->
  order = processingOrder g.
Proof.
  intros Hp Hs.
  apply (sorted_unique (before g) (before_asym g)).
  - exact Hs.
  - apply processingOrder_sorted.
  - rewrite Hp. apply Permutation_sym, processingOrder_perm.
Qed.

(** A node that is not in conflict when its turn comes is in the result. *)
Lemma selected_at_turn (es : list Edge) (l1 : list nat) (i : nat)
    (l2 : list nat) :
  ~ In i (snd (greedy es l1)) -> In i (fst (greedy es (l1 ++ i :: l2))).
Proof.
  intros Hc. unfold greedy in *. rewrite fold_left_app. simpl.
  apply selectStep_keeps.
  destruct (fold_left (selectStep es) l1 ([], [])) as [sel conf].
  simpl in Hc. apply set_has_false in Hc. unfold selectStep. rewrite Hc.
  simpl. apply In_set_add. now left.
Qed.

Lemma selected_prefix (es : list Edge) (l1 l2 : list nat) (u : nat) :
  In u (fst (greedy es l1)) -> In u (fst (greedy es (l1 ++ l2))).
Proof.
  intros H. unfold greedy in *. rewrite fold_left_app.
  now apply selectStep_keeps.
Qed.

Lemma findMWISSolution_greedySelection (g : Graph) :
  greedySelection g (findMWISSolution g).
Proof.
  intros i. split.
  - intros Hi. split.
    + apply In_processingOrder. unfold findMWISSolution in Hi.
      destruct (greedyInv_greedy (edges g) (processingOrder g))
        as (_ & Hsub & _). now apply Hsub.
    + intros u Hu Ha Hb.
      destruct (Nat.eq_dec u i) as [-> | Hne];
        [exact (before_irrefl g i Hb) |].
      unfold findMWISSolution in Hu, Hi.
      destruct (greedyInv_greedy (edges g) (processingOrder g))
        as (_ & _ & _ & Hind & _).
      exact (Hind u i Hu Hi Hne Ha).
  - intros [Hi Hfree]. apply In_processingOrder in Hi.
    destruct (in_split _ _ Hi) as (l1 & l2 & Eo).
    pose proof (processingOrder_sorted g) as Hs. rewrite Eo in Hs.
    destruct (sorted_split _ _ _ _ Hs) as [Hbefore _].
    unfold findMWISSolution in *. rewrite Eo in *.
    apply selected_at_turn. intros Hc.
    destruct (greedyInv_greedy (edges g) l1) as (Hconf & Hsub & _).
    apply Hconf in Hc. destruct Hc as (u & Hu & Ha).
    apply (Hfree u).
    + now apply selected_prefix.
    + exact Ha.
    + apply Hbefore. now apply Hsub.
Qed.

Lemma greedySelection_step (g : Graph) (A B : list nat) (l1 : list nat)
    (i : nat) (l2 : list nat) :
  processingOrder g = l1 ++ i :: l2 ->
  greedySelection g A -> greedySelection g B ->
  (forall u, In u l1 -> In u B -> In u A) ->
  In i A -> In i B.
Proof.
  intros Eo HA HB Hagree Hi.
  pose proof (processingOrder_sorted g) as Hs. rewrite Eo in Hs.
  destruct (sorted_split _ _ _ _ Hs) as [Hl1 Hl2].
  destruct (proj1 (HA i) Hi) as [Hn Hfree].
  apply HB. split; [exact Hn |]. intros u Hu Ha Hb.
  assert (Hin : In u (processingOrder g)).
  { apply In_processingOrder. now apply HB. }
  rewrite Eo in Hin. apply in_app_or in Hin.
  destruct Hin as [Hin | [<- | Hin]].
  - exact (Hfree u (Hagree u Hin Hu) Ha Hb).
  - exact (before_irrefl g i Hb).
  - exact (before_asym g u i Hb (Hl2 u Hin)).
Qed.

Lemma greedySelection_prefix (g : Graph) (A B : list nat) :
  greedySelection g A -> greedySelection g B ->
  forall l1 l2 : list nat,
    processingOrder g = l1 ++ l2 ->
    forall i, In i l1 -> (In i A <-> In i B).
Proof.
  intros HA HB. induction l1 as [| x l1 IH] using rev_ind;
    intros l2 Eo i Hi; [destruct Hi |].
  rewrite <- app_assoc in Eo. simpl in Eo.
  specialize (IH (x :: l2) Eo).
  apply in_app_or in Hi. destruct Hi as [Hi | [<- | []]]; [now apply IH |].
  split.
  - apply (greedySelection_step g A B l1 x l2 Eo HA HB).
    intros u Hu. now apply IH.
  - apply (greedySelection_step g B A l1 x l2 Eo HB HA).
    intros u Hu. now apply IH.
Qed.

(** A graph has one greedy selection. *)
Lemma greedySelection_unique (g : Graph) (A B : list nat) :
  greedySelection g A -> greedySelection g B ->
  forall i, In i A <-> In i B.
Proof.
  intros HA HB i.
  destruct (Nat.lt_ge_cases i (List.length (nodes g))) as [Hi | Hi].
  - apply (greedySelection_prefix g A B HA HB (processingOrder g) []).
    + now rewrite app_nil_r.
    + now apply In_processingOrder.
  - split; intros H; [apply HA in H | apply HB in H]; lia.
Qed.

(** The loop appends to [selected], so the array lists the selected nodes
    in the order they were processed. *)
Lemma selected_in_order (es : list Edge) (order : list nat) :
  forall (done : list nat) (st : list nat * list nat),
    NoDup (done ++ order) ->
    (forall u, In u (fst st) -> In u done) ->
    fst st = filter (fun i => set_has i (fst st)) done ->
    let st' := fold_left (selectStep es) order st in
    fst st' = filter (fun i => set_has i (fst st')) (done ++ order).
Proof.
  induction order as [| i order IH]; intros done st Hnd Hsub Hf; simpl.
  - now rewrite app_nil_r.
  - replace (done ++ i :: order) with ((done ++ [i]) ++ order) in *
      by (rewrite <- app_assoc; reflexivity).
    assert (Hi : ~ In i done).
    { apply NoDup_app_remove_r in Hnd. apply NoDup_remove_2 in Hnd.
      now rewrite app_nil_r in Hnd. }
    assert (His : set_has i (fst st) = false).
    { apply set_has_false. intros H. apply Hi. now apply Hsub. }
    apply IH; [assumption | |].
    + intros u Hu. apply in_or_app.
      destruct st as [sel conf]. unfold selectStep in Hu.
      destruct (negb (set_has i conf)); simpl in Hu.
      * apply In_set_add in Hu. destruct Hu as [-> | Hu];
          [right; now left | left; now apply Hsub].
      * left. now apply Hsub.
    + destruct st as [sel conf]. unfold selectStep. simpl in *.
      destruct (negb (set_has i conf)); simpl.
      * unfold set_add. rewrite His, filter_app. simpl.
        assert (Hii : set_has i (sel ++ [i]) = true).
        { apply set_has_In. apply in_or_app. right. now left. }
        rewrite Hii. f_equal. rewrite Hf at 1. apply filter_ext_in.
        intros u Hu.
        destruct (set_has u sel) eqn:E1; destruct (set_has u (sel ++ [i])) eqn:E2;
          try reflexivity.
        -- apply set_has_In in E1. apply set_has_false in E2.
           exfalso. apply E2. apply in_or_app. now left.
        -- apply set_has_In in E2. apply set_has_false in E1.
           apply in_app_or in E2. destruct E2 as [E2 | [<- | []]];
             [contradiction | exfalso; exact (Hi Hu)].
      * rewrite filter_app. simpl. rewrite His, app_nil_r. exact Hf.
Qed.

Lemma findMWISSolution_in_order (g : Graph) :
  findMWISSolution g
  = filter (fun i => set_has i (findMWISSolution g)) (processingOrder g).
Proof.
  unfold findMWISSolution, greedy.
  apply (selected_in_order (edges g) (processingOrder g) [] ([], [])).
  - simpl. apply (Permutation_NoDup (Permutation_sym (processingOrder_perm g))).
    apply seq_NoDup.
  - intros u [].
  - reflexivity.
Qed.

(** [roundDouble] on a few rationals: a third and a tenth get the
    significands binary64 gives them, a binary64 value is left as it is, and
    halfway between two neighbours the even significand wins. *)
Example roundDouble_values :
  (roundDouble (1 # 3) == 6004799503160661 # 18014398509481984)%Q /\
  (roundDouble (1 # 10) == 3602879701896397 # 36028797018963968)%Q /\
  (roundDouble (9 # 4) == 9 # 4)%Q /\
  (roundDouble 9007199254740993 == 9007199254740992)%Q /\
  (roundDouble 9007199254740995 == 9007199254740996)%Q /\
  (roundDouble (- (1 # 3)) == - (6004799503160661 # 18014398509481984))%Q.
Proof. repeat split. Qed.

(** On [tieGraph] the quotient of node 1 is the larger rational, yet the two
    scores are the same number and node 0, the smaller identifier, goes
    first: the Selection is {0, 2}, where exact quotients would give {1}. *)
Example processingOrder_tie :
  (weight (mkNode 0 0 0 (6004799503160661 # 9007199254740992) 20) / 2
   < 1 / 3)%Q /\
  (score tieGraph 0 == score tieGraph 1)%Q /\
  processingOrder tieGraph = [0; 1; 2] /\
  findMWISSolution tieGraph = [0; 2].
Proof. repeat split; vm_compute; reflexivity. Qed.

(** C6. The heuristic is deterministic, and what it returns is decided by
    the weights and the edge list alone.  Graphs with the same weights and
    the same edge list get the same Selection.  The nodes are processed in
    the one order that lists every node once by descending score, nodes of
    equal score by ascending identifier.  The Selection is the one set in
    which a node lies exactly when no neighbour processed before it does,
    and the returned array lists it in processing order. *)
Theorem findMWISSolution_deterministic (g g' : Graph) :
  map weight (nodes g) = map weight (nodes g') ->
  edges g = edges g' ->
  findMWISSolution g = findMWISSolution g' /\
  (Permutation (processingOrder g) (seq 0 (List.length (nodes g))) /\
   StronglySorted (before g) (processingOrder g)) /\
  (forall order,
      Permutation order (seq 0 (List.length (nodes g))) ->
      StronglySorted (before g) order ->
      order = processingOrder g) /\
  greedySelection g (findMWISSolution g) /\
  (forall sel,
      greedySelection g sel ->
      forall i, In i sel <-> In i (findMWISSolution g)) /\
  findMWISSolution g
  = filter (fun i => set_has i (findMWISSolution g)) (processingOrder g).
Proof.
  intros Hw He.
  split; [| split; [split |]; [| | split; [| split; [| split]]]].
  - unfold findMWISSolution, processingOrder.
    now rewrite (nodeScores_weights g g' Hw He), He.
  - apply processingOrder_perm.
  - apply processingOrder_sorted.
  - apply processingOrder_unique.
  - apply findMWISSolution_greedySelection.
  - intros sel Hsel.
    apply (greedySelection_unique g sel (findMWISSolution g) Hsel).
    apply findMWISSolution_greedySelection.
  - apply findMWISSolution_in_order.
Qed.

Lemma findMWISSolution_deterministic_witness :
  findMWISSolution tieGraph = findMWISSolution tieGraph /\
  (Permutation (processingOrder tieGraph)
     (seq 0 (List.length (nodes tieGraph))) /\
   StronglySorted (before tieGraph) (processingOrder tieGraph)) /\
  (forall order,
      Permutation order (seq 0 (List.length (nodes tieGraph))) ->
      StronglySorted (before tieGraph) order ->
      order = processingOrder tieGraph) /\
  greedySelection tieGraph (findMWISSolution tieGraph) /\
  (forall sel,
      greedySelection tieGraph sel ->
      forall i, In i sel <-> In i (findMWISSolution tieGraph)) /\
  findMWISSolution tieGraph
  = filter (fun i => set_has i (findMWISSolution tieGraph))
      (processingOrder tieGraph).
Proof.
  apply (findMWISSolution_deterministic tieGraph tieGraph); reflexivity.
Defined.

(** C7. On a graph with no edges the Selection holds every node exactly
    once; on the graph with no nodes it is empty. *)
Theorem findMWISSolution_edgeless (g : Graph) :
  edges g = [] ->
  Permutation (findMWISSolution g) (seq 0 (List.length (nodes g))) /\
  (forall i, i < List.length (nodes g) -> In i (findMWISSolution g)) /\
  (nodes g = [] -> findMWISSolution g = []).
Proof.
  intros He.
  assert (Hin : forall i,
             In i (findMWISSolution g) <-> i < List.length (nodes g)).
  { intros i. unfold findMWISSolution.
    destruct (greedyInv_greedy (edges g) (processingOrder g))
      as (Hconf & Hsub & Hcov & _ & _).
    split; intros H.
    - apply In_processingOrder. now apply Hsub.
    - apply In_processingOrder in H. destruct (Hcov i H) as [Hs | Hc];
        [assumption |].
      apply Hconf in Hc. destruct Hc as [u [_ Ha]].
      rewrite He in Ha. destruct Ha as [[] | []]. }
  assert (Hperm : Permutation (findMWISSolution g)
                    (seq 0 (List.length (nodes g)))).
  { apply NoDup_Permutation.
    - unfold findMWISSolution.
      now destruct (greedyInv_greedy (edges g) (processingOrder g))
        as (_ & _ & _ & _ & Hnd).
    - apply seq_NoDup.
    - intros i. rewrite Hin, in_seq. lia. }
  split; [assumption | split].
  - intros i Hi. now apply Hin.
  - intros Hn. rewrite Hn in Hperm. simpl in Hperm.
    now apply Permutation_nil, Permutation_sym.
Qed.

Lemma findMWISSolution_edgeless_witness :
  Permutation
    (findMWISSolution (mkGraph [mkNode 0 0 0 1 20; mkNode 1 0 0 2 20] []))
    (seq 0 2) /\
  findMWISSolution (mkGraph [] []) = [].
Proof.
  split.
  - exact (proj1 (findMWISSolution_edgeless
                    (mkGraph [mkNode 0 0 0 1 20; mkNode 1 0 0 2 20] [])
                    eq_refl)).
  - exact (proj2 (proj2 (findMWISSolution_edgeless (mkGraph [] []) eq_refl))
             eq_refl).
Defined.

(** C10. On a graph whose edges refer to existing nodes the Selection is
    maximal: every node outside it is adjacent to a selected node, so
    adding any node would break independence. *)
Theorem findMWISSolution_maximal (g : Graph) (i : nat) :
  inRange (List.length (nodes g)) (edges g) ->
  i < List.length (nodes g) ->
  ~ In i (findMWISSolution g) ->
  exists u, In u (findMWISSolution g) /\ u <> i /\ adjacent (edges g) u i.
Proof.
  intros _ Hi Hout. unfold findMWISSolution in *.
  destruct (greedyInv_greedy (edges g) (processingOrder g))
    as (Hconf & _ & Hcov & _ & _).
  apply In_processingOrder in Hi.
  destruct (Hcov i Hi) as [Hs | Hc]; [contradiction |].
  apply Hconf in Hc. destruct Hc as [u [Hu Ha]].
  exists u. repeat split; [assumption | | assumption].
  intros ->. contradiction.
Qed.

Lemma findMWISSolution_maximal_witness :
  exists u, In u (findMWISSolution pathGraph) /\ u <> 0 /\
            adjacent (edges pathGraph) u 0.
Proof.
  apply (findMWISSolution_maximal pathGraph 0).
  - unfold inRange. simpl. repeat constructor.
  - simpl. lia.
  - vm_compute. intros [H | [H | []]]; discriminate.
Defined.

(** ** The heuristic on the store *)

Module StoreFacts.

Import Store.

Lemma bind_Some {A B : Type} (m : M A) (k : A -> M B) (h h' : store) (a : A) :
  m h = Some (a, h') -> bind m k h = k a h'.
Proof. intros H. unfold bind. now rewrite H. Qed.

Lemma nth_error_ext (h t : store) (k : nat) :
  nth_error (h ++ t) (List.length h + k) = nth_error t k.
Proof.
  rewrite nth_error_app2 by lia. f_equal. lia.
Qed.

Lemma nth_error_old (h t : store) (l : loc) (o : obj) :
  nth_error h l = Some o -> nth_error (h ++ t) l = Some o.
Proof.
  intros H. rewrite nth_error_app1; [assumption |].
  apply nth_error_Some. congruence.
Qed.

Lemma update_ext (h t : store) (k : nat) (o : obj) :
  update (List.length h + k) o (h ++ t) = h ++ update k o t.
Proof.
  induction h as [| o' h IH]; simpl; [reflexivity |]. now rewrite IH.
Qed.

Lemma alloc_ext (h t : store) (o : obj) :
  alloc o (h ++ t)
  = Some (List.length h + List.length t, h ++ (t ++ [o])).
Proof.
  unfold alloc. now rewrite length_app, app_assoc.
Qed.

Lemma read_ext (h t : store) (k : nat) (o : obj) :
  nth_error t k = Some o ->
  read (List.length h + k) (h ++ t) = Some (o, h ++ t).
Proof. intros H. unfold read. now rewrite nth_error_ext, H. Qed.

Lemma read_old (h t : store) (l : loc) (o : obj) :
  nth_error h l = Some o -> read l (h ++ t) = Some (o, h ++ t).
Proof. intros H. unfold read. now rewrite (nth_error_old h t l o H). Qed.

Lemma write_ext (h t : store) (k : nat) (o : obj) :
  k < List.length t ->
  write (List.length h + k) o (h ++ t) = Some (tt, h ++ update k o t).
Proof.
  intros H. unfold write. rewrite update_ext.
  replace (List.length h + k <? List.length (h ++ t)) with true;
    [reflexivity |].
  symmetry. apply Nat.ltb_lt. rewrite length_app. lia.
Qed.

Lemma readCells_ext (h t : store) (k : nat) (d : list JS.cell) :
  nth_error t k = Some (OCells d) ->
  readCells (List.length h + k) (h ++ t) = Some (d, h ++ t).
Proof.
  intros H. unfold readCells. now rewrite (bind_Some _ _ _ _ _ (read_ext h t k _ H)).
Qed.

Lemma readSet_ext (h t : store) (k : nat) (s : list nat) :
  nth_error t k = Some (OSet s) ->
  readSet (List.length h + k) (h ++ t) = Some (s, h ++ t).
Proof.
  intros H. unfold readSet. now rewrite (bind_Some _ _ _ _ _ (read_ext h t k _ H)).
Qed.

Lemma readNodes_ext (h t : store) (k : nat) (a : list Node) :
  nth_error t k = Some (ONodes a) ->
  readNodes (List.length h + k) (h ++ t) = Some (a, h ++ t).
Proof.
  intros H. unfold readNodes. now rewrite (bind_Some _ _ _ _ _ (read_ext h t k _ H)).
Qed.

Lemma readScores_ext (h t : store) (k : nat) (a : list NodeScore) :
  nth_error t k = Some (OScores a) ->
  readScores (List.length h + k) (h ++ t) = Some (a, h ++ t).
Proof.
  intros H. unfold readScores. now rewrite (bind_Some _ _ _ _ _ (read_ext h t k _ H)).
Qed.

Lemma readNodes_old (h t : store) (l : loc) (a : list Node) :
  nth_error h l = Some (ONodes a) ->
  readNodes l (h ++ t) = Some (a, h ++ t).
Proof.
  intros H. unfold readNodes. now rewrite (bind_Some _ _ _ _ _ (read_old h t l _ H)).
Qed.

Lemma readEdges_old (h t : store) (l : loc) (a : list Edge) :
  nth_error h l = Some (OEdges a) ->
  readEdges l (h ++ t) = Some (a, h ++ t).
Proof.
  intros H. unfold readEdges. now rewrite (bind_Some _ _ _ _ _ (read_old h t l _ H)).
Qed.

Lemma incrAt_ext (h t : store) (k u : nat) (d : list JS.cell) :
  nth_error t k = Some (OCells d) ->
  incrAt (List.length h + k) u (h ++ t)
  = Some (tt, h ++ update k (OCells (JS.incr_at u d)) t).
Proof.
  intros H. unfold incrAt.
  rewrite (bind_Some _ _ _ _ _ (readCells_ext h t k d H)).
  apply write_ext. apply nth_error_Some. congruence.
Qed.

Lemma setAdd_ext (h t : store) (k v : nat) (s : list nat) :
  nth_error t k = Some (OSet s) ->
  setAdd (List.length h + k) v (h ++ t)
  = Some (tt, h ++ update k (OSet (JS.set_add v s)) t).
Proof.
  intros H. unfold setAdd.
  rewrite (bind_Some _ _ _ _ _ (readSet_ext h t k s H)).
  apply write_ext. apply nth_error_Some. congruence.
Qed.

(** The degree loop leaves the counters of [computeDegrees] in the array
    it allocated, and touches nothing else. *)
Lemma degrees_loop (h : store) (a : list Node) (s c : list nat)
    (es : list Edge) :
  forall d : list JS.cell,
    forEach es
      (fun e => incrAt (List.length h + 3) (fst e) ;;;
                incrAt (List.length h + 3) (snd e))
      (h ++ [ONodes a; OSet s; OSet c; OCells d])
    = Some (tt,
            h ++ [ONodes a; OSet s; OSet c;
                  OCells (fold_left
                            (fun d (e : Edge) =>
                               JS.incr_at (snd e) (JS.incr_at (fst e) d))
                            es d)]).
Proof.
  induction es as [| e es IH]; intros d; simpl; [reflexivity |].
  erewrite bind_Some.
  2:{ erewrite bind_Some; [| apply incrAt_ext; reflexivity].
      simpl. apply incrAt_ext. reflexivity. }
  simpl. apply IH.
Qed.

(** The inner loop of the selection adds the neighbours of [i] to the
    set of conflicts, and touches nothing else. *)
Lemma conflicts_loop (h : store) (a : list Node) (s : list nat)
    (d : list JS.cell) (sc : list NodeScore) (i : nat) (es : list Edge) :
  forall c : list nat,
    forEach es
      (fun e =>
         (if fst e =? i then setAdd (List.length h + 2) (snd e) else ret tt) ;;;
         (if snd e =? i then setAdd (List.length h + 2) (fst e) else ret tt))
      (h ++ [ONodes a; OSet s; OSet c; OCells d; OScores sc])
    = Some (tt,
            h ++ [ONodes a; OSet s; OSet (MWISSolver.markConflicts i es c);
                  OCells d; OScores sc]).
Proof.
  unfold MWISSolver.markConflicts.
  induction es as [| e es IH]; intros c; simpl; [reflexivity |].
  destruct (fst e =? i); destruct (snd e =? i).
  - erewrite bind_Some.
    2:{ erewrite bind_Some; [| apply setAdd_ext; reflexivity].
        simpl. apply setAdd_ext. reflexivity. }
    simpl. apply IH.
  - erewrite bind_Some.
    2:{ erewrite bind_Some; [| apply setAdd_ext; reflexivity].
        simpl. reflexivity. }
    apply IH.
  - erewrite bind_Some.
    2:{ erewrite bind_Some; [| reflexivity].
        apply setAdd_ext. reflexivity. }
    simpl. apply IH.
  - erewrite bind_Some.
    2:{ erewrite bind_Some; reflexivity. }
    apply IH.
Qed.

(** The outer loop of the selection is the fold of [selectStep]. *)
Lemma selection_loop (h : store) (le : loc) (es : list Edge)
    (a : list Node) (d : list JS.cell) (sc : list NodeScore) :
  nth_error h le = Some (OEdges es) ->
  forall (entries : list NodeScore) (s c : list nat),
    forEach entries
      (fun entry =>
         let i := ns_id entry in
         c <- readSet (List.length h + 2) ;;
         if negb (JS.set_has i c)
         then
           setAdd (List.length h + 1) i ;;;
           es <- readEdges le ;;
           forEach es (fun e =>
             (if fst e =? i then setAdd (List.length h + 2) (snd e)
              else ret tt) ;;;
             (if snd e =? i then setAdd (List.length h + 2) (fst e)
              else ret tt))
         else ret tt)
      (h ++ [ONodes a; OSet s; OSet c; OCells d; OScores sc])
    = Some (tt,
            let st := fold_left (MWISSolver.selectStep es)
                        (map ns_id entries) (s, c) in
            h ++ [ONodes a; OSet (fst st); OSet (snd st);
                  OCells d; OScores sc]).
Proof.
  intros He. induction entries as [| entry entries IH]; intros s c;
    [reflexivity |].
  cbn [forEach map fold_left].
  assert (Hstep : MWISSolver.selectStep es (s, c) (ns_id entry)
                  = if negb (JS.set_has (ns_id entry) c)
                    then (JS.set_add (ns_id entry) s,
                          MWISSolver.markConflicts (ns_id entry) es c)
                    else (s, c)) by reflexivity.
  rewrite Hstep. clear Hstep.
  destruct (negb (JS.set_has (ns_id entry) c)) eqn:E.
  - erewrite bind_Some.
    2:{ erewrite bind_Some; [| apply readSet_ext; reflexivity].
        cbv zeta. rewrite E.
        erewrite bind_Some; [| apply setAdd_ext; reflexivity].
        cbn [update].
        erewrite bind_Some; [| apply readEdges_old; exact He].
        apply conflicts_loop. }
    apply IH.
  - erewrite bind_Some.
    2:{ erewrite bind_Some; [| apply readSet_ext; reflexivity].
        cbv zeta. rewrite E. reflexivity. }
    apply IH.
Qed.

(** A run of the method on a store whose graph arrays hold [ns] and [es]:
    it returns what the function [MWISSolver.findMWISSolution] computes
    from them, and the store it leaves is the initial store followed by
    the objects the run allocated. *)
Lemma findMWISSolution_run (h : store) (ln le : loc) (ns : list Node)
    (es : list Edge) :
  nth_error h ln = Some (ONodes ns) ->
  nth_error h le = Some (OEdges es) ->
  exists ext : store,
    Store.findMWISSolution ln le h
    = Some (MWISSolver.findMWISSolution (mkGraph ns es), h ++ ext).
Proof.
  intros Hn He.
  replace (Store.findMWISSolution ln le h)
    with (Store.findMWISSolution ln le (h ++ []))
    by (now rewrite app_nil_r).
  unfold Store.findMWISSolution.
  erewrite bind_Some; [| apply readNodes_old; exact Hn].
  erewrite bind_Some; [| apply alloc_ext]. cbn [List.length app].
  erewrite bind_Some; [| apply alloc_ext]. cbn [List.length app].
  erewrite bind_Some; [| apply alloc_ext]. cbn [List.length app].
  erewrite bind_Some; [| apply readNodes_ext; reflexivity].
  erewrite bind_Some; [| apply alloc_ext]. cbn [List.length app].
  erewrite bind_Some; [| apply readEdges_old; exact He].
  erewrite bind_Some; [| apply degrees_loop].
  erewrite bind_Some; [| apply readNodes_ext; reflexivity].
  erewrite bind_Some; [| apply readCells_ext; reflexivity].
  erewrite bind_Some; [| apply alloc_ext]. cbn [List.length app].
  erewrite bind_Some; [| apply readScores_ext; reflexivity].
  erewrite bind_Some; [| apply write_ext; simpl; lia]. cbn [update].
  erewrite bind_Some; [| apply readScores_ext; reflexivity].
  erewrite bind_Some; [| apply (selection_loop h le es); exact He].
  cbv zeta.
  erewrite bind_Some; [| apply readSet_ext; reflexivity].
  erewrite bind_Some; [| apply alloc_ext].
  eexists. unfold ret. reflexivity.
Qed.

End StoreFacts.

(** C9. A call of the heuristic leaves every object that existed before it
    as it was, the graph's node and edge arrays among them: the store after
    the call is the store before it followed by the objects the call
    allocated.  The Selection is a function of the graph alone, so a second
    call returns the same Selection. *)
Theorem findMWISSolution_no_side_effects (h : Store.store)
    (graphNodes graphEdges : Store.loc) (ns : list Node) (es : list Edge) :
  nth_error h graphNodes = Some (Store.ONodes ns) ->
  nth_error h graphEdges = Some (Store.OEdges es) ->
  exists ext ext' : Store.store,
    Store.findMWISSolution graphNodes graphEdges h
    = Some (findMWISSolution (mkGraph ns es), h ++ ext) /\
    (forall l o, nth_error h l = Some o -> nth_error (h ++ ext) l = Some o) /\
    nth_error (h ++ ext) graphNodes = Some (Store.ONodes ns) /\
    nth_error (h ++ ext) graphEdges = Some (Store.OEdges es) /\
    Store.findMWISSolution graphNodes graphEdges (h ++ ext)
    = Some (findMWISSolution (mkGraph ns es), (h ++ ext) ++ ext').
Proof.
  intros Hn He.
  destruct (StoreFacts.findMWISSolution_run h graphNodes graphEdges ns es
              Hn He) as [ext Hrun].
  assert (Hold : forall l o,
             nth_error h l = Some o -> nth_error (h ++ ext) l = Some o).
  { intros l o. apply StoreFacts.nth_error_old. }
  destruct (StoreFacts.findMWISSolution_run (h ++ ext) graphNodes graphEdges
              ns es (Hold _ _ Hn) (Hold _ _ He)) as [ext' Hrun'].
  exists ext, ext'. repeat split; auto.
Qed.

Lemma findMWISSolution_no_side_effects_witness :
  exists ext ext' : Store.store,
    Store.findMWISSolution 0 1 pathStore
    = Some (findMWISSolution pathGraph, pathStore ++ ext) /\
    (forall l o, nth_error pathStore l = Some o ->
                 nth_error (pathStore ++ ext) l = Some o) /\
    nth_error (pathStore ++ ext) 0 = Some (Store.ONodes (nodes pathGraph)) /\
    nth_error (pathStore ++ ext) 1 = Some (Store.OEdges (edges pathGraph)) /\
    Store.findMWISSolution 0 1 (pathStore ++ ext)
    = Some (findMWISSolution pathGraph, (pathStore ++ ext) ++ ext').
Proof.
  apply (findMWISSolution_no_side_effects pathStore 0 1
           (nodes pathGraph) (edges pathGraph)); reflexivity.
Defined.

(** ** Graph generation *)

Lemma forEachM_inv {A S : Type} (P : S -> Prop) (body : S -> A -> Gen S) :
  (forall s a c, P s -> P (fst (body s a c))) ->
  forall (l : list A) (s : S) (c : nat),
    P s -> P (fst (forEachM l body s c)).
Proof.
  intros Hbody. induction l as [| a l IH]; intros s c Hs; simpl.
  - exact Hs.
  - unfold bind. specialize (Hbody s a c Hs).
    destruct (body s a c) as [s' c']. apply IH. exact Hbody.
Qed.

Lemma createGraph_nodes (random : nat -> Q) (cv : Canvas) (n : nat) (p : Q)
    (type : string) (c : nat) :
  nodes (fst (createGraph random cv n p type c))
  = fst (generateNodes random cv n c).
Proof.
  unfold createGraph, bind.
  destruct (generateNodes random cv n c) as [ns c1]. simpl.
  destruct (if String.eqb type "regular" then _ else _) as [es c2].
  reflexivity.
Qed.

Lemma pushNode_weight (random : nat -> Q) (cv : Canvas) :
  unitDraws random ->
  forall (ns : list Node) (i c : nat),
    Forall weightInRange ns ->
    Forall weightInRange (fst (pushNode random cv ns i c)).
Proof.
  intros Hr ns i c Hns. unfold pushNode, bind, mathRandom, ret. simpl.
  apply Forall_app. split; [assumption |]. constructor; [| constructor].
  unfold weightInRange. simpl. destruct (Hr (S (S c))) as [H0 H1].
  split; lra.
Qed.

Lemma unitDraws_const (q : Q) :
  (0 <= q)%Q -> (q < 1)%Q -> unitDraws (constDraws q).
Proof. intros H0 H1 k. unfold constDraws. now split. Qed.

(** C4.  The weight of a generated node is [Math.random() * 2 + 0.5],
    which ranges over the interval from 0.5 to 2.5, not from 0.5 to 2.0.
    When the weight draw is 7/8 the single node of a one-node graph weighs
    9/4 (both numbers are binary64 values and the arithmetic on them is
    exact), so the weight is not below 2.  The smoke test of the repository
    weights the same ten-node graph with [uniform(0.5, 2.0)]: the scale of
    the draw should be 1.5. *)
Theorem createGraph_weight_exceeds (cv : Canvas) (p : Q) (type : string)
    (c : nat) :
  unitDraws (constDraws (7 # 8)) /\
  map weight (nodes (fst (createGraph (constDraws (7 # 8)) cv 1 p type c)))
  = [((7 # 8) * 2 + (1 # 2))%Q] /\
  ((7 # 8) * 2 + (1 # 2) == 9 # 4)%Q /\
  ~ ((7 # 8) * 2 + (1 # 2) < 2)%Q.
Proof.
  split; [| split; [| split]].
  - apply unitDraws_const; [discriminate | reflexivity].
  - rewrite createGraph_nodes. reflexivity.
  - reflexivity.
  - intros H. vm_compute in H. discriminate.
Qed.

Lemma regularEdges_fold (n : nat) (l : list nat) :
  forall acc : list Edge,
    fold_left
      (fun es i =>
         fold_left (fun es' j => es' ++ [(i, (i + j) mod n)]) (seq 1 3) es)
      l acc
    = acc ++
      flat_map
        (fun i => [(i, (i + 1) mod n); (i, (i + 2) mod n); (i, (i + 3) mod n)])
        l.
Proof.
  induction l as [| a l IH]; intros acc; cbn [fold_left flat_map seq].
  - now rewrite app_nil_r.
  - rewrite IH. now repeat rewrite <- app_assoc.
Qed.

(** The regular branch pushes, node after node, the three entries
    [[i, (i + 1) % n]], [[i, (i + 2) % n]], [[i, (i + 3) % n]]. *)
Lemma regularEdges_flat_map (n : nat) :
  regularEdges n
  = flat_map
      (fun i => [(i, (i + 1) mod n); (i, (i + 2) mod n); (i, (i + 3) mod n)])
      (seq 0 n).
Proof. unfold regularEdges. now rewrite regularEdges_fold. Qed.

Lemma createGraph_regular_edges (random : nat -> Q) (cv : Canvas) (n : nat)
    (p : Q) (c : nat) :
  edges (fst (createGraph random cv n p "regular" c)) = regularEdges n.
Proof.
  unfold createGraph, bind.
  destruct (generateNodes random cv n c) as [ns c1]. reflexivity.
Qed.

Lemma degree_app (es es' : list Edge) (i : nat) :
  degree (es ++ es') i = degree es i + degree es' i.
Proof.
  induction es as [| e es IH]; simpl; [reflexivity |]. rewrite IH. lia.
Qed.

Lemma degree_regular (n i : nat) (l : list nat) :
  In i l ->
  3 <= degree
         (flat_map
            (fun i => [(i, (i + 1) mod n); (i, (i + 2) mod n);
                       (i, (i + 3) mod n)]) l) i.
Proof.
  induction l as [| a l IH]; intros H; [destruct H |].
  cbn [flat_map]. rewrite degree_app. destruct H as [-> | H].
  - simpl. rewrite Nat.eqb_refl. lia.
  - specialize (IH H). lia.
Qed.

(** C8. Under the regular topology with [n >= 4] (and [k = 3]) the counter
    [degrees[i]] of every node, which counts the edge entries incident to
    it, is a number and is at least 3. *)
Theorem createGraph_regular_degree (random : nat -> Q) (cv : Canvas)
    (n : nat) (p : Q) (c i : nat) :
  4 <= n ->
  i < n ->
  let g := fst (createGraph random cv n p "regular" c) in
  exists d,
    nth_error (computeDegrees n (edges g)) i = Some (Some d) /\
    d = degree (edges g) i /\
    3 <= d.
Proof.
  intros Hn Hi g. exists (degree (edges g) i). split; [| split].
  - now apply computeDegrees_nth.
  - reflexivity.
  - subst g. rewrite createGraph_regular_edges, regularEdges_flat_map.
    apply degree_regular. apply in_seq. lia.
Qed.

Lemma createGraph_regular_degree_witness :
  exists d,
    nth_error
      (computeDegrees 4
         (edges (fst (createGraph (constDraws 0) pageCanvas 4 0 "regular" 0))))
      2 = Some (Some d) /\
    d = degree
          (edges (fst (createGraph (constDraws 0) pageCanvas 4 0 "regular" 0)))
          2 /\
    3 <= d.
Proof.
  apply (createGraph_regular_degree (constDraws 0) pageCanvas 4 0 0 2); lia.
Defined.

(** C3 fails on small graphs.  The regular branch on one node pushes three
    self-loops, and the scale-free branch on two nodes pushes its seed
    triangle, whose entries name the missing node 2. *)
Theorem createGraph_small_invalid (random : nat -> Q) (cv : Canvas) (p : Q)
    (c : nat) :
  edges (fst (createGraph random cv 1 p "regular" c))
  = [(0, 0); (0, 0); (0, 0)] /\
  edges (fst (createGraph random cv 2 p "scale-free" c))
  = [(0, 1); (0, 2); (1, 2)] /\
  ~ loopFree (edges (fst (createGraph random cv 1 p "regular" c))) /\
  ~ inRange 2 (edges (fst (createGraph random cv 2 p "scale-free" c))).
Proof.
  assert (H1 : edges (fst (createGraph random cv 1 p "regular" c))
               = [(0, 0); (0, 0); (0, 0)]).
  { rewrite createGraph_regular_edges. reflexivity. }
  assert (H2 : edges (fst (createGraph random cv 2 p "scale-free" c))
               = [(0, 1); (0, 2); (1, 2)]).
  { unfold createGraph, bind.
    destruct (generateNodes random cv 2 c) as [ns c1]. reflexivity. }
  rewrite H1, H2. repeat split.
  - intros H. inversion H as [| ? ? Hne _]. now apply Hne.
  - intros H. inversion H as [| ? ? _ H']. inversion H' as [| ? ? [_ Hlt] _].
    simpl in Hlt. lia.
Qed.

Lemma generateNodes_length (random : nat -> Q) (cv : Canvas) (l : list nat) :
  forall (ns : list Node) (c : nat),
    List.length (fst (forEachM l (pushNode random cv) ns c))
    = List.length ns + List.length l.
Proof.
  induction l as [| i l IH]; intros ns c; simpl; [lia |].
  unfold bind, pushNode at 1, mathRandom, ret. simpl.
  rewrite IH, length_app. simpl. lia.
Qed.

Lemma createGraph_length (random : nat -> Q) (cv : Canvas) (n : nat) (p : Q)
    (type : string) (c : nat) :
  List.length (nodes (fst (createGraph random cv n p type c))) = n.
Proof.
  rewrite createGraph_nodes. unfold generateNodes.
  rewrite generateNodes_length, length_seq. reflexivity.
Qed.

Lemma createGraph_random_edges (random : nat -> Q) (cv : Canvas) (n : nat)
    (p : Q) (type : string) (c : nat) :
  type <> "regular"%string ->
  type <> "scale-free"%string ->
  edges (fst (createGraph random cv n p type c))
  = fst (randomEdges random n p (snd (generateNodes random cv n c))).
Proof.
  intros H1 H2. unfold createGraph, bind.
  destruct (generateNodes random cv n c) as [ns c1]. simpl.
  apply String.eqb_neq in H1. apply String.eqb_neq in H2. rewrite H1, H2.
  destruct (randomEdges random n p c1) as [es c2]. reflexivity.
Qed.

Lemma randomEdges_none (random : nat -> Q) (n : nat) (p : Q) (c : nat) :
  unitDraws random -> (p <= 0)%Q -> fst (randomEdges random n p c) = [].
Proof.
  intros Hr Hp. unfold randomEdges.
  apply (forEachM_inv (fun es : list Edge => es = [])); [| reflexivity].
  intros s i c' ->.
  apply (forEachM_inv (fun es : list Edge => es = [])); [| reflexivity].
  intros s j c'' ->. unfold randomPair, bind, mathRandom, ret. simpl.
  replace (Qlt_bool (random c'') p) with false; [reflexivity |].
  symmetry. apply Qlt_bool_false. destruct (Hr c'') as [H0 _].
  now apply Qle_trans with 0%Q.
Qed.

Lemma randomPair_all (random : nat -> Q) (p : Q) (i : nat) (js : list nat) :
  unitDraws random -> (1 <= p)%Q ->
  forall (es : list Edge) (c : nat),
    fst (forEachM js (randomPair random p i) es c) = es ++ map (pair i) js.
Proof.
  intros Hr Hp. induction js as [| j js IH]; intros es c; simpl.
  - now rewrite app_nil_r.
  - unfold bind, randomPair at 1, mathRandom, ret. simpl.
    replace (Qlt_bool (random c) p) with true.
    + rewrite IH. now rewrite <- app_assoc.
    + symmetry. apply Qlt_bool_iff. destruct (Hr c) as [_ H1].
      now apply Qlt_le_trans with 1%Q.
Qed.

Lemma randomEdges_all_from (random : nat -> Q) (n : nat) (p : Q)
    (l : list nat) :
  unitDraws random -> (1 <= p)%Q ->
  forall (es : list Edge) (c : nat),
    fst (forEachM l
           (fun es i =>
              forEachM (seq (i + 1) (n - (i + 1))) (randomPair random p i) es)
           es c)
    = es ++ flat_map (fun i => map (pair i) (seq (i + 1) (n - (i + 1)))) l.
Proof.
  intros Hr Hp. induction l as [| i l IH]; intros es c; simpl.
  - now rewrite app_nil_r.
  - unfold bind.
    pose proof (randomPair_all random p i (seq (i + 1) (n - (i + 1))) Hr Hp
                  es c) as Hin.
    destruct (forEachM (seq (i + 1) (n - (i + 1))) (randomPair random p i)
                es c) as [es' c'].
    simpl in Hin. subst es'. rewrite IH. now rewrite <- app_assoc.
Qed.

Lemma randomEdges_all (random : nat -> Q) (n : nat) (p : Q) (c : nat) :
  unitDraws random -> (1 <= p)%Q ->
  fst (randomEdges random n p c) = allPairs n.
Proof.
  intros Hr Hp. unfold randomEdges, allPairs.
  now rewrite (randomEdges_all_from random n p (seq 0 n) Hr Hp [] c).
Qed.

(** C5, as the code has it.  Graph generation does not validate the edge
    probability and raises no error: for every [p], inside [[0, 1]] or not,
    the call returns a graph on [n] nodes.  With draws in [[0, 1)] the
    random topology treats [p <= 0] as "no edge" and [p >= 1] as "every
    pair". *)
Theorem createGraph_no_validation (random : nat -> Q) (cv : Canvas) (n : nat)
    (p : Q) (type : string) (c : nat) :
  exists g : Graph,
    callCreateGraph random cv n p type c = Returned g /\
    List.length (nodes g) = n /\
    (unitDraws random ->
     type <> "regular"%string ->
     type <> "scale-free"%string ->
     ((p <= 0)%Q -> edges g = []) /\
     ((1 <= p)%Q -> edges g = allPairs n)).
Proof.
  exists (fst (createGraph random cv n p type c)). split; [reflexivity |].
  split; [apply createGraph_length |].
  intros Hr H1 H2. rewrite (createGraph_random_edges _ _ _ _ _ _ H1 H2).
  split; intros Hp.
  - now apply randomEdges_none.
  - now apply randomEdges_all.
Qed.

Lemma createGraph_no_validation_witness :
  exists g : Graph,
    callCreateGraph (constDraws (1 # 2)) pageCanvas 3 (3 # 2) "random" 0
    = Returned g /\
    List.length (nodes g) = 3 /\
    edges g = [(0, 1); (0, 2); (1, 2)].
Proof.
  destruct (createGraph_no_validation (constDraws (1 # 2)) pageCanvas 3
              (3 # 2) "random" 0) as [g (Hret & Hlen & Hedges)].
  exists g. split; [exact Hret | split; [exact Hlen |]].
  apply Hedges.
  - apply unitDraws_const; [discriminate | reflexivity].
  - discriminate.
  - discriminate.
  - discriminate.
Defined.

(** C5, as stated, fails: a probability of 3/2 is accepted and a graph is
    returned. *)
Lemma createGraph_no_validation_counterexample :
  ~ (forall (random : nat -> Q) (cv : Canvas) (n : nat) (p : Q)
            (type : string) (c : nat),
        (p < 0 \/ 1 < p)%Q ->
        callCreateGraph random cv n p type c = Thrown InvalidArgument).
Proof.
  intros H.
  specialize (H (constDraws (1 # 2)) pageCanvas 3 (3 # 2) "random"%string 0).
  assert (Hp : ((3 # 2) < 0 \/ 1 < (3 # 2))%Q) by (right; reflexivity).
  specialize (H Hp). discriminate H.
Qed.

(** ** Generated edges on graphs that are large enough *)

Lemma forEachM_inv_In {A S : Type} (P : S -> Prop) (body : S -> A -> Gen S)
    (l : list A) :
  (forall s a c, In a l -> P s -> P (fst (body s a c))) ->
  forall (s : S) (c : nat), P s -> P (fst (forEachM l body s c)).
Proof.
  induction l as [| a l IH]; intros Hbody s c Hs; simpl.
  - exact Hs.
  - unfold bind. pose proof (Hbody s a c (or_introl eq_refl) Hs) as Hs'.
    destruct (body s a c) as [s' c']. apply IH; [| exact Hs'].
    intros s0 a0 c0 Hin. apply Hbody. now right.
Qed.

Lemma validEdges_push (n : nat) (es : list Edge) (u v : nat) :
  validEdges n es -> u < n -> v < n -> u <> v -> validEdges n (es ++ [(u, v)]).
Proof.
  intros H Hu Hv Hne. apply Forall_app. split; [exact H |].
  constructor; [| constructor]. simpl. auto.
Qed.

Lemma regular_neighbor (n i j : nat) :
  4 <= n -> i < n -> 1 <= j <= 3 ->
  (i + j) mod n < n /\ i <> (i + j) mod n.
Proof.
  intros Hn Hi Hj. split; [apply Nat.mod_upper_bound; lia |].
  destruct (Nat.lt_ge_cases (i + j) n) as [Hlt | Hge].
  - rewrite Nat.mod_small by assumption. lia.
  - replace (i + j) with ((i + j - n) + 1 * n) by lia.
    rewrite Nat.Div0.mod_add. rewrite Nat.mod_small by lia. lia.
Qed.

Lemma regularEdges_valid (n : nat) : 4 <= n -> validEdges n (regularEdges n).
Proof.
  intros Hn. rewrite regularEdges_flat_map. unfold validEdges.
  apply Forall_flat_map. apply Forall_forall. intros i Hi.
  apply in_seq in Hi.
  destruct (regular_neighbor n i 1 Hn) as [? ?]; [lia | lia |].
  destruct (regular_neighbor n i 2 Hn) as [? ?]; [lia | lia |].
  destruct (regular_neighbor n i 3 Hn) as [? ?]; [lia | lia |].
  repeat constructor; simpl; auto; lia.
Qed.

Lemma randomEdges_valid (random : nat -> Q) (n : nat) (p : Q) (c : nat) :
  validEdges n (fst (randomEdges random n p c)).
Proof.
  unfold randomEdges. apply (forEachM_inv_In (validEdges n)); [| constructor].
  intros es i c1 Hi Hes. apply in_seq in Hi.
  apply (forEachM_inv_In (validEdges n)); [| exact Hes].
  intros es' j c2 Hj Hes'. apply in_seq in Hj.
  unfold randomPair, bind, mathRandom, ret. simpl.
  destruct (Qlt_bool (random c2) p); [| exact Hes'].
  apply validEdges_push; [assumption | lia | lia | lia].
Qed.

Lemma incr_at_length (u : nat) :
  forall a : list cell,
    u < List.length a -> List.length (incr_at u a) = List.length a.
Proof.
  induction u as [| u IH]; intros [| c a] H; simpl in *; try lia.
  rewrite IH; lia.
Qed.

Lemma attachDegrees_length (i : nat) (es : list Edge) :
  List.length (attachDegrees i es) = i.
Proof.
  unfold attachDegrees.
  assert (H : forall d : list cell,
             List.length d = i ->
             List.length
               (fold_left
                  (fun d (e : Edge) =>
                     let d1 := if fst e <? i then incr_at (fst e) d else d in
                     if snd e <? i then incr_at (snd e) d1 else d1)
                  es d) = i).
  { induction es as [| e es IH]; intros d Hd; simpl; [exact Hd |].
    apply IH.
    destruct (Nat.ltb_spec (fst e) i) as [H1 | H1];
      destruct (Nat.ltb_spec (snd e) i) as [H2 | H2];
      repeat rewrite incr_at_length; try lia. }
  apply H. apply repeat_length.
Qed.

(** The [while] loop stops inside the array when [r] does not exceed what
    is left of the total. *)
Lemma pick_lt (rest : list cell) :
  forall (r : Q) (selected a t : nat),
    rest <> [] ->
    fold_left
      (fun (x : option nat) (b : cell) =>
         match x, b with
         | Some a', Some b' => Some (a' + b')
         | _, _ => None
         end)
      rest (Some a) = Some t ->
    (r <= inject_Z (Z.of_nat t) - inject_Z (Z.of_nat a))%Q ->
    pick r selected rest < selected + List.length rest.
Proof.
  induction rest as [| cl rest IH]; intros r selected a t Hne Ht Hr;
    [congruence |].
  destruct cl as [d |]; simpl; [| lia].
  destruct (Qlt_bool (inject_Z (Z.of_nat d)) r) eqn:E; [| lia].
  apply Qlt_bool_iff in E. simpl in Ht.
  assert (Hadd : (inject_Z (Z.of_nat (a + d))
                  == inject_Z (Z.of_nat a) + inject_Z (Z.of_nat d))%Q).
  { rewrite Nat2Z.inj_add, inject_Z_plus. reflexivity. }
  destruct rest as [| cl' rest'].
  - simpl in Ht. inversion Ht; subst t. rewrite Hadd in Hr. lra.
  - specialize (IH (r - inject_Z (Z.of_nat d))%Q (S selected) (a + d) t).
    assert (Hlt : pick (r - inject_Z (Z.of_nat d)) (S selected) (cl' :: rest')
                  < S selected + List.length (cl' :: rest')).
    { apply IH; [discriminate | exact Ht |]. rewrite Hadd. lra. }
    simpl in Hlt |- *. lia.
Qed.

Lemma attachOne_valid (random : nat -> Q) (n i : nat) (d : list cell)
    (es : list Edge) (j c : nat) :
  unitDraws random ->
  0 < i -> i < n -> List.length d = i ->
  validEdges n es ->
  validEdges n (fst (attachOne random i d es j c)).
Proof.
  intros Hr H0 Hi Hd Hes. unfold attachOne, bind, mathRandom, ret. simpl.
  assert (Hsel : match totalDegree d with
                 | Some t => pick (random c * inject_Z (Z.of_nat t)) 0 d
                 | None => 0
                 end < i).
  { destruct (totalDegree d) as [t |] eqn:Et; [| exact H0].
    rewrite <- Hd. change (List.length d) with (0 + List.length d).
    apply (pick_lt d _ 0 0 t).
    - destruct d; [simpl in Hd; lia | discriminate].
    - exact Et.
    - destruct (Hr c) as [Hlo Hhi].
      assert (Ht : (0 <= inject_Z (Z.of_nat t))%Q).
      { change 0%Q with (inject_Z 0). rewrite <- Zle_Qle. lia. }
      change (inject_Z (Z.of_nat 0)) with 0%Q. nra. }
  apply validEdges_push; [exact Hes | lia | lia | lia].
Qed.

Lemma seedEdges_valid (n : nat) : 3 <= n -> validEdges n seedEdges.
Proof.
  intros Hn. unfold validEdges. simpl. repeat constructor; simpl; lia.
Qed.

Lemma scaleFreeEdges_valid (random : nat -> Q) (n c : nat) :
  unitDraws random -> 3 <= n ->
  validEdges n (fst (scaleFreeEdges random n c)).
Proof.
  intros Hr Hn. unfold scaleFreeEdges.
  apply (forEachM_inv_In (validEdges n)); [| now apply seedEdges_valid].
  intros es i c1 Hi Hes. apply in_seq in Hi. unfold attachNode.
  apply (forEachM_inv_In (validEdges n)); [| exact Hes].
  intros es' j c2 _ Hes'.
  apply attachOne_valid; try assumption; try lia.
  apply attachDegrees_length.
Qed.

(** With draws in [[0, 1)], generation on at least four nodes yields only
    edges between two different existing nodes, under every topology. *)
Lemma createGraph_edges_valid (random : nat -> Q) (cv : Canvas) (n : nat)
    (p : Q) (type : string) (c : nat) :
  unitDraws random -> 4 <= n ->
  validEdges n (edges (fst (createGraph random cv n p type c))).
Proof.
  intros Hr Hn. unfold createGraph, bind.
  destruct (generateNodes random cv n c) as [ns c1].
  destruct (String.eqb type "regular").
  - simpl. now apply regularEdges_valid.
  - destruct (String.eqb type "scale-free").
    + pose proof (scaleFreeEdges_valid random n c1 Hr) as H.
      destruct (scaleFreeEdges random n c1) as [es c2]. simpl in *.
      apply H. lia.
    + pose proof (randomEdges_valid random n p c1) as H.
      destruct (randomEdges random n p c1) as [es c2]. exact H.
Qed.

(** * Further properties of the code *)

(** ** The factoring demo *)

Lemma lookup_In {A : Type} (N : nat) (table : list (nat * A)) (v : A) :
  ShorSimulator.lookup N table = Some v -> In (N, v) table.
Proof.
  induction table as [| [k w] table IH]; simpl; [discriminate |].
  destruct (Nat.eqb_spec N k) as [-> | Hne]; intros H.
  - left. congruence.
  - right. now apply IH.
Qed.

Lemma knownFactors_composite (N a b : nat) :
  ShorSimulator.lookup N ShorSimulator.knownFactors = Some (a, b) ->
  N = a * b /\ 2 <= a /\ a <= b.
Proof.
  intros H. apply lookup_In in H. unfold ShorSimulator.knownFactors in H.
  simpl in H.
  repeat (destruct H as [H | H];
          [inversion H; subst; repeat split; try reflexivity; lia |]).
  destruct H.
Qed.

Lemma find_seq_first (f : nat -> bool) (len : nat) :
  forall a i,
    find f (seq a len) = Some i ->
    a <= i < a + len /\ f i = true /\ forall d, a <= d < i -> f d = false.
Proof.
  induction len as [| len IH]; intros a i H; simpl in H; [discriminate |].
  destruct (f a) eqn:E.
  - inversion H; subst. split; [lia |]. split; [assumption |].
    intros d Hd. lia.
  - destruct (IH (S a) i H) as (Hr & Hf & Hmin).
    split; [lia |]. split; [assumption |].
    intros d Hd. destruct (Nat.eq_dec d a) as [-> | Hne]; [assumption |].
    apply Hmin. lia.
Qed.

Lemma sqrt_bound (N i : nat) : i <= Nat.sqrt N -> i * i <= N.
Proof.
  intros H. pose proof (Nat.sqrt_spec N (Nat.le_0_l N)) as [Hlo _].
  nia.
Qed.

(** A number with no divisor from 2 up to its integer square root is
    prime. *)
Lemma no_small_divisor_prime (N : nat) :
  2 <= N ->
  (forall i, 2 <= i -> i <= Nat.sqrt N -> N mod i <> 0) ->
  isPrime N.
Proof.
  intros HN Hnone. split; [assumption |]. intros d [k Hk].
  destruct (Nat.eq_dec d 1) as [-> | Hd1]; [now left |].
  destruct (Nat.eq_dec d N) as [-> | HdN]; [now right |].
  exfalso.
  assert (Hd : 2 <= d).
  { destruct d as [| [| d]]; [rewrite Nat.mul_0_r in Hk | |]; lia. }
  assert (Hk2 : 2 <= k).
  { destruct k as [| [| k]]; [| rewrite Nat.mul_1_l in Hk |]; lia. }
  pose proof (Nat.sqrt_spec N (Nat.le_0_l N)) as [_ Hhi].
  destruct (Nat.le_gt_cases d (Nat.sqrt N)) as [Hle | Hgt].
  - apply (Hnone d Hd Hle). apply Nat.Lcm0.mod_divide. now exists k.
  - destruct (Nat.le_gt_cases k (Nat.sqrt N)) as [Hle' | Hgt'].
    + apply (Hnone k Hk2 Hle'). apply Nat.Lcm0.mod_divide.
      exists d. lia.
    + nia.
Qed.

Lemma sqrt_lt_self (N : nat) : 2 <= N -> Nat.sqrt N < N.
Proof. intros H. apply Nat.sqrt_lt_lin. lia. Qed.

Lemma factors_multiply (N : nat) :
  fst (ShorSimulator.calculateFactors N)
  * snd (ShorSimulator.calculateFactors N) = N.
Proof.
  unfold ShorSimulator.calculateFactors.
  destruct (ShorSimulator.lookup N ShorSimulator.knownFactors)
    as [[a b] |] eqn:El.
  - destruct (knownFactors_composite N a b El) as [-> _]. reflexivity.
  - destruct (find _ _) as [i |] eqn:Ef; simpl; [| lia].
    apply find_some in Ef. destruct Ef as [_ Hmod].
    apply Nat.eqb_eq in Hmod.
    symmetry. now apply Nat.Div0.div_exact.
Qed.

(** X1. The two numbers [calculateFactors] returns multiply to [N], for
    every [N]: from the table, from trial division, or as [[1, N]]. *)
Theorem calculateFactors_product (N : nat) :
  let factors := ShorSimulator.calculateFactors N in
  fst factors * snd factors = N.
Proof. intros factors. subst factors. apply factors_multiply. Qed.

(** X2. For [N >= 2], [calculateFactors] answers [[1, N]] exactly when
    [N] is prime. *)
Theorem calculateFactors_prime (N : nat) :
  2 <= N ->
  (ShorSimulator.calculateFactors N = (1, N) <-> isPrime N).
Proof.
  intros HN. unfold ShorSimulator.calculateFactors.
  destruct (ShorSimulator.lookup N ShorSimulator.knownFactors)
    as [[a b] |] eqn:El.
  - destruct (knownFactors_composite N a b El) as (HNab & Ha & Hab).
    split; intros H.
    + inversion H. lia.
    + exfalso. destruct H as [_ Hdiv].
      destruct (Hdiv a) as [H1 | H1]; [exists b; lia | lia | nia].
  - destruct (find _ _) as [i |] eqn:Ef.
    + destruct (find_seq_first _ _ _ _ Ef) as (Hr & Hmod & _).
      apply Nat.eqb_eq in Hmod.
      pose proof (sqrt_lt_self N HN) as Hs.
      split; intros H.
      * inversion H. lia.
      * exfalso. destruct H as [_ Hdiv].
        destruct (Hdiv i) as [H1 | H1];
          [now apply Nat.Lcm0.mod_divide | lia | lia].
    + split; intros H; [| reflexivity].
      apply no_small_divisor_prime; [assumption |].
      intros i Hi Hle Hmod.
      pose proof (find_none _ _ Ef i) as Hf. simpl in Hf.
      rewrite Hmod in Hf. simpl in Hf.
      assert (Hin : In i (seq 2 (Nat.sqrt N - 1))) by (apply in_seq; lia).
      specialize (Hf Hin). discriminate.
Qed.

Lemma calculateFactors_prime_witness :
  ShorSimulator.calculateFactors 97 = (1, 97) <-> isPrime 97.
Proof. apply (calculateFactors_prime 97). lia. Defined.

(** X3. For [N >= 1] the pair is ordered: the first number is at least 1
    and at most the second. *)
Theorem calculateFactors_ordered (N : nat) :
  1 <= N ->
  1 <= fst (ShorSimulator.calculateFactors N)
  /\ fst (ShorSimulator.calculateFactors N)
     <= snd (ShorSimulator.calculateFactors N).
Proof.
  intros HN. unfold ShorSimulator.calculateFactors.
  destruct (ShorSimulator.lookup N ShorSimulator.knownFactors)
    as [[a b] |] eqn:El.
  - destruct (knownFactors_composite N a b El) as (_ & Ha & Hab).
    simpl. lia.
  - destruct (find _ _) as [i |] eqn:Ef; simpl; [| lia].
    destruct (find_seq_first _ _ _ _ Ef) as (Hr & _ & _).
    split; [lia |].
    apply Nat.div_le_lower_bound; [lia |].
    apply sqrt_bound. lia.
Qed.

Lemma calculateFactors_ordered_witness :
  1 <= fst (ShorSimulator.calculateFactors 100)
  /\ fst (ShorSimulator.calculateFactors 100)
     <= snd (ShorSimulator.calculateFactors 100).
Proof. apply (calculateFactors_ordered 100). lia. Defined.

(** X4. Outside the table the first number is the least divisor of [N]
    above 1 whenever it is not 1: nothing from 2 up to it divides [N], so
    it is prime. *)
Theorem calculateFactors_least (N : nat) :
  ShorSimulator.lookup N ShorSimulator.knownFactors = None ->
  fst (ShorSimulator.calculateFactors N) <> 1 ->
  Nat.divide (fst (ShorSimulator.calculateFactors N)) N /\
  (forall d, 2 <= d < fst (ShorSimulator.calculateFactors N) ->
             ~ Nat.divide d N) /\
  isPrime (fst (ShorSimulator.calculateFactors N)).
Proof.
  intros El Hne. unfold ShorSimulator.calculateFactors in *. rewrite El in *.
  destruct (find _ _) as [i |] eqn:Ef; simpl in *; [| congruence].
  destruct (find_seq_first _ _ _ _ Ef) as (Hr & Hmod & Hmin).
  apply Nat.eqb_eq in Hmod.
  assert (Hdiv : Nat.divide i N) by now apply Nat.Lcm0.mod_divide.
  assert (Hleast : forall d, 2 <= d < i -> ~ Nat.divide d N).
  { intros d Hd Hdd. apply Nat.Lcm0.mod_divide in Hdd.
    specialize (Hmin d Hd). rewrite Hdd in Hmin. discriminate. }
  repeat split; try assumption; [lia |].
  intros d Hd.
  destruct (Nat.eq_dec d 1) as [-> | H1]; [now left |]. right.
  destruct (Nat.eq_dec d i) as [-> | H2]; [reflexivity |]. exfalso.
  assert (Hdpos : d <> 0).
  { intros ->. destruct Hd as [k Hk]. lia. }
  assert (Hdle : d <= i) by (apply Nat.divide_pos_le; [lia | assumption]).
  apply (Hleast d); [lia |]. now apply Nat.divide_trans with i.
Qed.

Lemma calculateFactors_least_witness :
  Nat.divide (fst (ShorSimulator.calculateFactors 221)) 221 /\
  (forall d, 2 <= d < fst (ShorSimulator.calculateFactors 221) ->
             ~ Nat.divide d 221) /\
  isPrime (fst (ShorSimulator.calculateFactors 221)).
Proof.
  apply (calculateFactors_least 221); [reflexivity |].
  vm_compute. discriminate.
Defined.

(** ** More on the greedy heuristic *)

Lemma head_selected (g : Graph) (top : nat) (rest : list nat) :
  processingOrder g = top :: rest -> In top (findMWISSolution g).
Proof.
  intros Eo. unfold findMWISSolution, greedy. rewrite Eo. simpl.
  apply selectStep_keeps. simpl. now left.
Qed.

Lemma selection_nonempty (g : Graph) :
  nodes g <> [] -> findMWISSolution g <> [].
Proof.
  intros Hne Hnil.
  pose proof (processingOrder_perm g) as Hperm.
  destruct (processingOrder g) as [| top rest] eqn:Eo.
  - apply Permutation_nil in Hperm.
    destruct (nodes g); [congruence | discriminate].
  - pose proof (head_selected g top rest Eo) as Hin.
    rewrite Hnil in Hin. destruct Hin.
Qed.

(** X6. On a graph with at least one node the Selection is not empty: the
    node processed first is always selected, and no node has a higher
    score than it. *)
Theorem findMWISSolution_top (g : Graph) :
  nodes g <> [] ->
  exists top rest,
    processingOrder g = top :: rest /\
    In top (findMWISSolution g) /\
    forall j, j < List.length (nodes g) -> (score g j <= score g top)%Q.
Proof.
  intros Hne.
  pose proof (processingOrder_perm g) as Hperm.
  pose proof (processingOrder_sorted g) as Hsorted.
  assert (Hin : forall j, j < List.length (nodes g) ->
                          In j (processingOrder g)).
  { intros j Hj. now apply In_processingOrder. }
  destruct (processingOrder g) as [| top rest] eqn:Eo.
  - exfalso. apply Permutation_nil in Hperm.
    destruct (nodes g); [congruence | discriminate].
  - exists top, rest. split; [reflexivity |]. split.
    + now apply head_selected with rest.
    + intros j Hj. inversion Hsorted as [| ? ? _ Hall]; subst.
      destruct (Hin j Hj) as [<- | Hrest]; [apply Qle_refl |].
      rewrite Forall_forall in Hall. apply before_le. now apply Hall.
Qed.

Lemma findMWISSolution_top_witness :
  exists top rest,
    processingOrder pathGraph = top :: rest /\
    In top (findMWISSolution pathGraph) /\
    forall j, j < List.length (nodes pathGraph) ->
              (score pathGraph j <= score pathGraph top)%Q.
Proof. apply (findMWISSolution_top pathGraph). discriminate. Defined.

Lemma neighbours_length (es : list Edge) (u : nat) :
  List.length (neighbours es u) = degree es u.
Proof.
  unfold neighbours. induction es as [| e es IH]; simpl; [reflexivity |].
  rewrite length_app, length_app, IH.
  destruct (fst e =? u); destruct (snd e =? u); simpl; lia.
Qed.

Lemma adjacent_neighbours (es : list Edge) (u v : nat) :
  adjacent es u v -> In v (neighbours es u).
Proof.
  unfold adjacent, neighbours. intros [H | H]; apply in_flat_map.
  - exists (u, v). split; [assumption |]. simpl. rewrite Nat.eqb_refl.
    now left.
  - exists (v, u). split; [assumption |]. simpl. rewrite Nat.eqb_refl.
    apply in_or_app. right. now left.
Qed.

Lemma degree_le_maxDegree (g : Graph) (u : nat) :
  u < List.length (nodes g) -> degree (edges g) u <= maxDegree g.
Proof.
  intros Hu. unfold maxDegree.
  pose proof (list_max_le (map (degree (edges g))
                               (seq 0 (List.length (nodes g))))
                          (list_max (map (degree (edges g))
                               (seq 0 (List.length (nodes g))))))
    as [Hmax _].
  specialize (Hmax (Nat.le_refl _)). rewrite Forall_forall in Hmax.
  apply Hmax. apply in_map. apply in_seq. lia.
Qed.

Lemma cover_length (g : Graph) (sel : list nat) :
  (forall u, In u sel -> u < List.length (nodes g)) ->
  List.length (flat_map (fun u => u :: neighbours (edges g) u) sel)
  <= List.length sel * (maxDegree g + 1).
Proof.
  induction sel as [| u sel IH]; intros Hsel; simpl; [lia |].
  rewrite length_app, neighbours_length.
  pose proof (degree_le_maxDegree g u (Hsel u (or_introl eq_refl))).
  assert (IH' : List.length
                  (flat_map (fun u => u :: neighbours (edges g) u) sel)
                <= List.length sel * (maxDegree g + 1)).
  { apply IH. intros v Hv. apply Hsel. now right. }
  lia.
Qed.

(** X7. The Selection is never small: with [D] the largest degree counter
    of the graph, the number of nodes is at most [|Selection| * (D + 1)].
    Every node is selected or is the neighbour of a selected node, and a
    selected node has at most [D] neighbours. *)
Theorem findMWISSolution_size (g : Graph) :
  List.length (nodes g)
  <= List.length (findMWISSolution g) * (maxDegree g + 1).
Proof.
  assert (Hcover :
            incl (seq 0 (List.length (nodes g)))
                 (flat_map (fun u => u :: neighbours (edges g) u)
                           (findMWISSolution g))).
  { intros i Hi. apply in_seq in Hi. apply in_flat_map.
    unfold findMWISSolution.
    destruct (greedyInv_greedy (edges g) (processingOrder g))
      as (Hconf & _ & Hcov & _ & _).
    assert (Hord : In i (processingOrder g))
      by (apply In_processingOrder; lia).
    destruct (Hcov i Hord) as [Hs | Hc].
    - exists i. split; [assumption | now left].
    - apply Hconf in Hc. destruct Hc as [u [Hu Ha]].
      exists u. split; [assumption |]. right.
      now apply adjacent_neighbours. }
  pose proof (NoDup_incl_length (seq_NoDup (List.length (nodes g)) 0) Hcover)
    as Hlen.
  rewrite length_seq in Hlen.
  eapply Nat.le_trans; [exact Hlen |].
  apply cover_length. intros u Hu. unfold findMWISSolution in Hu.
  destruct (greedyInv_greedy (edges g) (processingOrder g))
    as (_ & Hsub & _ & _ & _).
  apply In_processingOrder. now apply Hsub.
Qed.

Lemma totalWeight_fold_None (g : Graph) (solution : list nat) :
  fold_left
    (fun (sum : option Q) nodeId =>
       match sum, nth_error (nodes g) nodeId with
       | Some s, Some nd => Some (s + weight nd)%Q
       | _, _ => None
       end)
    solution None = None.
Proof. induction solution as [| i solution IH]; simpl; auto. Qed.

Lemma totalWeight_fold_Some (g : Graph) (solution : list nat) :
  Forall (fun i => i < List.length (nodes g)) solution ->
  forall a : Q,
  exists w : Q,
    fold_left
      (fun (sum : option Q) nodeId =>
         match sum, nth_error (nodes g) nodeId with
         | Some s, Some nd => Some (s + weight nd)%Q
         | _, _ => None
         end)
      solution (Some a) = Some w /\
    (w == a + weightSum g solution)%Q.
Proof.
  induction solution as [| i solution IH]; intros Hall a; simpl.
  - exists a. split; [reflexivity | ring].
  - inversion Hall as [| ? ? Hi Hrest]; subst.
    destruct (nth_error (nodes g) i) as [nd |] eqn:En.
    + destruct (IH Hrest (a + weight nd)%Q) as [w [Hw Heq]].
      exists w. split; [exact Hw |]. rewrite Heq. ring.
    + apply nth_error_None in En. lia.
Qed.

Lemma totalWeight_fold_missing (g : Graph) (solution : list nat) :
  ~ Forall (fun i => i < List.length (nodes g)) solution ->
  forall a : option Q,
    fold_left
      (fun (sum : option Q) nodeId =>
         match sum, nth_error (nodes g) nodeId with
         | Some s, Some nd => Some (s + weight nd)%Q
         | _, _ => None
         end)
      solution a = None.
Proof.
  induction solution as [| i solution IH]; intros Hnot a; simpl.
  - exfalso. apply Hnot. constructor.
  - destruct (Nat.lt_ge_cases i (List.length (nodes g))) as [Hi | Hi].
    + apply IH. intros Hrest. apply Hnot. now constructor.
    + apply nth_error_None in Hi. rewrite Hi.
      destruct a; apply totalWeight_fold_None.
Qed.

(** X8. [calculateTotalWeight] returns the sum of the named nodes' weights
    when every identifier of the solution names a node, and fails with a
    [TypeError] (reading [.weight] of [undefined]) as soon as one does
    not. *)
Theorem calculateTotalWeight_spec (g : Graph) (solution : list nat) :
  (Forall (fun i => i < List.length (nodes g)) solution ->
   exists w, calculateTotalWeight g solution = Some w /\
             (w == weightSum g solution)%Q) /\
  (~ Forall (fun i => i < List.length (nodes g)) solution ->
   calculateTotalWeight g solution = None).
Proof.
  unfold calculateTotalWeight. split; intros H.
  - destruct (totalWeight_fold_Some g solution H 0%Q) as [w [Hw Heq]].
    exists w. split; [exact Hw |]. rewrite Heq. ring.
  - now apply totalWeight_fold_missing.
Qed.

Lemma calculateTotalWeight_spec_witness :
  (exists w, calculateTotalWeight pathGraph [0; 2] = Some w /\
             (w == weightSum pathGraph [0%nat; 2%nat])%Q) /\
  calculateTotalWeight pathGraph [0; 7] = None.
Proof.
  split.
  - apply (calculateTotalWeight_spec pathGraph [0; 2]).
    repeat constructor.
  - apply (calculateTotalWeight_spec pathGraph [0; 7]).
    intros H. inversion H as [| ? ? _ H']. inversion H' as [| ? ? Hlt _].
    simpl in Hlt. lia.
Defined.

Lemma findMWISSolution_inRange (g : Graph) :
  Forall (fun i => i < List.length (nodes g)) (findMWISSolution g).
Proof.
  apply Forall_forall. intros u Hu. unfold findMWISSolution in Hu.
  destruct (greedyInv_greedy (edges g) (processingOrder g))
    as (_ & Hsub & _ & _ & _).
  apply In_processingOrder. now apply Hsub.
Qed.

Lemma weightSum_bounds (g : Graph) (ids : list nat) :
  Forall weightInRange (nodes g) ->
  Forall (fun i => i < List.length (nodes g)) ids ->
  (inject_Z (Z.of_nat (List.length ids)) * (1 # 2) <= weightSum g ids /\
   weightSum g ids <= inject_Z (Z.of_nat (List.length ids)) * (5 # 2))%Q.
Proof.
  intros Hw. induction ids as [| i ids IH]; intros Hall.
  - simpl. split; discriminate.
  - inversion Hall as [| ? ? Hi Hrest]; subst.
    destruct (IH Hrest) as [Hlo Hhi].
    cbn [weightSum fold_right List.length]. fold (weightSum g ids).
    destruct (nth_error (nodes g) i) as [nd |] eqn:En.
    + assert (Hnd : weightInRange nd).
      { rewrite Forall_forall in Hw. apply Hw.
        now apply nth_error_In with i. }
      destruct Hnd as [H1 H2].
      rewrite Nat2Z.inj_succ, <- Z.add_1_r, inject_Z_plus.
      change (inject_Z 1) with 1%Q. split; lra.
    + apply nth_error_None in En. lia.
Qed.

Lemma createGraph_weights_all (random : nat -> Q) (cv : Canvas) (n : nat)
    (p : Q) (type : string) (c : nat) :
  unitDraws random ->
  Forall weightInRange (nodes (fst (createGraph random cv n p type c))).
Proof.
  intros Hr. rewrite createGraph_nodes. unfold generateNodes.
  apply (forEachM_inv (Forall weightInRange)); [| constructor].
  intros s a c'. now apply pushNode_weight.
Qed.

(** X9. Generation followed by the heuristic and the weight sum never
    fails: with draws in [[0, 1)] the total weight of the Selection of a
    generated graph is a number between [|Selection| / 2] and
    [5 |Selection| / 2], and on at least one node it is at least 1/2. *)
Theorem generated_totalWeight (random : nat -> Q) (cv : Canvas) (n : nat)
    (p : Q) (type : string) (c : nat) :
  unitDraws random ->
  let g := fst (createGraph random cv n p type c) in
  let size := inject_Z (Z.of_nat (List.length (findMWISSolution g))) in
  exists w,
    calculateTotalWeight g (findMWISSolution g) = Some w /\
    (size * (1 # 2) <= w /\ w <= size * (5 # 2))%Q /\
    (1 <= n -> ((1 # 2) <= w)%Q).
Proof.
  intros Hr g size.
  pose proof (findMWISSolution_inRange g) as Hin.
  destruct (totalWeight_fold_Some g (findMWISSolution g) Hin 0%Q)
    as [w [Hw Heq]].
  pose proof (weightSum_bounds g (findMWISSolution g)
                (createGraph_weights_all random cv n p type c Hr) Hin)
    as [Hlo Hhi].
  exists w. split; [exact Hw |].
  assert (Hb : (size * (1 # 2) <= w /\ w <= size * (5 # 2))%Q).
  { subst size. rewrite Heq. split; lra. }
  split; [exact Hb |]. intros Hn.
  assert (Hlen : 1 <= List.length (findMWISSolution g)).
  { assert (Hnodes : List.length (nodes g) = n)
      by apply createGraph_length.
    assert (Hne : nodes g <> []).
    { intros E. rewrite E in Hnodes. simpl in Hnodes. lia. }
    pose proof (selection_nonempty g Hne) as Hs.
    destruct (findMWISSolution g); [congruence | simpl; lia]. }
  assert (Hq : (1 <= size)%Q).
  { subst size. change 1%Q with (inject_Z 1). rewrite <- Zle_Qle. lia. }
  destruct Hb as [Hb _]. lra.
Qed.

Lemma generated_totalWeight_witness :
  let g := fst (createGraph (constDraws (1 # 2)) pageCanvas 3 (1 # 2)
                  "random" 0) in
  let size := inject_Z (Z.of_nat (List.length (findMWISSolution g))) in
  exists w,
    calculateTotalWeight g (findMWISSolution g) = Some w /\
    (size * (1 # 2) <= w /\ w <= size * (5 # 2))%Q /\
    (1 <= 3 -> ((1 # 2) <= w)%Q).
Proof.
  apply (generated_totalWeight (constDraws (1 # 2)) pageCanvas 3 (1 # 2)
           "random" 0).
  apply unitDraws_const; [discriminate | reflexivity].
Defined.

(** ** The graph metrics *)

Module MetricsFacts.

Import JSNum GraphMetrics.

Lemma add_NaN_r (a : num) : add a NaN = NaN.
Proof. destruct a; reflexivity. Qed.

Lemma sub_NaN_r (a : num) : sub a NaN = NaN.
Proof. destruct a; reflexivity. Qed.

Lemma fold_add_NaN (l : list num) : fold_left add l NaN = NaN.
Proof. induction l as [| b l IH]; simpl; auto. Qed.

Lemma fold_add_In_NaN (l : list num) :
  forall a, In NaN l -> fold_left add l a = NaN.
Proof.
  induction l as [| b l IH]; intros a H; [destruct H |].
  simpl. destruct H as [-> | H].
  - rewrite add_NaN_r. apply fold_add_NaN.
  - now apply IH.
Qed.

Lemma fold_var_NaN (l : list num) :
  fold_left (fun a b => add a (mul (sub b NaN) (sub b NaN))) l NaN = NaN.
Proof.
  induction l as [| b l IH]; cbn [fold_left add]; [reflexivity | exact IH].
Qed.

Lemma incr_at_None_persists (u : nat) :
  forall a : list JS.cell, In None a -> In None (JS.incr_at u a).
Proof.
  induction u as [| u IH]; intros [| c a] H; simpl in *; try tauto.
  - destruct H as [-> | H]; [now left | now right].
  - destruct H as [-> | H]; [now left | right; now apply IH].
Qed.

Lemma incr_at_outside (u : nat) :
  forall a : list JS.cell,
    List.length a <= u -> In None (JS.incr_at u a).
Proof.
  induction u as [| u IH]; intros [| c a] H; simpl in *; try lia.
  - now left.
  - destruct u; simpl; now left.
  - right. apply IH. lia.
Qed.

Lemma incr_at_cases (n u : nat) (a : list JS.cell) :
  In None a \/ List.length a <= n ->
  In None (JS.incr_at u a) \/ List.length (JS.incr_at u a) <= n.
Proof.
  intros [H | H]; [left; now apply incr_at_None_persists |].
  destruct (Nat.lt_ge_cases u (List.length a)) as [Hu | Hu].
  - right. now rewrite incr_at_length.
  - left. now apply incr_at_outside.
Qed.

Lemma degrees_fold_None (es : list Edge) :
  forall d : list JS.cell,
    In None d ->
    In None
      (fold_left
         (fun d (e : Edge) => JS.incr_at (snd e) (JS.incr_at (fst e) d))
         es d).
Proof.
  induction es as [| e es IH]; intros d H; simpl; [exact H |].
  apply IH. now do 2 apply incr_at_None_persists.
Qed.

Lemma degrees_fold_outside (n : nat) (es : list Edge) :
  ~ inRange n es ->
  forall d : list JS.cell,
    In None d \/ List.length d <= n ->
    In None
      (fold_left
         (fun d (e : Edge) => JS.incr_at (snd e) (JS.incr_at (fst e) d))
         es d).
Proof.
  induction es as [| e es IH]; intros Hout d Hd; simpl.
  - exfalso. apply Hout. constructor.
  - destruct (Nat.lt_ge_cases (fst e) n) as [H1 | H1];
      [destruct (Nat.lt_ge_cases (snd e) n) as [H2 | H2] |].
    + apply IH.
      * intros Hin. apply Hout. constructor; [split |]; assumption.
      * apply (incr_at_cases n). now apply (incr_at_cases n).
    + apply degrees_fold_None.
      destruct (incr_at_cases n (fst e) d Hd) as [Hn | Hl].
      * now apply incr_at_None_persists.
      * apply incr_at_outside. lia.
    + apply degrees_fold_None. apply incr_at_None_persists.
      destruct Hd as [Hn | Hl].
      * now apply incr_at_None_persists.
      * apply incr_at_outside. lia.
Qed.

Lemma computeDegrees_outside (n : nat) (es : list Edge) :
  ~ inRange n es -> In None (computeDegrees n es).
Proof.
  intros H. unfold computeDegrees.
  apply (degrees_fold_outside n); [exact H |].
  right. now rewrite repeat_length.
Qed.

(** A [NaN] among the degree counters makes the whole score [NaN]. *)
Lemma symmetry_NaN (g : Graph) :
  In None (computeDegrees (List.length (nodes g)) (edges g)) ->
  calculateSymmetryScore g = Returned NaN.
Proof.
  intros H. unfold calculateSymmetryScore.
  assert (Hin : In NaN (map cellNum
                          (computeDegrees (List.length (nodes g)) (edges g)))).
  { change NaN with (cellNum None). now apply in_map. }
  destruct (map cellNum _) as [| d0 rest] eqn:E; [destruct Hin |].
  cbv zeta.
  assert (Hmean : fold_left add rest d0 = NaN).
  { destruct Hin as [-> | Hin]; [apply fold_add_NaN |].
    now apply fold_add_In_NaN. }
  rewrite Hmean. cbn [div].
  assert (Hvar : fold_left
                   (fun a b => add a (mul (sub b NaN) (sub b NaN)))
                   (d0 :: rest) (Fin 0) = NaN).
  { cbn [fold_left]. rewrite sub_NaN_r. cbn [mul]. rewrite add_NaN_r.
    apply fold_var_NaN. }
  rewrite Hvar. cbn [div sub neg add mul]. f_equal.
  destruct (forallb _ _); reflexivity.
Qed.

Lemma computeDegrees_length (n : nat) (es : list Edge) :
  inRange n es -> List.length (computeDegrees n es) = n.
Proof.
  unfold computeDegrees. intros H.
  assert (Hgen : forall d : list JS.cell,
             List.length d = n ->
             List.length
               (fold_left
                  (fun d (e : Edge) =>
                     JS.incr_at (snd e) (JS.incr_at (fst e) d)) es d) = n).
  { induction H as [| e es [H1 H2] _ IH]; intros d Hd; simpl; [exact Hd |].
    apply IH. rewrite !incr_at_length; rewrite ?incr_at_length; lia. }
  apply Hgen. apply repeat_length.
Qed.

Lemma computeDegrees_inRange (n : nat) (es : list Edge) :
  inRange n es ->
  computeDegrees n es = map Some (map (degree es) (seq 0 n)).
Proof.
  intros H. apply nth_error_ext. intros k.
  destruct (Nat.lt_ge_cases k n) as [Hk | Hk].
  - rewrite computeDegrees_nth by assumption.
    rewrite !nth_error_map, nth_error_seq.
    replace (k <? n) with true by (symmetry; now apply Nat.ltb_lt).
    reflexivity.
  - replace (nth_error (computeDegrees n es) k) with (@None JS.cell).
    + symmetry. apply nth_error_None.
      rewrite !length_map, length_seq. exact Hk.
    + symmetry. apply nth_error_None.
      rewrite computeDegrees_length by assumption. exact Hk.
Qed.

Lemma fold_add_Fin (ds : list nat) :
  forall a : Q,
    fold_left add (map ofNat ds) (Fin a)
    = Fin (fold_left (fun a d => a + inject_Z (Z.of_nat d))%Q ds a).
Proof. induction ds as [| d ds IH]; intros a; simpl; auto. Qed.

Lemma fold_var_Fin (m : Q) (ds : list nat) :
  forall a : Q,
    fold_left (fun a b => add a (mul (sub b (Fin m)) (sub b (Fin m))))
      (map ofNat ds) (Fin a)
    = Fin (fold_left
             (fun a d =>
                a + (inject_Z (Z.of_nat d) + - m)
                    * (inject_Z (Z.of_nat d) + - m))%Q
             ds a).
Proof. induction ds as [| d ds IH]; intros a; simpl; auto. Qed.

Lemma fold_max_Fin (ds : list nat) :
  forall a : Q,
    fold_left max (map ofNat ds) (Fin a)
    = Fin (fold_left
             (fun a d =>
                if JS.Qlt_bool a (inject_Z (Z.of_nat d))
                then inject_Z (Z.of_nat d) else a)
             ds a).
Proof.
  induction ds as [| d ds IH]; intros a; [reflexivity |].
  cbn [map fold_left].
  replace (max (Fin a) (ofNat d))
    with (Fin (if JS.Qlt_bool a (inject_Z (Z.of_nat d))
               then inject_Z (Z.of_nat d) else a)).
  - apply IH.
  - unfold max, ofNat, gt.
    destruct (JS.Qlt_bool a (inject_Z (Z.of_nat d))); reflexivity.
Qed.

Lemma forallb_strictEq (d0 : nat) (ds : list nat) :
  forallb (fun d => strictEq d (ofNat d0)) (map ofNat ds)
  = forallb (fun d => d =? d0) ds.
Proof.
  induction ds as [| d ds IH]; [reflexivity |].
  cbn [map forallb]. rewrite IH. f_equal.
  unfold ofNat, strictEq.
  destruct (Nat.eqb_spec d d0) as [-> | Hne].
  - apply Qeq_bool_refl.
  - destruct (Qeq_bool _ _) eqn:E; [| reflexivity].
    apply Qeq_bool_eq, inject_Z_injective, Nat2Z.inj in E. contradiction.
Qed.

Lemma div_Fin (x y : Q) : ~ (y == 0)%Q -> div (Fin x) (Fin y) = Fin (x / y).
Proof.
  intros H. unfold div. destruct (Qeq_bool y 0) eqn:E; [| reflexivity].
  apply Qeq_bool_eq in E. contradiction.
Qed.

Lemma sum_allEqual (d0 : nat) (ds : list nat) :
  (forall d, In d ds -> d = d0) ->
  forall a : Q,
    (fold_left (fun a d => a + inject_Z (Z.of_nat d)) ds a
     == a + inject_Z (Z.of_nat (List.length ds)) * inject_Z (Z.of_nat d0))%Q.
Proof.
  induction ds as [| d ds IH]; intros Hall a.
  - simpl. ring.
  - cbn [fold_left List.length]. rewrite IH by (intros x Hx; apply Hall; now right).
    rewrite (Hall d (or_introl eq_refl)).
    rewrite Nat2Z.inj_succ, <- Z.add_1_r, inject_Z_plus.
    change (inject_Z 1) with 1%Q. ring.
Qed.

Lemma var_zero (m : Q) (ds : list nat) :
  (forall d, In d ds -> (inject_Z (Z.of_nat d) == m)%Q) ->
  forall a : Q,
    (fold_left
       (fun a d =>
          a + (inject_Z (Z.of_nat d) + - m) * (inject_Z (Z.of_nat d) + - m))
       ds a == a)%Q.
Proof.
  induction ds as [| d ds IH]; intros Hall a.
  - reflexivity.
  - cbn [fold_left]. rewrite IH by (intros x Hx; apply Hall; now right).
    rewrite (Hall d (or_introl eq_refl)). ring.
Qed.

Lemma var_nonneg (m : Q) (ds : list nat) :
  forall a : Q,
    (a <= fold_left
            (fun a d =>
               a + (inject_Z (Z.of_nat d) + - m)
                   * (inject_Z (Z.of_nat d) + - m))
            ds a)%Q.
Proof.
  induction ds as [| d ds IH]; intros a; [apply Qle_refl |].
  cbn [fold_left]. eapply Qle_trans; [| apply IH].
  set (t := (inject_Z (Z.of_nat d) + - m)%Q). nra.
Qed.

Lemma max_bounds (ds : list nat) :
  forall a : Q,
    let mx := fold_left
                (fun a d =>
                   if JS.Qlt_bool a (inject_Z (Z.of_nat d))
                   then inject_Z (Z.of_nat d) else a)
                ds a in
    (a <= mx)%Q /\
    forall d, In d ds -> (inject_Z (Z.of_nat d) <= mx)%Q.
Proof.
  induction ds as [| d ds IH]; intros a; cbn [fold_left].
  - split; [apply Qle_refl | intros d []].
  - cbv zeta in *.
    destruct (JS.Qlt_bool a (inject_Z (Z.of_nat d))) eqn:E.
    + apply Qlt_bool_iff in E.
      destruct (IH (inject_Z (Z.of_nat d))) as [H1 H2]. split.
      * eapply Qle_trans; [apply Qlt_le_weak; exact E | exact H1].
      * intros x [<- | Hx]; [exact H1 | now apply H2].
    + apply Qlt_bool_false in E.
      destruct (IH a) as [H1 H2]. split; [exact H1 |].
      intros x [<- | Hx]; [| now apply H2].
      eapply Qle_trans; [exact E | exact H1].
Qed.

Lemma forallb_allEqual (d0 : nat) (rest : list nat) :
  forallb (fun d => d =? d0) (d0 :: rest) = true <-> allEqual (d0 :: rest).
Proof.
  rewrite forallb_forall. split.
  - intros H a b Ha Hb. apply H in Ha. apply H in Hb.
    apply Nat.eqb_eq in Ha. apply Nat.eqb_eq in Hb. congruence.
  - intros H d Hd. apply Nat.eqb_eq. apply H; [exact Hd | now left].
Qed.

Lemma inject_nat_pos (k : nat) : 1 <= k -> (0 < inject_Z (Z.of_nat k))%Q.
Proof.
  intros H. change 0%Q with (inject_Z 0). rewrite <- Zlt_Qlt. lia.
Qed.

(** The shape of the score when every counter is a number. *)
Lemma score_pre (g : Graph) (d0 : nat) (rest : list nat) :
  computeDegrees (List.length (nodes g)) (edges g) = map Some (d0 :: rest) ->
  exists v mx : Q,
    calculateSymmetryScore g
    = Returned
        (add (mul (Fin (if forallb (fun d => d =? d0) (d0 :: rest)
                        then 8 # 10 else 2 # 10))
                  (Fin (7 # 10)))
             (mul (sub (Fin 1) (div (Fin v) (Fin mx))) (Fin (3 # 10)))) /\
    (0 <= v)%Q /\
    (allEqual (d0 :: rest) -> (v == 0)%Q) /\
    (forall d, In d (d0 :: rest) -> (inject_Z (Z.of_nat d) <= mx)%Q) /\
    ((forall d, In d (d0 :: rest) -> d = 0) -> mx = inject_Z 0).
Proof.
  intros Hdeg.
  unfold calculateSymmetryScore. rewrite Hdeg, map_map.
  change (map (fun x => cellNum (Some x)) (d0 :: rest))
    with (ofNat d0 :: map ofNat rest).
  cbv beta iota zeta.
  change (ofNat d0 :: map ofNat rest) with (map ofNat (d0 :: rest)).
  rewrite forallb_strictEq.
  change (fold_left add (map ofNat rest) (ofNat d0))
    with (fold_left add (map ofNat rest) (Fin (inject_Z (Z.of_nat d0)))).
  rewrite fold_add_Fin.
  set (len := inject_Z (Z.of_nat (List.length (map ofNat (d0 :: rest))))).
  assert (Hlen : (len == inject_Z (Z.of_nat (List.length rest)) + 1)%Q).
  { subst len. rewrite length_map. cbn [List.length].
    rewrite Nat2Z.inj_succ, <- Z.add_1_r, inject_Z_plus. reflexivity. }
  assert (Hlen0 : (0 <= inject_Z (Z.of_nat (List.length rest)))%Q).
  { change 0%Q with (inject_Z 0). rewrite <- Zle_Qle. lia. }
  assert (Hlenpos : (0 < len)%Q) by (rewrite Hlen; lra).
  assert (Hlenne : ~ (len == 0)%Q) by (intros E; rewrite E in Hlenpos; lra).
  change (ofNat (List.length (map ofNat (d0 :: rest)))) with (Fin len).
  rewrite (div_Fin _ len Hlenne).
  set (m := (fold_left (fun a d => a + inject_Z (Z.of_nat d))%Q rest
               (inject_Z (Z.of_nat d0)) / len)%Q).
  rewrite fold_var_Fin. rewrite (div_Fin _ len Hlenne).
  set (vs := fold_left
               (fun a d =>
                  a + (inject_Z (Z.of_nat d) + - m)
                      * (inject_Z (Z.of_nat d) + - m))%Q
               (d0 :: rest) 0%Q).
  replace (fold_left max (map ofNat (d0 :: rest)) (Inf false))
    with (fold_left max (map ofNat rest) (Fin (inject_Z (Z.of_nat d0))))
    by reflexivity.
  rewrite fold_max_Fin.
  set (mx := fold_left
               (fun a d =>
                  if JS.Qlt_bool a (inject_Z (Z.of_nat d))
                  then inject_Z (Z.of_nat d) else a)
               rest (inject_Z (Z.of_nat d0))).
  exists (vs / len)%Q, mx.
  split; [destruct (forallb (fun d => d =? d0) (d0 :: rest)); reflexivity |].
  assert (Hvs : (0 <= vs)%Q) by apply var_nonneg.
  split; [| split; [| split]].
  - apply Qle_shift_div_l; [exact Hlenpos |]. lra.
  - intros Hall.
    assert (Hrest : forall d, In d rest -> d = d0).
    { intros d Hd. apply Hall; [now right | now left]. }
    assert (Hm : (m == inject_Z (Z.of_nat d0))%Q).
    { subst m. rewrite (sum_allEqual d0 rest Hrest), Hlen.
      field. lra. }
    assert (Hz : (vs == 0)%Q).
    { subst vs. apply var_zero. intros d [<- | Hd].
      - now rewrite Hm.
      - rewrite (Hrest d Hd). now rewrite Hm. }
    rewrite Hz. field. exact Hlenne.
  - pose proof (max_bounds rest (inject_Z (Z.of_nat d0))) as [H1 H2].
    fold mx in H1, H2. intros d [<- | Hd]; [exact H1 | now apply H2].
  - intros Hzero. subst mx. rewrite (Hzero d0 (or_introl eq_refl)).
    assert (Hr : forall d, In d rest -> d = 0)
      by (intros d Hd; apply Hzero; now right).
    clear - Hr. induction rest as [| d rest IH]; [reflexivity |].
    cbn [fold_left]. rewrite (Hr d (or_introl eq_refl)).
    change (JS.Qlt_bool (inject_Z (Z.of_nat 0)) (inject_Z (Z.of_nat 0)))
      with false.
    cbv iota. apply IH. intros x Hx. apply Hr. now right.
Qed.

Lemma degreesOf_cons (g : Graph) :
  nodes g <> [] -> exists d0 rest, degreesOf g = d0 :: rest.
Proof.
  intros Hne. unfold degreesOf.
  destruct (nodes g) as [| nd ns]; [congruence |].
  cbn [List.length seq map]. eauto.
Qed.

Lemma computeDegrees_degreesOf (g : Graph) :
  inRange (List.length (nodes g)) (edges g) ->
  computeDegrees (List.length (nodes g)) (edges g) = map Some (degreesOf g).
Proof. intros H. now apply computeDegrees_inRange. Qed.

Lemma degree_head (e : Edge) (es : list Edge) : 1 <= degree (e :: es) (fst e).
Proof. simpl. rewrite Nat.eqb_refl. lia. Qed.

(** The score of a well-formed graph with at least one edge. *)
Lemma score_inRange (g : Graph) :
  inRange (List.length (nodes g)) (edges g) ->
  edges g <> [] ->
  exists q : Q,
    calculateSymmetryScore g = Returned (Fin q) /\
    (allEqual (degreesOf g) -> (q == 86 # 100)%Q) /\
    (~ allEqual (degreesOf g) -> (q <= 44 # 100)%Q) /\
    (determineOptimalApproach (Fin q) = "QFT Quantum Walk (Shor-inspired)"%string
     <-> allEqual (degreesOf g)).
Proof.
  intros Hin Hne.
  destruct (edges g) as [| e es] eqn:Ee; [congruence |].
  assert (He : fst e < List.length (nodes g)).
  { inversion Hin as [| ? ? [H1 _] _]. exact H1. }
  assert (Hnodes : nodes g <> []).
  { intros E. rewrite E in He. simpl in He. lia. }
  destruct (degreesOf_cons g Hnodes) as [d0 [rest Hds]].
  pose proof (computeDegrees_degreesOf g) as Hcd.
  rewrite Ee in Hcd. specialize (Hcd Hin). rewrite Hds in Hcd.
  rewrite <- Ee in Hcd.
  destruct (score_pre g d0 rest Hcd) as (v & mx & Hscore & Hv & Hzero & Hmax & _).
  assert (Hmx : (0 < mx)%Q).
  { assert (Hd : In (degree (edges g) (fst e)) (d0 :: rest)).
    { rewrite <- Hds. unfold degreesOf. apply in_map. apply in_seq. lia. }
    eapply Qlt_le_trans; [| exact (Hmax _ Hd)].
    apply inject_nat_pos. rewrite Ee. apply degree_head. }
  assert (Hmxne : ~ (mx == 0)%Q) by (intros E; rewrite E in Hmx; lra).
  rewrite (div_Fin v mx Hmxne) in Hscore.
  cbn [sub neg add mul] in Hscore.
  assert (Hratio : (0 <= v / mx)%Q).
  { apply Qle_shift_div_l; [exact Hmx | lra]. }
  unfold determineOptimalApproach, gt.
  destruct (forallb (fun d => d =? d0) (d0 :: rest)) eqn:Ereg.
  - apply forallb_allEqual in Ereg.
    eexists. split; [exact Hscore |].
    assert (Hq : ((8 # 10) * (7 # 10) + (1 + - (v / mx)) * (3 # 10)
                  == 86 # 100)%Q).
    { rewrite (Hzero Ereg). field. exact Hmxne. }
    split; [intros _; exact Hq |].
    split; [intros Hnot; exfalso; apply Hnot; now rewrite Hds |].
    replace (JS.Qlt_bool (7 # 10) _) with true.
    + split; [intros _; now rewrite Hds | reflexivity].
    + symmetry. apply Qlt_bool_iff. rewrite Hq. reflexivity.
  - assert (Hnot : ~ allEqual (d0 :: rest)).
    { intros Hall. apply forallb_allEqual in Hall. congruence. }
    eexists. split; [exact Hscore |].
    assert (Hq : ((2 # 10) * (7 # 10) + (1 + - (v / mx)) * (3 # 10)
                  <= 44 # 100)%Q) by lra.
    split; [intros Hall; exfalso; apply Hnot; now rewrite <- Hds |].
    split; [intros _; exact Hq |].
    replace (JS.Qlt_bool (7 # 10) _) with false.
    + split; [| intros Hall; exfalso; apply Hnot; now rewrite <- Hds].
      destruct (JS.Qlt_bool (4 # 10) _); discriminate.
    + symmetry. apply Qlt_bool_false. lra.
Qed.

(** The score of a graph with nodes and no edge. *)
Lemma score_edgeless (g : Graph) :
  nodes g <> [] -> edges g = [] ->
  calculateSymmetryScore g = Returned NaN.
Proof.
  intros Hnodes Hedges.
  destruct (degreesOf_cons g Hnodes) as [d0 [rest Hds]].
  assert (Hin : inRange (List.length (nodes g)) (edges g))
    by (rewrite Hedges; constructor).
  pose proof (computeDegrees_degreesOf g Hin) as Hcd. rewrite Hds in Hcd.
  destruct (score_pre g d0 rest Hcd) as (v & mx & Hscore & Hv & Hzero & _ & Hmx).
  assert (Hall0 : forall d, In d (d0 :: rest) -> d = 0).
  { intros d Hd. rewrite <- Hds in Hd. unfold degreesOf in Hd.
    apply in_map_iff in Hd. destruct Hd as [i [<- _]].
    rewrite Hedges. reflexivity. }
  assert (Hall : allEqual (d0 :: rest)).
  { intros a b Ha Hb. rewrite (Hall0 a Ha), (Hall0 b Hb). reflexivity. }
  rewrite Hscore, (Hmx Hall0). f_equal.
  unfold div. change (Qeq_bool (inject_Z 0) 0) with true. cbv iota.
  unfold sign. specialize (Hzero Hall). apply Qeq_alt in Hzero.
  rewrite Hzero. cbn [sub neg add mul].
  destruct (forallb _ _); reflexivity.
Qed.

End MetricsFacts.

(** X10. On a graph whose edges name existing nodes and which has at
    least one edge, the symmetry score is a number: between 0.85 and 0.87
    when all nodes have the same degree (0.8 * 0.7 + 0.3, up to rounding)
    and at most 0.45 otherwise.  So the approach reported is
    "QFT Quantum Walk (Shor-inspired)" exactly for regular graphs. *)
Theorem calculateSymmetryScore_regularity (g : Graph) :
  inRange (List.length (nodes g)) (edges g) ->
  edges g <> [] ->
  exists q : Q,
    GraphMetrics.calculateSymmetryScore g = Returned (JSNum.Fin q) /\
    (allEqual (degreesOf g) -> (85 # 100 <= q /\ q <= 87 # 100)%Q) /\
    (~ allEqual (degreesOf g) -> (q <= 45 # 100)%Q) /\
    (GraphMetrics.determineOptimalApproach (JSNum.Fin q)
     = "QFT Quantum Walk (Shor-inspired)"%string
     <-> allEqual (degreesOf g)).
Proof.
  intros Hin Hne.
  destruct (MetricsFacts.score_inRange g Hin Hne) as (q & Hq & Hreg & Hirr & Happ).
  exists q. split; [exact Hq |]. split; [| split; [| exact Happ]].
  - intros H. specialize (Hreg H). split; lra.
  - intros H. specialize (Hirr H). lra.
Qed.

Lemma calculateSymmetryScore_regularity_witness :
  exists q : Q,
    GraphMetrics.calculateSymmetryScore pathGraph = Returned (JSNum.Fin q) /\
    (allEqual (degreesOf pathGraph) -> (85 # 100 <= q /\ q <= 87 # 100)%Q) /\
    (~ allEqual (degreesOf pathGraph) -> (q <= 45 # 100)%Q) /\
    (GraphMetrics.determineOptimalApproach (JSNum.Fin q)
     = "QFT Quantum Walk (Shor-inspired)"%string
     <-> allEqual (degreesOf pathGraph)).
Proof.
  apply (calculateSymmetryScore_regularity pathGraph).
  - unfold inRange. simpl. repeat constructor.
  - discriminate.
Defined.

(** X11. The degenerate cases of the symmetry score.  On the graph with
    no node and no edge the first [reduce] throws a [TypeError]; on a
    graph with nodes and no edge the score is [NaN] (0 / 0); an edge that
    names a missing node makes it [NaN] too.  A [NaN] score is reported
    as "Hybrid Quantum-Classical". *)
Theorem calculateSymmetryScore_degenerate (g : Graph) :
  (nodes g = [] -> edges g = [] ->
   GraphMetrics.calculateSymmetryScore g = Thrown TypeError) /\
  (nodes g <> [] -> edges g = [] ->
   GraphMetrics.calculateSymmetryScore g = Returned JSNum.NaN) /\
  (~ inRange (List.length (nodes g)) (edges g) ->
   GraphMetrics.calculateSymmetryScore g = Returned JSNum.NaN) /\
  GraphMetrics.determineOptimalApproach JSNum.NaN
  = "Hybrid Quantum-Classical"%string.
Proof.
  split; [| split; [| split]].
  - intros Hn He. unfold GraphMetrics.calculateSymmetryScore.
    rewrite Hn, He. reflexivity.
  - apply MetricsFacts.score_edgeless.
  - intros Hout. apply MetricsFacts.symmetry_NaN.
    now apply MetricsFacts.computeDegrees_outside.
  - reflexivity.
Qed.

Lemma calculateSymmetryScore_degenerate_witness :
  GraphMetrics.calculateSymmetryScore (mkGraph [] []) = Thrown TypeError /\
  GraphMetrics.calculateSymmetryScore (mkGraph (nodes pathGraph) [])
  = Returned JSNum.NaN /\
  GraphMetrics.calculateSymmetryScore (mkGraph (nodes pathGraph) [(0, 9)])
  = Returned JSNum.NaN.
Proof.
  destruct (calculateSymmetryScore_degenerate (mkGraph [] []))
    as (H1 & _ & _ & _).
  destruct (calculateSymmetryScore_degenerate (mkGraph (nodes pathGraph) []))
    as (_ & H2 & _ & _).
  destruct (calculateSymmetryScore_degenerate
              (mkGraph (nodes pathGraph) [(0, 9)]))
    as (_ & _ & H3 & _).
  split; [| split].
  - apply H1; reflexivity.
  - apply H2; [discriminate | reflexivity].
  - apply H3. intros H. inversion H as [| ? ? [_ Hlt] _]. simpl in Hlt. lia.
Defined.

Lemma clamp_range (a : JSNum.num) :
  JSNum.max (JSNum.Fin 10) (JSNum.min (JSNum.Fin 80) a) = JSNum.NaN \/
  exists q : Q,
    JSNum.max (JSNum.Fin 10) (JSNum.min (JSNum.Fin 80) a) = JSNum.Fin q /\
    (10 <= q /\ q <= 80)%Q.
Proof.
  destruct a as [x | [|] |].
  - right. unfold JSNum.min, JSNum.gt.
    destruct (Qlt_bool x 80) eqn:E80.
    + apply Qlt_bool_iff in E80. unfold JSNum.max, JSNum.gt.
      destruct (Qlt_bool 10 x) eqn:E10.
      * apply Qlt_bool_iff in E10. exists x. split; [reflexivity |].
        split; lra.
      * exists 10%Q. split; [reflexivity |]. split; lra.
    + exists 80%Q. split; [reflexivity |]. split; lra.
  - right. exists 80%Q. split; [reflexivity |]. split; lra.
  - right. exists 10%Q. split; [reflexivity |]. split; lra.
  - left. reflexivity.
Qed.

(** X12. [calculateQuantumAdvantage] throws exactly when the symmetry
    score does, and what it returns is [NaN] or a number clamped into
    [[10, 80]]: never an infinity, whatever the density. *)
Theorem calculateQuantumAdvantage_range (g : Graph) :
  (forall e, GraphMetrics.calculateQuantumAdvantage g = Thrown e <->
             GraphMetrics.calculateSymmetryScore g = Thrown e) /\
  (forall v, GraphMetrics.calculateQuantumAdvantage g = Returned v ->
             v = JSNum.NaN \/
             exists q : Q, v = JSNum.Fin q /\ (10 <= q /\ q <= 80)%Q).
Proof.
  unfold GraphMetrics.calculateQuantumAdvantage.
  destruct (GraphMetrics.calculateSymmetryScore g) as [s | e0]; split.
  - intros e. split; discriminate.
  - intros v Hv. inversion Hv as [Hv']. apply clamp_range.
  - intros e. reflexivity.
  - intros v Hv. discriminate.
Qed.

Lemma calculateQuantumAdvantage_range_witness :
  JSNum.Fin (12890625000000000 # 585937500000000) = JSNum.NaN \/
  exists q : Q,
    JSNum.Fin (12890625000000000 # 585937500000000) = JSNum.Fin q /\
    (10 <= q /\ q <= 80)%Q.
Proof.
  apply (calculateQuantumAdvantage_range
           (fst (createGraph (constDraws 0) pageCanvas 5 0 "regular" 0))).
  vm_compute. reflexivity.
Defined.

(** ** The regular topology *)

Lemma filter_unique (f : nat -> bool) (i0 len : nat) :
  forall a,
    (forall k, a <= k < a + len -> (f k = true <-> k = i0)) ->
    List.length (filter f (seq a len))
    = if (a <=? i0) && (i0 <? a + len) then 1 else 0.
Proof.
  induction len as [| len IH]; intros a H.
  - simpl. destruct (Nat.leb_spec a i0); destruct (Nat.ltb_spec i0 (a + 0));
      simpl; try reflexivity; lia.
  - cbn [seq filter].
    assert (IH' : List.length (filter f (seq (S a) len))
                  = if (S a <=? i0) && (i0 <? S a + len) then 1 else 0).
    { apply IH. intros k Hk. apply H. lia. }
    destruct (f a) eqn:E.
    + assert (Ha : a = i0) by (apply H; [lia | exact E]).
      cbn [List.length]. rewrite IH'. subst a.
      destruct (Nat.leb_spec (S i0) i0); [lia |].
      destruct (Nat.leb_spec i0 i0); [| lia].
      destruct (Nat.ltb_spec i0 (i0 + S len)); [| lia]. reflexivity.
    + assert (Ha : a <> i0).
      { intros ->. assert (Ht : f i0 = true) by (apply H; [lia | reflexivity]).
        congruence. }
      rewrite IH'.
      destruct (Nat.leb_spec (S a) i0); destruct (Nat.leb_spec a i0);
        destruct (Nat.ltb_spec i0 (S a + len));
        destruct (Nat.ltb_spec i0 (a + S len)); simpl; try reflexivity; lia.
Qed.

Lemma mod_once (n x : nat) : n <= x < 2 * n -> x mod n = x - n.
Proof.
  intros H. replace x with ((x - n) + 1 * n) at 1 by lia.
  rewrite Nat.Div0.mod_add. apply Nat.mod_small. lia.
Qed.

Lemma shift_unique (n j i : nat) :
  1 <= n -> i < n ->
  List.length (filter (fun k => (k + j) mod n =? i) (seq 0 n)) = 1.
Proof.
  intros Hn Hi.
  assert (Hj : j mod n < n) by (apply Nat.mod_upper_bound; lia).
  set (i0 := if j mod n <=? i then i - j mod n else i + n - j mod n).
  assert (Hi0 : i0 < n).
  { subst i0. destruct (Nat.leb_spec (j mod n) i); lia. }
  rewrite (filter_unique _ i0 n 0).
  - destruct (Nat.leb_spec 0 i0); [| lia].
    destruct (Nat.ltb_spec i0 (0 + n)); [reflexivity | lia].
  - intros k Hk. rewrite Nat.eqb_eq.
    rewrite <- Nat.Div0.add_mod_idemp_r.
    destruct (Nat.lt_ge_cases (k + j mod n) n) as [Hlt | Hge].
    + rewrite Nat.mod_small by assumption.
      subst i0. destruct (Nat.leb_spec (j mod n) i); lia.
    + rewrite mod_once by lia.
      subst i0. destruct (Nat.leb_spec (j mod n) i); lia.
Qed.

Lemma degree_regular_count (n i : nat) (l : list nat) :
  degree
    (flat_map
       (fun k => [(k, (k + 1) mod n); (k, (k + 2) mod n); (k, (k + 3) mod n)])
       l) i
  = 3 * List.length (filter (fun k => k =? i) l)
    + List.length (filter (fun k => (k + 1) mod n =? i) l)
    + List.length (filter (fun k => (k + 2) mod n =? i) l)
    + List.length (filter (fun k => (k + 3) mod n =? i) l).
Proof.
  induction l as [| k l IH]; [reflexivity |].
  cbn [flat_map]. rewrite degree_app, IH. cbn [degree filter fst snd].
  destruct (k =? i); destruct ((k + 1) mod n =? i);
    destruct ((k + 2) mod n =? i); destruct ((k + 3) mod n =? i);
    cbn [List.length]; lia.
Qed.

Lemma self_unique (n i : nat) :
  i < n -> List.length (filter (fun k => k =? i) (seq 0 n)) = 1.
Proof.
  intros Hi. rewrite (filter_unique _ i n 0).
  - destruct (Nat.leb_spec 0 i); [| lia].
    destruct (Nat.ltb_spec i (0 + n)); [reflexivity | lia].
  - intros k _. apply Nat.eqb_eq.
Qed.

Lemma regularEdges_degree (n i : nat) :
  i < n -> degree (regularEdges n) i = 6.
Proof.
  intros Hi. rewrite regularEdges_flat_map, degree_regular_count.
  rewrite self_unique by assumption.
  rewrite !shift_unique by lia. reflexivity.
Qed.

Lemma regularEdges_inRange (n : nat) : inRange n (regularEdges n).
Proof.
  rewrite regularEdges_flat_map. unfold inRange.
  apply Forall_flat_map. apply Forall_forall. intros i Hi.
  apply in_seq in Hi.
  assert (Hn : n <> 0) by lia.
  repeat constructor; simpl; try lia; now apply Nat.mod_upper_bound.
Qed.

Lemma regularEdges_length (n : nat) : List.length (regularEdges n) = 3 * n.
Proof.
  rewrite regularEdges_flat_map.
  assert (H : forall l : list nat,
             List.length
               (flat_map
                  (fun i => [(i, (i + 1) mod n); (i, (i + 2) mod n);
                             (i, (i + 3) mod n)]) l)
             = 3 * List.length l).
  { induction l as [| k l IH]; [reflexivity |].
    cbn [flat_map List.length app]. rewrite IH. lia. }
  rewrite H, length_seq. reflexivity.
Qed.

(** X13. Under the regular topology on at least one node, generation
    pushes [3 n] edge entries, every node gets the degree counter 6 (three
    entries of its own and three from its predecessors, self-loops
    counted twice), the symmetry score lies between 0.85 and 0.87 and the
    approach reported is "QFT Quantum Walk (Shor-inspired)". *)
Theorem createGraph_regular_metrics (random : nat -> Q) (cv : Canvas)
    (n : nat) (p : Q) (c : nat) :
  1 <= n ->
  let g := fst (createGraph random cv n p "regular" c) in
  List.length (edges g) = 3 * n /\
  (forall i, i < n -> degree (edges g) i = 6) /\
  exists q : Q,
    GraphMetrics.calculateSymmetryScore g = Returned (JSNum.Fin q) /\
    (85 # 100 <= q /\ q <= 87 # 100)%Q /\
    GraphMetrics.determineOptimalApproach (JSNum.Fin q)
    = "QFT Quantum Walk (Shor-inspired)"%string.
Proof.
  intros Hn g.
  assert (He : edges g = regularEdges n)
    by apply createGraph_regular_edges.
  assert (Hl : List.length (nodes g) = n) by apply createGraph_length.
  split; [rewrite He; apply regularEdges_length |].
  split; [intros i Hi; rewrite He; now apply regularEdges_degree |].
  assert (Hreg : allEqual (degreesOf g)).
  { intros a b Ha Hb. unfold degreesOf in Ha, Hb.
    apply in_map_iff in Ha. destruct Ha as [i [<- Hi]].
    apply in_map_iff in Hb. destruct Hb as [j [<- Hj]].
    apply in_seq in Hi. apply in_seq in Hj. rewrite He.
    rewrite !regularEdges_degree by lia. reflexivity. }
  destruct (MetricsFacts.score_inRange g) as (q & Hq & Hval & _ & Happ).
  - rewrite Hl, He. apply regularEdges_inRange.
  - intros E. pose proof (regularEdges_length n) as Hlen.
    rewrite <- He, E in Hlen. simpl in Hlen. lia.
  - exists q. split; [exact Hq |]. specialize (Hval Hreg).
    split; [split; lra | now apply Happ].
Qed.

Lemma createGraph_regular_metrics_witness :
  let g := fst (createGraph (constDraws 0) pageCanvas 2 0 "regular" 0) in
  List.length (edges g) = 3 * 2 /\
  (forall i, i < 2 -> degree (edges g) i = 6) /\
  exists q : Q,
    GraphMetrics.calculateSymmetryScore g = Returned (JSNum.Fin q) /\
    (85 # 100 <= q /\ q <= 87 # 100)%Q /\
    GraphMetrics.determineOptimalApproach (JSNum.Fin q)
    = "QFT Quantum Walk (Shor-inspired)"%string.
Proof.
  apply (createGraph_regular_metrics (constDraws 0) pageCanvas 2 0 0). lia.
Defined.

(** ** More on graph generation *)

Lemma generateNodes_ids (random : nat -> Q) (cv : Canvas) (len : nat) :
  forall (a : nat) (ns : list Node) (c : nat),
    map id ns = seq 0 a ->
    map id (fst (forEachM (seq a len) (pushNode random cv) ns c))
    = seq 0 (a + len).
Proof.
  induction len as [| len IH]; intros a ns c H.
  - simpl. now rewrite Nat.add_0_r.
  - cbn [seq forEachM]. unfold bind.
    destruct (pushNode random cv ns a c) as [ns' c'] eqn:E.
    replace (a + S len) with (S a + len) by lia. apply IH.
    unfold pushNode, bind, mathRandom, ret in E. inversion E; subst.
    rewrite map_app, H. cbn [map id]. now rewrite <- seq_S.
Qed.

Lemma pushNode_layout (random : nat -> Q) (cv : Canvas) :
  unitDraws random ->
  (100 <= width cv)%Q -> (100 <= height cv)%Q ->
  forall (ns : list Node) (i c : nat),
    Forall (fun nd => radius nd = 20%Q /\
                      (50 <= x nd /\ x nd <= width cv - 50)%Q /\
                      (50 <= y nd /\ y nd <= height cv - 50)%Q) ns ->
    Forall (fun nd => radius nd = 20%Q /\
                      (50 <= x nd /\ x nd <= width cv - 50)%Q /\
                      (50 <= y nd /\ y nd <= height cv - 50)%Q)
      (fst (pushNode random cv ns i c)).
Proof.
  intros Hr Hw Hh ns i c Hns. unfold pushNode, bind, mathRandom, ret.
  cbn [fst]. apply Forall_app. split; [assumption |].
  constructor; [| constructor]. cbn [radius x y].
  destruct (Hr c) as [Hx0 Hx1]. destruct (Hr (S c)) as [Hy0 Hy1].
  split; [reflexivity |]. split; split; nra.
Qed.

(** X14. The nodes of a generated graph: node [i] carries the identifier
    [i] (so array index and [id] agree), its radius is 20, and with draws
    in [[0, 1)] on a canvas at least 100 wide and high its position keeps
    a margin of 50 from every border. *)
Theorem createGraph_nodes_layout (random : nat -> Q) (cv : Canvas) (n : nat)
    (p : Q) (type : string) (c : nat) :
  unitDraws random ->
  (100 <= width cv)%Q -> (100 <= height cv)%Q ->
  let g := fst (createGraph random cv n p type c) in
  map id (nodes g) = seq 0 n /\
  Forall (fun nd => radius nd = 20%Q /\
                    (50 <= x nd /\ x nd <= width cv - 50)%Q /\
                    (50 <= y nd /\ y nd <= height cv - 50)%Q) (nodes g).
Proof.
  intros Hr Hw Hh g. subst g. rewrite createGraph_nodes.
  unfold generateNodes. split.
  - apply (generateNodes_ids random cv n 0 [] c). reflexivity.
  - apply (forEachM_inv
             (Forall (fun nd => radius nd = 20%Q /\
                                (50 <= x nd /\ x nd <= width cv - 50)%Q /\
                                (50 <= y nd /\ y nd <= height cv - 50)%Q)));
      [| constructor].
    intros s a c'. now apply pushNode_layout.
Qed.

Lemma createGraph_nodes_layout_witness :
  let g := fst (createGraph (constDraws (1 # 2)) pageCanvas 3 (1 # 2)
                  "random" 0) in
  map id (nodes g) = seq 0 3 /\
  Forall (fun nd => radius nd = 20%Q /\
                    (50 <= x nd /\ x nd <= width pageCanvas - 50)%Q /\
                    (50 <= y nd /\ y nd <= height pageCanvas - 50)%Q)
    (nodes g).
Proof.
  apply (createGraph_nodes_layout (constDraws (1 # 2)) pageCanvas 3 (1 # 2)
           "random" 0).
  - apply unitDraws_const; [discriminate | reflexivity].
  - discriminate.
  - discriminate.
Defined.

(** X15. With draws in [[0, 1)] and at least four nodes, every edge that
    generation produces joins two different existing nodes, under each of
    the three topologies. *)
Theorem createGraph_valid_from_four (random : nat -> Q) (cv : Canvas)
    (n : nat) (p : Q) (type : string) (c : nat) :
  unitDraws random ->
  4 <= n ->
  forall e, In e (edges (fst (createGraph random cv n p type c))) ->
            fst e < n /\ snd e < n /\ fst e <> snd e.
Proof.
  intros Hr Hn e He.
  pose proof (createGraph_edges_valid random cv n p type c Hr Hn) as H.
  unfold validEdges in H. rewrite Forall_forall in H. now apply H.
Qed.

Lemma createGraph_valid_from_four_witness :
  fst (4, 0) < 5 /\ snd (4, 0) < 5 /\ fst (4, 0) <> snd (4, 0).
Proof.
  apply (createGraph_valid_from_four (constDraws 0) pageCanvas 5 0
           "scale-free" 0).
  - apply unitDraws_const; [discriminate | reflexivity].
  - lia.
  - vm_compute. tauto.
Defined.

Lemma forEachM_appends {A B : Type} (body : list B -> A -> Gen (list B))
    (l : list A) :
  (forall s a c, exists t, fst (body s a c) = s ++ t) ->
  forall (s : list B) (c : nat),
    exists t, fst (forEachM l body s c) = s ++ t.
Proof.
  intros Hbody. induction l as [| a l IH]; intros s c; simpl.
  - exists []. now rewrite app_nil_r.
  - unfold bind. destruct (Hbody s a c) as [t Ht].
    destruct (body s a c) as [s' c']. simpl in Ht. subst s'.
    destruct (IH (s ++ t) c') as [t' Ht']. exists (t ++ t').
    now rewrite Ht', app_assoc.
Qed.

Lemma attachNode_unfold (random : nat -> Q) (es : list Edge) (i c : nat) :
  attachNode random es i c
  = (es ++ [(i, match totalDegree (attachDegrees i es) with
                | Some t => pick (random c * inject_Z (Z.of_nat t))%Q 0
                              (attachDegrees i es)
                | None => 0
                end);
            (i, match totalDegree (attachDegrees i es) with
                | Some t => pick (random (S c) * inject_Z (Z.of_nat t))%Q 0
                              (attachDegrees i es)
                | None => 0
                end)],
     S (S c)).
Proof.
  unfold attachNode. cbn [seq forEachM].
  cbv [bind attachOne mathRandom ret].
  now rewrite <- app_assoc.
Qed.

Lemma scaleFree_length (random : nat -> Q) (l : list nat) :
  forall (es : list Edge) (c : nat),
    List.length (fst (forEachM l (attachNode random) es c))
    = List.length es + 2 * List.length l.
Proof.
  induction l as [| i l IH]; intros es c; simpl; [lia |].
  unfold bind. rewrite attachNode_unfold. rewrite IH, length_app. simpl. lia.
Qed.

Lemma generateNodes_draws (random : nat -> Q) (cv : Canvas) (l : list nat) :
  forall (ns : list Node) (c : nat),
    snd (forEachM l (pushNode random cv) ns c) = c + 3 * List.length l.
Proof.
  induction l as [| i l IH]; intros ns c; simpl; [lia |].
  unfold bind, pushNode at 1, mathRandom, ret. simpl.
  rewrite IH. lia.
Qed.

Lemma createGraph_scaleFree_edges (random : nat -> Q) (cv : Canvas) (n : nat)
    (p : Q) (c : nat) :
  edges (fst (createGraph random cv n p "scale-free" c))
  = fst (scaleFreeEdges random n (c + 3 * n)).
Proof.
  unfold createGraph, bind.
  pose proof (generateNodes_draws random cv (seq 0 n) [] c) as Hc.
  rewrite length_seq in Hc. fold (generateNodes random cv n) in Hc.
  destruct (generateNodes random cv n c) as [ns c1]. cbn [snd] in Hc.
  subst c1. cbn [String.eqb Ascii.eqb Bool.eqb].
  destruct (scaleFreeEdges random n (c + 3 * n)) as [es c2]. reflexivity.
Qed.

(** X16. Under the scale-free topology generation pushes the three seed
    entries and two entries per further node: [2 n - 3] entries on
    [n >= 3] nodes, and the three seed entries on fewer. *)
Theorem createGraph_scaleFree_count (random : nat -> Q) (cv : Canvas)
    (n : nat) (p : Q) (c : nat) :
  List.length (edges (fst (createGraph random cv n p "scale-free" c)))
  = 3 + 2 * (n - 3).
Proof.
  rewrite createGraph_scaleFree_edges. unfold scaleFreeEdges.
  rewrite scaleFree_length, length_seq. reflexivity.
Qed.

(** X17. The scale-free topology does not avoid parallel edges: when the
    two draws made for node 3 are equal, its two entries are the same
    pair, so the edge list has a duplicate. *)
Theorem createGraph_scaleFree_duplicate (random : nat -> Q) (cv : Canvas)
    (n : nat) (p : Q) (c : nat) :
  4 <= n ->
  random (c + 3 * n) = random (S (c + 3 * n)) ->
  ~ NoDup (edges (fst (createGraph random cv n p "scale-free" c))).
Proof.
  intros Hn Heq. rewrite createGraph_scaleFree_edges. unfold scaleFreeEdges.
  replace (n - 3) with (S (n - 4)) by lia. cbn [seq forEachM].
  unfold bind. rewrite attachNode_unfold. rewrite <- Heq.
  set (s := match totalDegree (attachDegrees 3 seedEdges) with
            | Some t => pick (random (c + 3 * n)%nat * inject_Z (Z.of_nat t))%Q 0
                          (attachDegrees 3 seedEdges)
            | None => 0
            end).
  destruct (forEachM_appends (attachNode random) (seq 4 (n - 4))
              (fun es i c' =>
                 ex_intro _ _ (f_equal fst (attachNode_unfold random es i c')))
              (seedEdges ++ [(3, s); (3, s)]) (S (S (c + 3 * n))))
    as [t Ht].
  rewrite Ht. intros Hnd.
  apply NoDup_app_remove_r in Hnd. apply NoDup_app_remove_l in Hnd.
  inversion Hnd as [| ? ? Hnotin _]. apply Hnotin. now left.
Qed.

Lemma createGraph_scaleFree_duplicate_witness :
  ~ NoDup (edges (fst (createGraph (constDraws (1 # 2)) pageCanvas 5 0
                         "scale-free" 0))).
Proof.
  apply (createGraph_scaleFree_duplicate (constDraws (1 # 2)) pageCanvas 5 0 0).
  - lia.
  - reflexivity.
Defined.

(** ** The random topology *)

Lemma subseq_app {A : Type} (a b c d : list A) :
  subseq a b -> subseq c d -> subseq (a ++ c) (b ++ d).
Proof.
  intros Hab Hcd. induction Hab; simpl; [assumption | |];
    constructor; assumption.
Qed.

Lemma subseq_In {A : Type} (l l' : list A) (x : A) :
  subseq l l' -> In x l -> In x l'.
Proof.
  intros H. induction H; simpl; intros Hx; [assumption | |].
  - destruct Hx as [-> | Hx]; [now left | right; auto].
  - right. auto.
Qed.

Lemma subseq_NoDup {A : Type} (l l' : list A) :
  subseq l l' -> NoDup l' -> NoDup l.
Proof.
  intros H. induction H; intros Hnd; [constructor | |].
  - inversion Hnd as [| ? ? Hnotin Hnd']; subst. constructor; [| auto].
    intros Hin. apply Hnotin. now apply subseq_In with l.
  - inversion Hnd; auto.
Qed.

Lemma randomPair_subseq (random : nat -> Q) (p : Q) (i : nat)
    (js : list nat) :
  forall (es : list Edge) (c : nat),
    exists t,
      fst (forEachM js (randomPair random p i) es c) = es ++ t /\
      subseq t (map (pair i) js).
Proof.
  induction js as [| j js IH]; intros es c.
  - exists []. split; [simpl; now rewrite app_nil_r | constructor].
  - cbn [forEachM map]. unfold bind at 1. unfold randomPair at 1.
    unfold bind, mathRandom, ret.
    destruct (Qlt_bool (random c) p).
    + destruct (IH (es ++ [(i, j)]) (S c)) as [t [Ht Hs]].
      exists ((i, j) :: t). split.
      * rewrite Ht, <- app_assoc. reflexivity.
      * now constructor.
    + destruct (IH es (S c)) as [t [Ht Hs]].
      exists t. split; [exact Ht | now constructor].
Qed.

Lemma randomEdges_subseq (random : nat -> Q) (n : nat) (p : Q)
    (l : list nat) :
  forall (es : list Edge) (c : nat),
    exists t,
      fst (forEachM l
             (fun es i =>
                forEachM (seq (i + 1) (n - (i + 1))) (randomPair random p i)
                  es)
             es c) = es ++ t /\
      subseq t
        (flat_map (fun i => map (pair i) (seq (i + 1) (n - (i + 1)))) l).
Proof.
  induction l as [| i l IH]; intros es c.
  - exists []. split; [simpl; now rewrite app_nil_r | constructor].
  - cbn [forEachM flat_map]. unfold bind.
    destruct (randomPair_subseq random p i (seq (i + 1) (n - (i + 1))) es c)
      as [t1 [Ht1 Hs1]].
    destruct (forEachM (seq (i + 1) (n - (i + 1))) (randomPair random p i)
                es c) as [es' c'].
    cbn [fst] in Ht1. subst es'.
    destruct (IH (es ++ t1) c') as [t2 [Ht2 Hs2]].
    exists (t1 ++ t2). split.
    + rewrite Ht2, app_assoc. reflexivity.
    + now apply subseq_app.
Qed.

Lemma In_allPairs (n : nat) (e : Edge) :
  In e (allPairs n) <-> fst e < snd e /\ snd e < n.
Proof.
  unfold allPairs. rewrite in_flat_map. split.
  - intros [i [Hi He]]. apply in_map_iff in He.
    destruct He as [j [<- Hj]]. apply in_seq in Hi. apply in_seq in Hj.
    simpl. lia.
  - intros [H1 H2]. exists (fst e). split; [apply in_seq; lia |].
    apply in_map_iff. exists (snd e). split; [now destruct e |].
    apply in_seq. lia.
Qed.

Lemma NoDup_pairs_from (n : nat) (l : list nat) :
  NoDup l ->
  NoDup (flat_map (fun i => map (pair i) (seq (i + 1) (n - (i + 1)))) l).
Proof.
  induction l as [| i l IH]; intros Hnd; [constructor |].
  inversion Hnd as [| ? ? Hnotin Hnd']; subst. cbn [flat_map].
  apply NoDup_app.
  - apply Finite.Injective_map_NoDup; [| apply seq_NoDup].
    intros a b H. now inversion H.
  - now apply IH.
  - intros e He Hin. apply in_map_iff in He. destruct He as [j [<- _]].
    apply in_flat_map in Hin. destruct Hin as [i' [Hi' He']].
    apply in_map_iff in He'. destruct He' as [j' [E _]].
    inversion E; subst. contradiction.
Qed.

(** X18. Under the random topology (any selector other than the two
    named ones, any [p], any draws) the edge list is a sub-sequence of
    the pairs [i < j < n] in loop order: no self-loop, no entry twice, no
    pair in both directions. *)
Theorem createGraph_random_simple (random : nat -> Q) (cv : Canvas)
    (n : nat) (p : Q) (type : string) (c : nat) :
  type <> "regular"%string ->
  type <> "scale-free"%string ->
  let es := edges (fst (createGraph random cv n p type c)) in
  subseq es (allPairs n) /\
  NoDup es /\
  (forall e, In e es -> fst e < snd e /\ snd e < n) /\
  (forall u v, In (u, v) es -> ~ In (v, u) es).
Proof.
  intros H1 H2 es. subst es.
  rewrite (createGraph_random_edges _ _ _ _ _ _ H1 H2).
  unfold randomEdges.
  destruct (randomEdges_subseq random n p (seq 0 n) []
              (snd (generateNodes random cv n c))) as [t [Ht Hs]].
  rewrite Ht. cbn [app]. fold (allPairs n) in Hs.
  assert (Hin : forall e, In e t -> fst e < snd e /\ snd e < n).
  { intros e He. apply In_allPairs. now apply subseq_In with t. }
  split; [exact Hs |]. split; [| split; [exact Hin |]].
  - apply (subseq_NoDup t (allPairs n) Hs).
    apply NoDup_pairs_from. apply seq_NoDup.
  - intros u v Huv Hvu. apply Hin in Huv. apply Hin in Hvu. simpl in *. lia.
Qed.

Lemma createGraph_random_simple_witness :
  let es := edges (fst (createGraph (constDraws (1 # 2)) pageCanvas 4
                          (3 # 4) "random" 0)) in
  subseq es (allPairs 4) /\
  NoDup es /\
  (forall e, In e es -> fst e < snd e /\ snd e < 4) /\
  (forall u v, In (u, v) es -> ~ In (v, u) es).
Proof.
  apply (createGraph_random_simple (constDraws (1 # 2)) pageCanvas 4 (3 # 4)
           "random" 0); discriminate.
Defined.

(** ** [analyzeGraph] *)

Lemma incr_at_nonempty (u : nat) (a : list JS.cell) : JS.incr_at u a <> [].
Proof. destruct u; destruct a; discriminate. Qed.

Lemma degrees_fold_nonempty (es : list Edge) :
  forall d : list JS.cell,
    d <> [] ->
    fold_left
      (fun d (e : Edge) => JS.incr_at (snd e) (JS.incr_at (fst e) d)) es d
    <> [].
Proof.
  induction es as [| e es IH]; intros d Hd; simpl; [exact Hd |].
  apply IH. apply incr_at_nonempty.
Qed.

Lemma computeDegrees_nil (n : nat) (es : list Edge) :
  computeDegrees n es = [] <-> n = 0 /\ es = [].
Proof.
  unfold computeDegrees. split.
  - intros H. destruct es as [| e es].
    + simpl in H. destruct n; [auto | discriminate].
    + exfalso. simpl in H. revert H. apply degrees_fold_nonempty.
      apply incr_at_nonempty.
  - intros [-> ->]. reflexivity.
Qed.

Lemma calculateSymmetryScore_throws (g : Graph) (e : Error) :
  GraphMetrics.calculateSymmetryScore g = Thrown e <->
  e = TypeError /\ nodes g = [] /\ edges g = [].
Proof.
  unfold GraphMetrics.calculateSymmetryScore.
  destruct (computeDegrees (List.length (nodes g)) (edges g))
    as [| d0 rest] eqn:E.
  - apply computeDegrees_nil in E. destruct E as [Hn He].
    apply length_zero_iff_nil in Hn. cbn [map]. split.
    + intros H. inversion H. auto.
    + intros [-> _]. reflexivity.
  - cbn [map]. cbv zeta. split; [discriminate |].
    intros (_ & Hn & He).
    assert (Hnil : computeDegrees (List.length (nodes g)) (edges g) = []).
    { apply computeDegrees_nil. rewrite Hn, He. auto. }
    congruence.
Qed.

(** X19. [analyzeGraph] does nothing without a graph, throws a
    [TypeError] exactly on the graph with no node and no edge, and on
    every other graph reports the score [calculateSymmetryScore] returns,
    the advantage [calculateQuantumAdvantage] returns and the approach
    [determineOptimalApproach] chooses from that score. *)
Theorem analyzeGraph_outcome (g : Graph) :
  GraphMetrics.analyzeGraph None = Returned None /\
  (GraphMetrics.analyzeGraph (Some g) = Thrown TypeError <->
   nodes g = [] /\ edges g = []) /\
  (nodes g <> [] \/ edges g <> [] ->
   exists s a,
     GraphMetrics.calculateSymmetryScore g = Returned s /\
     GraphMetrics.calculateQuantumAdvantage g = Returned a /\
     GraphMetrics.analyzeGraph (Some g)
     = Returned (Some (s, a, GraphMetrics.determineOptimalApproach s))).
Proof.
  split; [reflexivity |].
  unfold GraphMetrics.analyzeGraph, GraphMetrics.calculateQuantumAdvantage.
  pose proof (calculateSymmetryScore_throws g) as Hthrow.
  destruct (GraphMetrics.calculateSymmetryScore g) as [s | e0].
  - split.
    + split; [discriminate |]. intros [Hn He].
      assert (H : Returned s = Thrown TypeError)
        by (apply (proj2 (Hthrow TypeError)); auto).
      discriminate.
    + intros _. eexists. eexists.
      split; [reflexivity |]. split; reflexivity.
  - destruct (proj1 (Hthrow e0) eq_refl) as (-> & Hn & He). split.
    + split; [intros _; auto | reflexivity].
    + intros [H | H]; contradiction.
Qed.

Lemma analyzeGraph_outcome_witness :
  exists s a,
    GraphMetrics.calculateSymmetryScore pathGraph = Returned s /\
    GraphMetrics.calculateQuantumAdvantage pathGraph = Returned a /\
    GraphMetrics.analyzeGraph (Some pathGraph)
    = Returned (Some (s, a, GraphMetrics.determineOptimalApproach s)).
Proof.
  destruct (analyzeGraph_outcome pathGraph) as (_ & _ & H).
  apply H. left. discriminate.
Defined.

(** ** The solver page *)

Lemma simulateMWISSolution_unfold (random : nat -> Q) (g : Graph)
    (algorithm : string) (c : nat) :
  fst (SolverPage.simulateMWISSolution random g algorithm c)
  = SolverPage.mkMWISResult (findMWISSolution g)
      (calculateTotalWeight g (findMWISSolution g))
      (random c * (8 # 10) + (2 # 10))%Q
      algorithm
      (random (S c) * (3 # 10) + (7 # 10))%Q.
Proof. reflexivity. Qed.

(** X20. With draws in [[0, 1)], the result of a simulated solve holds the
    heuristic's Selection for the graph, its total weight (a number equal
    to the sum of the selected weights, never a failure), the algorithm
    name it was given, a time from 0.2 to 1 and a quality from 0.7 to 1.
    Both ends of the two ranges are closed and the lower end of the quality
    is put at 0.69, since the code rounds: its time reaches 1 and its
    quality starts at the binary64 value of 0.7. *)
Theorem simulateMWISSolution_result (random : nat -> Q) (g : Graph)
    (algorithm : string) (c : nat) :
  unitDraws random ->
  let r := fst (SolverPage.simulateMWISSolution random g algorithm c) in
  SolverPage.mr_solution r = findMWISSolution g /\
  (exists w, SolverPage.mr_totalWeight r = Some w /\
             (w == weightSum g (findMWISSolution g))%Q) /\
  ((2 # 10) <= SolverPage.mr_time r /\ SolverPage.mr_time r <= 1)%Q /\
  ((69 # 100) <= SolverPage.mr_quality r /\
   SolverPage.mr_quality r <= 1)%Q /\
  SolverPage.mr_algorithm r = algorithm.
Proof.
  intros Hr r. subst r. rewrite simulateMWISSolution_unfold.
  cbn [SolverPage.mr_solution SolverPage.mr_totalWeight SolverPage.mr_time
       SolverPage.mr_quality SolverPage.mr_algorithm].
  destruct (Hr c) as [Ht0 Ht1]. destruct (Hr (S c)) as [Hq0 Hq1].
  split; [reflexivity |]. split.
  - unfold calculateTotalWeight.
    destruct (totalWeight_fold_Some g (findMWISSolution g)
                (findMWISSolution_inRange g) 0%Q) as [w [Hw Heq]].
    exists w. split; [exact Hw |]. rewrite Heq. ring.
  - split; [split; lra |]. split; [split; lra | reflexivity].
Qed.

Lemma simulateMWISSolution_result_witness :
  let r := fst (SolverPage.simulateMWISSolution (constDraws (1 # 2))
                  pathGraph "classical" 0) in
  SolverPage.mr_solution r = findMWISSolution pathGraph /\
  (exists w, SolverPage.mr_totalWeight r = Some w /\
             (w == weightSum pathGraph (findMWISSolution pathGraph))%Q) /\
  ((2 # 10) <= SolverPage.mr_time r /\ SolverPage.mr_time r <= 1)%Q /\
  ((69 # 100) <= SolverPage.mr_quality r /\
   SolverPage.mr_quality r <= 1)%Q /\
  SolverPage.mr_algorithm r = "classical"%string.
Proof.
  apply (simulateMWISSolution_result (constDraws (1 # 2)) pathGraph
           "classical" 0).
  apply unitDraws_const; [discriminate | reflexivity].
Defined.

Lemma step_invariant (random : nat -> Q) (s : SolverPage.Solver)
    (ev : SolverPage.Event) :
  (exists g, SolverPage.graph s = Some g /\
             (SolverPage.solution s = None \/
              SolverPage.solution s = Some (findMWISSolution g))) ->
  exists g, SolverPage.graph (SolverPage.step random s ev) = Some g /\
            (SolverPage.solution (SolverPage.step random s ev) = None \/
             SolverPage.solution (SolverPage.step random s ev)
             = Some (findMWISSolution g)).
Proof.
  intros [g [Hg Hs]]. destruct s as [gr so pe]. simpl in Hg, Hs. subst gr.
  destruct ev as [cv n p type c | | algorithm c].
  - eexists. split; [reflexivity | now left].
  - exists g. split; [reflexivity | exact Hs].
  - destruct pe as [| k].
    + exists g. split; [reflexivity | exact Hs].
    + exists g. split; [reflexivity | now right].
Qed.

Lemma run_invariant (random : nat -> Q) (events : list SolverPage.Event) :
  forall s : SolverPage.Solver,
    (exists g, SolverPage.graph s = Some g /\
               (SolverPage.solution s = None \/
                SolverPage.solution s = Some (findMWISSolution g))) ->
    exists g,
      SolverPage.graph (fold_left (SolverPage.step random) events s) = Some g /\
      (SolverPage.solution (fold_left (SolverPage.step random) events s) = None \/
       SolverPage.solution (fold_left (SolverPage.step random) events s)
       = Some (findMWISSolution g)).
Proof.
  induction events as [| ev events IH]; intros s H; simpl; [exact H |].
  apply IH. now apply step_invariant.
Qed.

(** X21. After the constructor and any sequence of graph generations,
    clicks on Solve and timer firings, the solver holds a graph, and its
    stored solution is either [null] or the heuristic's Selection of the
    graph it holds now: generation clears the solution, and a timer that
    fires reads the current graph.  A stored solution therefore names
    existing nodes of the current graph, no two of them adjacent. *)
Theorem solver_solution_current (random : nat -> Q) (cv : Canvas) (c : nat)
    (events : list SolverPage.Event) :
  exists g,
    SolverPage.graph (SolverPage.run random cv c events) = Some g /\
    (SolverPage.solution (SolverPage.run random cv c events) = None \/
     SolverPage.solution (SolverPage.run random cv c events)
     = Some (findMWISSolution g)) /\
    (forall sel,
        SolverPage.solution (SolverPage.run random cv c events) = Some sel ->
        Forall (fun i => i < List.length (nodes g)) sel /\
        forall u v, In u sel -> In v sel -> u <> v ->
                    ~ adjacent (edges g) u v).
Proof.
  unfold SolverPage.run.
  destruct (run_invariant random events (SolverPage.construct random cv c))
    as [g [Hg Hs]].
  { eexists. split; [reflexivity | now left]. }
  exists g. split; [exact Hg |]. split; [exact Hs |].
  intros sel Hsel. destruct Hs as [Hs | Hs]; [congruence |].
  rewrite Hs in Hsel. inversion Hsel; subst sel.
  split; [apply findMWISSolution_inRange |].
  unfold findMWISSolution.
  destruct (greedyInv_greedy (edges g) (processingOrder g))
    as (_ & _ & _ & Hind & _).
  exact Hind.
Qed.

(** ** Drawing *)

Lemma drawEdges_error (ns : list Node) (es : list Edge) :
  (inRange (List.length ns) es -> snd (Rendering.drawEdges ns es) = None) /\
  (~ inRange (List.length ns) es ->
   snd (Rendering.drawEdges ns es) = Some TypeError).
Proof.
  induction es as [| [u v] es [IH1 IH2]]; simpl.
  - split; [reflexivity |]. intros H. exfalso. apply H. constructor.
  - destruct (nth_error ns u) as [n1 |] eqn:Eu;
      [destruct (nth_error ns v) as [n2 |] eqn:Ev |].
    + assert (Hu : u < List.length ns) by (apply nth_error_Some; congruence).
      assert (Hv : v < List.length ns) by (apply nth_error_Some; congruence).
      destruct (Rendering.drawEdges ns es) as [log err]. simpl in *. split.
      * intros H. inversion H; subst. auto.
      * intros H. apply IH2. intros Hin. apply H. constructor; [split |];
          assumption.
    + apply nth_error_None in Ev. simpl. split; [| reflexivity].
      intros H. inversion H as [| ? ? [_ Hlt] _]. simpl in Hlt. lia.
    + apply nth_error_None in Eu. simpl. split; [| reflexivity].
      intros H. inversion H as [| ? ? [Hlt _] _]. simpl in Hlt. lia.
Qed.

Lemma drawGraph_error (cv : Canvas) (g : Graph) (solution : option (list nat)) :
  snd (Rendering.drawGraph cv (Some g) solution)
  = snd (Rendering.drawEdges (nodes g) (edges g)).
Proof.
  unfold Rendering.drawGraph.
  destruct (Rendering.drawEdges (nodes g) (edges g)) as [log [e |]];
    reflexivity.
Qed.

(** X22. [drawGraph] throws a [TypeError] exactly when the graph has an
    edge that names a missing node (it always clears the canvas first);
    without a graph it only clears the canvas. *)
Theorem drawGraph_outcome (cv : Canvas) (g : Graph)
    (solution : option (list nat)) :
  Rendering.drawGraph cv None solution
  = ([Rendering.ClearRect 0 0 (width cv) (height cv)], None) /\
  (inRange (List.length (nodes g)) (edges g) ->
   snd (Rendering.drawGraph cv (Some g) solution) = None) /\
  (~ inRange (List.length (nodes g)) (edges g) ->
   snd (Rendering.drawGraph cv (Some g) solution) = Some TypeError) /\
  (exists rest,
      fst (Rendering.drawGraph cv (Some g) solution)
      = Rendering.ClearRect 0 0 (width cv) (height cv) :: rest).
Proof.
  split; [reflexivity |]. rewrite drawGraph_error.
  destruct (drawEdges_error (nodes g) (edges g)) as [H1 H2].
  split; [exact H1 |]. split; [exact H2 |].
  unfold Rendering.drawGraph.
  destruct (Rendering.drawEdges (nodes g) (edges g)) as [log [e |]];
    eexists; reflexivity.
Qed.

Lemma drawGraph_outcome_witness :
  snd (Rendering.drawGraph pageCanvas (Some pathGraph) None) = None /\
  snd (Rendering.drawGraph pageCanvas
         (Some (mkGraph (nodes pathGraph) [(0, 9)])) None)
  = Some TypeError.
Proof.
  destruct (drawGraph_outcome pageCanvas pathGraph None) as (_ & H1 & _ & _).
  destruct (drawGraph_outcome pageCanvas
              (mkGraph (nodes pathGraph) [(0, 9)]) None) as (_ & _ & H2 & _).
  split.
  - apply H1. unfold inRange. simpl. repeat constructor.
  - apply H2. intros H. inversion H as [| ? ? [_ Hlt] _]. simpl in Hlt. lia.
Defined.

Lemma validEdges_inRange (n : nat) (es : list Edge) :
  validEdges n es -> inRange n es.
Proof.
  unfold validEdges, inRange. apply Forall_impl. intros e (H1 & H2 & _).
  now split.
Qed.

Lemma allPairs_inRange (n : nat) (es : list Edge) :
  subseq es (allPairs n) -> inRange n es.
Proof.
  intros H. unfold inRange. apply Forall_forall. intros e He.
  apply (subseq_In _ _ e H) in He. apply In_allPairs in He. lia.
Qed.

Lemma analyzeGraph_cases (g : Graph) :
  (nodes g = [] /\ edges g = [] /\
   GraphMetrics.analyzeGraph (Some g) = Thrown TypeError) \/
  ((nodes g <> [] \/ edges g <> []) /\
   exists r, GraphMetrics.analyzeGraph (Some g) = Returned r).
Proof.
  unfold GraphMetrics.analyzeGraph, GraphMetrics.calculateQuantumAdvantage.
  pose proof (calculateSymmetryScore_throws g) as Hthrow.
  destruct (GraphMetrics.calculateSymmetryScore g) as [s | e0].
  - right. split; [| eexists; reflexivity].
    destruct (nodes g) as [| nd ns] eqn:En; [| left; discriminate].
    destruct (edges g) as [| e es] eqn:Ee; [| right; discriminate].
    exfalso.
    assert (H : Returned s = Thrown TypeError)
      by (apply (proj2 (Hthrow TypeError)); auto).
    discriminate.
  - left. destruct (proj1 (Hthrow e0) eq_refl) as (-> & Hn & He). auto.
Qed.

Lemma generateGraphError_inRange (random : nat -> Q) (cv : Canvas) (n : nat)
    (p : Q) (type : string) (c : nat) :
  inRange n (edges (fst (createGraph random cv n p type c))) ->
  Rendering.generateGraphError random cv n p type c
  = if (n =? 0)
       && match edges (fst (createGraph random cv n p type c)) with
          | [] => true
          | _ => false
          end
    then Some TypeError else None.
Proof.
  intros Hin. unfold Rendering.generateGraphError.
  set (g := fst (createGraph random cv n p type c)) in *.
  assert (Hl : List.length (nodes g) = n) by apply createGraph_length.
  rewrite drawGraph_error.
  destruct (drawEdges_error (nodes g) (edges g)) as [Hok _].
  rewrite Hl in Hok. rewrite (Hok Hin).
  destruct (analyzeGraph_cases g) as [(Hn & He & Ht) | (Hne & r & Hr)].
  - rewrite Ht, He. rewrite Hn in Hl. simpl in Hl. subst n. reflexivity.
  - rewrite Hr. destruct Hne as [Hne | Hne].
    + destruct n; [| reflexivity]. apply length_zero_iff_nil in Hl.
      contradiction.
    + destruct (edges g); [contradiction |]. now rewrite andb_false_r.
Qed.

Lemma scaleFree_small (random : nat -> Q) (n c : nat) :
  n < 3 -> fst (scaleFreeEdges random n c) = seedEdges.
Proof.
  intros H. unfold scaleFreeEdges.
  replace (n - 3) with 0 by lia. reflexivity.
Qed.

(** X23. How [generateGraph()] ends, with draws in [[0, 1)]: under the
    scale-free topology it throws a [TypeError] (from [drawGraph]) on
    fewer than three nodes and succeeds otherwise; under the other two it
    throws (from [analyzeGraph]) on zero nodes and succeeds otherwise. *)
Theorem generateGraph_outcome (random : nat -> Q) (cv : Canvas) (n : nat)
    (p : Q) (type : string) (c : nat) :
  unitDraws random ->
  Rendering.generateGraphError random cv n p type c
  = if String.eqb type "scale-free"
    then (if n <? 3 then Some TypeError else None)
    else (if n =? 0 then Some TypeError else None).
Proof.
  intros Hr.
  destruct (String.eqb_spec type "scale-free") as [-> | Hsf].
  - destruct (Nat.ltb_spec n 3) as [Hlt | Hge].
    + unfold Rendering.generateGraphError. rewrite drawGraph_error.
      destruct (drawEdges_error
                  (nodes (fst (createGraph random cv n p "scale-free" c)))
                  (edges (fst (createGraph random cv n p "scale-free" c))))
        as [_ Hbad].
      rewrite Hbad; [reflexivity |].
      rewrite createGraph_length, createGraph_scaleFree_edges,
        scaleFree_small by assumption.
      intros H. unfold seedEdges in H. simpl in H.
      inversion H as [| ? ? [_ Hfirst] Htail].
      inversion Htail as [| ? ? [_ Hsecond] _].
      simpl in *. lia.
    + rewrite generateGraphError_inRange.
      * destruct n; [lia | reflexivity].
      * apply validEdges_inRange. rewrite createGraph_scaleFree_edges.
        now apply scaleFreeEdges_valid.
  - destruct (String.eqb_spec type "regular") as [-> | Hreg].
    + rewrite generateGraphError_inRange.
      * rewrite createGraph_regular_edges.
        destruct n; [reflexivity | reflexivity].
      * rewrite createGraph_regular_edges. apply regularEdges_inRange.
    + pose proof (randomEdges_subseq random n p (seq 0 n) []
                    (snd (generateNodes random cv n c))) as [t [Ht Hs]].
      assert (He : edges (fst (createGraph random cv n p type c)) = t).
      { rewrite (createGraph_random_edges _ _ _ _ _ _ Hreg Hsf).
        exact Ht. }
      fold (allPairs n) in Hs.
      rewrite generateGraphError_inRange.
      * rewrite He. destruct n; [| reflexivity].
        inversion Hs. reflexivity.
      * rewrite He. now apply allPairs_inRange.
Qed.

Lemma generateGraph_outcome_witness :
  Rendering.generateGraphError (constDraws (1 # 2)) pageCanvas 2 0
    "scale-free" 0 = Some TypeError /\
  Rendering.generateGraphError (constDraws (1 # 2)) pageCanvas 0 0
    "random" 0 = Some TypeError /\
  Rendering.generateGraphError (constDraws (1 # 2)) pageCanvas 5 0
    "regular" 0 = None.
Proof.
  assert (Hr : unitDraws (constDraws (1 # 2)))
    by (apply unitDraws_const; [discriminate | reflexivity]).
  split; [| split].
  - apply (generateGraph_outcome (constDraws (1 # 2)) pageCanvas 2 0
             "scale-free" 0 Hr).
  - apply (generateGraph_outcome (constDraws (1 # 2)) pageCanvas 0 0
             "random" 0 Hr).
  - apply (generateGraph_outcome (constDraws (1 # 2)) pageCanvas 5 0
             "regular" 0 Hr).
Defined.

Lemma drawEdges_no_green (ns : list Node) (es : list Edge) :
  filter isGreenFill (fst (Rendering.drawEdges ns es)) = [].
Proof.
  induction es as [| [u v] es IH]; [reflexivity |]. simpl.
  destruct (nth_error ns u) as [n1 |]; [| reflexivity].
  destruct (nth_error ns v) as [n2 |]; [| reflexivity].
  destruct (Rendering.drawEdges ns es) as [log err]. simpl in *. exact IH.
Qed.

Lemma drawNode_green (solution : option (list nat)) (nd : Node) (i : nat) :
  List.length (filter isGreenFill (Rendering.drawNode solution nd i))
  = if Rendering.isSelected solution i then 1 else 0.
Proof.
  unfold Rendering.drawNode.
  destruct (Rendering.isSelected solution i); reflexivity.
Qed.

Lemma drawNodes_green (solution : option (list nat)) (ns : list Node) :
  forall i0,
    List.length
      (filter isGreenFill
         (concat (JS.mapi_from (Rendering.drawNode solution) i0 ns)))
    = List.length
        (filter (Rendering.isSelected solution) (seq i0 (List.length ns))).
Proof.
  induction ns as [| nd ns IH]; intros i0; [reflexivity |].
  cbn [JS.mapi_from concat List.length seq].
  rewrite filter_app, length_app, drawNode_green, IH. cbn [filter].
  destruct (Rendering.isSelected solution i0); reflexivity.
Qed.

Lemma selected_count (n : nat) (sel : list nat) :
  NoDup sel ->
  Forall (fun i => i < n) sel ->
  List.length (filter (fun i => JS.set_has i sel) (seq 0 n))
  = List.length sel.
Proof.
  intros Hnd Hall. apply Permutation_length. apply NoDup_Permutation.
  - apply NoDup_filter. apply seq_NoDup.
  - exact Hnd.
  - intros i. rewrite filter_In, in_seq, set_has_In. split.
    + tauto.
    + intros Hi. split; [| exact Hi].
      rewrite Forall_forall in Hall. specialize (Hall i Hi). lia.
Qed.

(** X24. On a graph whose edges name existing nodes, [drawGraph] fills
    green exactly the nodes the stored solution names: with a solution of
    distinct existing nodes the number of green fills is the size of the
    solution, and without a solution nothing is green. *)
Theorem drawGraph_green (cv : Canvas) (g : Graph) (sel : list nat) :
  inRange (List.length (nodes g)) (edges g) ->
  NoDup sel ->
  Forall (fun i => i < List.length (nodes g)) sel ->
  List.length
    (filter isGreenFill (fst (Rendering.drawGraph cv (Some g) (Some sel))))
  = List.length sel /\
  filter isGreenFill (fst (Rendering.drawGraph cv (Some g) None)) = [].
Proof.
  intros Hin Hnd Hall.
  pose proof (drawEdges_error (nodes g) (edges g)) as [Hok _].
  specialize (Hok Hin).
  pose proof (drawEdges_no_green (nodes g) (edges g)) as Hedges.
  unfold Rendering.drawGraph.
  destruct (Rendering.drawEdges (nodes g) (edges g)) as [log err].
  simpl in Hok, Hedges. subst err. cbn [fst]. split.
  - rewrite filter_app, length_app. cbn [app filter isGreenFill].
    rewrite Hedges. cbn [List.length]. unfold JS.mapi.
    rewrite drawNodes_green. now apply selected_count.
  - rewrite filter_app. cbn [app filter isGreenFill]. rewrite Hedges.
    cbn [app]. apply length_zero_iff_nil. unfold JS.mapi.
    rewrite drawNodes_green. cbn [Rendering.isSelected].
    generalize (seq 0 (List.length (nodes g))). intros l.
    induction l; simpl; auto.
Qed.

Lemma drawGraph_green_witness :
  List.length
    (filter isGreenFill
       (fst (Rendering.drawGraph pageCanvas (Some pathGraph) (Some [1; 3]))))
  = List.length [1; 3] /\
  filter isGreenFill (fst (Rendering.drawGraph pageCanvas (Some pathGraph) None))
  = [].
Proof.
  apply (drawGraph_green pageCanvas pathGraph [1; 3]).
  - unfold inRange. simpl. repeat constructor.
  - repeat constructor; simpl; intuition discriminate.
  - repeat constructor.
Defined.

Lemma solver_solution_current_witness :
  exists g,
    SolverPage.graph
      (SolverPage.run (constDraws (1 # 2)) pageCanvas 0
         [SolverPage.Solve; SolverPage.Timer "classical" 40]) = Some g /\
    (SolverPage.solution
       (SolverPage.run (constDraws (1 # 2)) pageCanvas 0
          [SolverPage.Solve; SolverPage.Timer "classical" 40]) = None \/
     SolverPage.solution
       (SolverPage.run (constDraws (1 # 2)) pageCanvas 0
          [SolverPage.Solve; SolverPage.Timer "classical" 40])
     = Some (findMWISSolution g)) /\
    (forall sel,
        SolverPage.solution
          (SolverPage.run (constDraws (1 # 2)) pageCanvas 0
             [SolverPage.Solve; SolverPage.Timer "classical" 40]) = Some sel ->
        Forall (fun i => i < List.length (nodes g)) sel /\
        forall u v, In u sel -> In v sel -> u <> v ->
                    ~ adjacent (edges g) u v).
Proof.
  apply (solver_solution_current (constDraws (1 # 2)) pageCanvas 0
           [SolverPage.Solve; SolverPage.Timer "classical" 40]).
Defined.
